(** * implicit: the ALS numerical core of [implicit/_implicit.pyx]

    A shallow embedding of the three entry points of the Cython module

      - [least_squares]     (direct solve, Cholesky with LU fallback),
      - [least_squares_cg]  (matrix-free conjugate gradient),
      - [calculate_loss]    (regularised training loss),

    together with the BLAS wrappers they call.  The module is generic in its
    element type (the fused type [floating]); the embedding is generic in a
    [Scalar] structure with two instances: IEEE binary64 ([float], the
    [double] specialisation, which computes) and the real numbers ([R], the
    exact arithmetic in which the algebraic properties are stated).

    Conventions of the embedding.
      - A two-dimensional memoryview is a record of its second extent and its
        rows; a one-dimensional buffer is a list.  A pointer [&M[i, 0]] is
        the row [i]; [A + j * factors] is an offset into the flat scratch
        buffer [A].
      - The module is compiled with [boundscheck(False)]: an access past the
        end of a buffer is undefined in the source.  The embedding reads the
        default element there and stops writing; every statement about
        results carries the shape conditions that keep all accesses in range.
      - [prange] is run in index order on one worker.  Each user's task reads
        shared read-only data and writes only its own row of [X].
      - [X] and [Y] are distinct buffers.
      - The LAPACK solvers are a parameter of [least_squares]; a reference
        model of the unblocked algorithms is given for runs. *)

From Stdlib Require Import List ZArith Lia Arith Bool Reals Lra Floats.
From Stdlib Require Import Permutation.
Import ListNotations.

(** ** The element type [floating] *)

Class Scalar (F : Type) : Type := {
  fzero : F;
  fone : F;
  fadd : F -> F -> F;
  fsub : F -> F -> F;
  fmul : F -> F -> F;
  fdiv : F -> F -> F;
  fsqrt : F -> F;
  fabs : F -> F;
  fltb : F -> F -> bool;
  feqb : F -> F -> bool;
  fofZ : Z -> F
}.

Declare Scope scalar_scope.
Delimit Scope scalar_scope with sc.
Notation "a +! b" := (fadd a b) (at level 50, left associativity) : scalar_scope.
Notation "a -! b" := (fsub a b) (at level 50, left associativity) : scalar_scope.
Notation "a *! b" := (fmul a b) (at level 40, left associativity) : scalar_scope.
Notation "a /! b" := (fdiv a b) (at level 40, left associativity) : scalar_scope.
Local Open Scope scalar_scope.

(** Conversion of a C or Python integer to [double]. *)
Definition float_of_Z (z : Z) : float :=
  match z with
  | Z0 => 0%float
  | Zpos _ => PrimFloat.of_uint63 (Uint63.of_Z z)
  | Zneg p => PrimFloat.opp (PrimFloat.of_uint63 (Uint63.of_Z (Zpos p)))
  end.

#[export] Instance float_scalar : Scalar float := {|
  fzero := 0%float;
  fone := 1%float;
  fadd := PrimFloat.add;
  fsub := PrimFloat.sub;
  fmul := PrimFloat.mul;
  fdiv := PrimFloat.div;
  fsqrt := PrimFloat.sqrt;
  fabs := PrimFloat.abs;
  fltb := PrimFloat.ltb;
  feqb := PrimFloat.eqb;
  fofZ := float_of_Z
|}.

#[export] Instance R_scalar : Scalar R := {|
  fzero := 0%R;
  fone := 1%R;
  fadd := Rplus;
  fsub := Rminus;
  fmul := Rmult;
  fdiv := Rdiv;
  fsqrt := R_sqrt.sqrt;
  fabs := Rbasic_fun.Rabs;
  fltb := fun a b => if Rlt_dec a b then true else false;
  feqb := fun a b => if Req_dec_T a b then true else false;
  fofZ := IZR
|}.

(** ** Arrays *)

(** A [floating[:, :]] memoryview: [M.shape[1]] and the rows; [M.shape[0]]
    is the number of rows. *)
Record ndarray2 (F : Type) : Type := mk_ndarray2 {
  shape1 : nat;
  rows : list (list F)
}.

Arguments mk_ndarray2 {F} _ _.
Arguments shape1 {F} _.
Arguments rows {F} _.

Definition shape0 {F} (M : ndarray2 F) : nat := length (rows M).

(** The buffer behind [&M[0, 0]], row-major. *)
Definition flat {F} (M : ndarray2 F) : list F := concat (rows M).

(** [&M[i, 0]]. *)
Definition row {F} (M : ndarray2 F) (i : nat) : list F := nth i (rows M) [].

Fixpoint update {A} (i : nat) (v : A) (l : list A) : list A :=
  match l, i with
  | [], _ => []
  | _ :: l', O => v :: l'
  | a :: l', S i' => a :: update i' v l'
  end.

Definition set_row {F} (i : nat) (v : list F) (M : ndarray2 F) : ndarray2 F :=
  {| shape1 := shape1 M; rows := update i v (rows M) |}.

(** [memcpy(dst, src, sizeof(floating) * n)]. *)
Definition memcpy {F} (n : nat) (src dst : list F) : list F :=
  firstn n src ++ skipn n dst.

(** Python's [range(a, b)]. *)
Definition range (a b : nat) : list nat := seq a (b - a).

(** A [scipy.sparse.csr_matrix]: the attributes the module reads. *)
Record csr_matrix (F : Type) : Type := mk_csr {
  indptr : list nat;
  indices : list nat;
  data : list F;
  shape : nat * nat;
  nnz : nat
}.

Arguments mk_csr {F} _ _ _ _ _.
Arguments indptr {F} _.
Arguments indices {F} _.
Arguments data {F} _.
Arguments shape {F} _.
Arguments nnz {F} _.

(** The exceptions a call can raise: the two [ValueError]s and the error of
    Python's division. *)
Inductive exn : Type :=
| ValueError_broadcast
    (* operands could not be broadcast together *)
| ValueError_singular (err : Z) (u : nat)
    (* "Singular matrix (err=%i) on row %i" *)
| ZeroDivisionError.
    (* Python float division by zero *)

Section Model.

Context {F : Type} {SF : Scalar F}.

(** ** BLAS wrappers (lines 13-35), unit increments *)

(** [axpy(n, da, dx, 1, dy, 1)]: dy := dy + da * dx on the first [n]
    elements. *)
Fixpoint axpy (n : nat) (da : F) (dx dy : list F) : list F :=
  match n, dx, dy with
  | S n', x :: dx', y :: dy' => (y +! da *! x) :: axpy n' da dx' dy'
  | _, _, _ => dy
  end.

(** [axpy] whose destination is [buf + off]. *)
Definition axpy_at (off n : nat) (da : F) (dx buf : list F) : list F :=
  firstn off buf ++ axpy n da dx (skipn off buf).

Fixpoint dot_loop (n : nat) (sx sy : list F) (dtemp : F) : F :=
  match n, sx, sy with
  | S n', x :: sx', y :: sy' => dot_loop n' sx' sy' (dtemp +! x *! y)
  | _, _, _ => dtemp
  end.

(** [dot(n, sx, 1, sy, 1)]. *)
Definition dot (n : nat) (sx sy : list F) : F := dot_loop n sx sy fzero.

(** [scal(n, sa, sx, 1)]: sx := sa * sx. *)
Fixpoint scal (n : nat) (sa : F) (sx : list F) : list F :=
  match n, sx with
  | S n', x :: sx' => (sa *! x) :: scal n' sa sx'
  | _, _ => sx
  end.

(** Row [i] of the symmetric matrix that [symv("U", n, ..., a, n, ...)]
    reads: only the upper triangle of the column-major view of [a] is
    referenced, entry (i, j) with i <= j being [a[i + j * n]]. *)
Definition sym_row (n : nat) (a : list F) (i : nat) : list F :=
  map (fun j => nth (Nat.min i j + Nat.max i j * n) a fzero) (seq 0 n).

(** [symv("U", n, alpha, a, n, x, 1, zero, y, 1)]: y := alpha * A * x.
    Every call of the module passes beta = 0, for which BLAS does not read
    the previous contents of [y]. *)
Definition symv (n : nat) (alpha : F) (a x : list F) : list F :=
  map (fun i => alpha *! dot n (sym_row n a i) x) (seq 0 n).

(** ** The numpy expressions of the preambles *)

Definition np_transpose (M : ndarray2 F) : ndarray2 F :=
  {| shape1 := shape0 M;
     rows := map (fun j => map (fun r => nth j r fzero) (rows M))
                 (seq 0 (shape1 M)) |}.

(** [numpy.dot(M, N)] for two-dimensional operands whose inner extents
    agree (they always do for [numpy.dot(numpy.transpose(Y), Y)]). *)
Definition np_dot (M N : ndarray2 F) : ndarray2 F :=
  {| shape1 := shape1 N;
     rows := map (fun r =>
                    map (fun j =>
                           fold_left (fun acc t =>
                                        acc +! nth t r fzero *! nth j (row N t) fzero)
                                     (seq 0 (shape0 N)) fzero)
                        (seq 0 (shape1 N)))
                 (rows M) |}.

Definition np_eye (n : nat) : ndarray2 F :=
  {| shape1 := n;
     rows := map (fun i => map (fun j => if i =? j then fone else fzero) (seq 0 n))
                 (seq 0 n) |}.

Definition np_zeros (n : nat) : list F := repeat fzero n.

(** [s * M] for a Python scalar [s]. *)
Definition np_scale (s : F) (M : ndarray2 F) : ndarray2 F :=
  {| shape1 := shape1 M; rows := map (map (fun x => s *! x)) (rows M) |}.

(** numpy's broadcasting rule for one axis. *)
Definition bcast_dim (a b : nat) : option nat :=
  if a =? b then Some a
  else if a =? 1 then Some b
  else if b =? 1 then Some a
  else None.

Definition bcast_get (M : ndarray2 F) (i j : nat) : F :=
  nth (if shape1 M =? 1 then 0 else j)
      (row M (if shape0 M =? 1 then 0 else i)) fzero.

(** [M + N] with broadcasting; raises [ValueError] when the shapes are
    incompatible. *)
Definition np_add (M N : ndarray2 F) : exn + ndarray2 F :=
  match bcast_dim (shape0 M) (shape0 N), bcast_dim (shape1 M) (shape1 N) with
  | Some r, Some c =>
      inr {| shape1 := c;
             rows := map (fun i => map (fun j => bcast_get M i j +! bcast_get N i j)
                                       (seq 0 c))
                         (seq 0 r) |}
  | _, _ => inl ValueError_broadcast
  end.

(** ** The [prange] loop over users

    The body returns the new contents of [X] and the exception it raised, if
    any; the first exception ends the loop. *)
Fixpoint prange_users (body : ndarray2 F -> nat -> ndarray2 F * option exn)
         (us : list nat) (X : ndarray2 F) : ndarray2 F * option exn :=
  match us with
  | [] => (X, None)
  | u :: us' =>
      match body X u with
      | (X', None) => prange_users body us' X'
      | (X', Some e) => (X', Some e)
      end
  end.

(** ** LAPACK

    [posv("U", n, 1, A, n, b, n, &err)] and [gesv(n, 1, A, n, pivot, b, n,
    &err)] belong to the linear-algebra backend: each receives the buffers
    [A] and [b], may overwrite both, and reports a status.  The pivot array
    is written by [gesv] and never read by the module. *)
Record lapack : Type := mk_lapack {
  posv : nat -> list F -> list F -> list F * list F * Z;
  gesv : nat -> list F -> list F -> list F * list F * Z
}.

Variable backend : lapack.

(** ** [least_squares] (lines 51-113) *)

(** One turn of the loop over the user's stored entries (lines 83-95). *)
Definition ls_accumulate (factors : nat) (Cui : csr_matrix F) (Y : ndarray2 F)
           (Ab : list F * list F) (index : nat) : list F * list F :=
  let '(A, b) := Ab in
  let i := nth index (indices Cui) 0 in
  let confidence := nth index (data Cui) fzero in
  let b := axpy factors confidence (row Y i) b in
  let A := fold_left
             (fun A j =>
                let temp := (confidence -! fone) *! nth j (row Y i) fzero in
                axpy_at (j * factors) factors temp (row Y i) A)
             (seq 0 factors) A in
  (A, b).

(** Lines 80-95: the scratch buffers [A] and [b] after the build. *)
Definition ls_build (factors : nat) (initialA : ndarray2 F) (initialB : list F)
           (Cui : csr_matrix F) (Y : ndarray2 F) (u : nat) : list F * list F :=
  let A := firstn (factors * factors) (flat initialA) in
  let b := firstn factors initialB in
  fold_left (ls_accumulate factors Cui Y)
            (range (nth u (indptr Cui) 0) (nth (u + 1) (indptr Cui) 0))
            (A, b).

(** Lines 97-101: Cholesky, then LU on the same buffers when it fails. *)
Definition ls_solve (factors : nat) (A b : list F) : list F * list F * Z :=
  let '(A, b, err) := posv backend factors A b in
  if (err =? 0)%Z then (A, b, err) else gesv backend factors A b.

(** The body of the loop over users (lines 76-108). *)
Definition ls_user (factors : nat) (initialA : ndarray2 F) (initialB : list F)
           (Cui : csr_matrix F) (Y : ndarray2 F)
           (X : ndarray2 F) (u : nat) : ndarray2 F * option exn :=
  let '(A, b) := ls_build factors initialA initialB Cui Y u in
  let '(_, b, err) := ls_solve factors A b in
  if (err =? 0)%Z
  then (set_row u (memcpy factors b (row X u)) X, None)
  else (X, Some (ValueError_singular err u)).

Definition least_squares (Cui : csr_matrix F) (X Y : ndarray2 F)
           (regularization : F) : ndarray2 F * option exn :=
  let users := shape0 X in
  let factors := shape1 X in
  let YtY := np_dot (np_transpose Y) Y in
  match np_add YtY (np_scale regularization (np_eye factors)) with
  | inl e => (X, Some e)
  | inr initialA =>
      let initialB := np_zeros factors in
      prange_users (ls_user factors initialA initialB Cui Y) (seq 0 users) X
  end.

(** ** [least_squares_cg] (lines 118-191) *)

(** The loop variables that survive one iteration of the solver; [x] is the
    pointer [&X[u, 0]], so the iterate lives in [X] itself. *)
Record cg_state : Type := mk_cg_state {
  cg_X : ndarray2 F;
  cg_r : list F;
  cg_p : list F;
  cg_rsold : F
}.

(** Lines 146-153: r = YtCuPu - YtCuY x, without forming YtCuY. *)
Definition cg_residual (N : nat) (YtY : ndarray2 F) (Cui : csr_matrix F)
           (Y : ndarray2 F) (u : nat) (x : list F) : list F :=
  let r := symv N (fofZ (-1)) (flat YtY) x in
  fold_left
    (fun r index =>
       let i := nth index (indices Cui) 0 in
       let confidence := nth index (data Cui) fzero in
       let temp := confidence -! (confidence -! fone) *! dot N (row Y i) x in
       axpy N temp (row Y i) r)
    (range (nth u (indptr Cui) 0) (nth (u + 1) (indptr Cui) 0)) r.

(** Lines 160-167: Ap = YtCuY p, without forming YtCuY. *)
Definition cg_Ap (N : nat) (YtY : ndarray2 F) (Cui : csr_matrix F)
           (Y : ndarray2 F) (u : nat) (p : list F) : list F :=
  let Ap := symv N fone (flat YtY) p in
  fold_left
    (fun Ap index =>
       let i := nth index (indices Cui) 0 in
       let confidence := nth index (data Cui) fzero in
       let temp := (confidence -! fone) *! dot N (row Y i) p in
       axpy N temp (row Y i) Ap)
    (range (nth u (indptr Cui) 0) (nth (u + 1) (indptr Cui) 0)) Ap.

(** Lines 159-187: the body of [for it in range(cg_steps)]. *)
Definition cg_iteration (N : nat) (YtY : ndarray2 F) (Cui : csr_matrix F)
           (Y : ndarray2 F) (u : nat) (st : cg_state) : cg_state :=
  let x := row (cg_X st) u in
  let p := cg_p st in
  let r := cg_r st in
  let rsold := cg_rsold st in
  let Ap := cg_Ap N YtY Cui Y u p in
  let alpha := rsold /! dot N p Ap in
  let x := axpy N alpha p x in
  let temp := alpha *! fofZ (-1) in
  let r := axpy N temp Ap r in
  let rsnew := dot N r r in
  let temp := rsnew /! rsold in
  let p := scal N temp p in
  let temp := fone in
  let p := axpy N temp r p in
  {| cg_X := set_row u x (cg_X st); cg_r := r; cg_p := p; cg_rsold := rsnew |}.

(** Lines 143-156: the state on entry to the iteration. *)
Definition cg_start (N : nat) (YtY : ndarray2 F) (Cui : csr_matrix F)
           (Y : ndarray2 F) (X : ndarray2 F) (u : nat) : cg_state :=
  let x := row X u in
  let r := cg_residual N YtY Cui Y u x in
  let p := firstn N r in
  let rsold := dot N r r in
  {| cg_X := X; cg_r := r; cg_p := p; cg_rsold := rsold |}.

(** The body of the loop over users (lines 142-187); [cg_steps] is a C int. *)
Definition cg_user (N : nat) (YtY : ndarray2 F) (Cui : csr_matrix F)
           (Y : ndarray2 F) (cg_steps : Z) (X : ndarray2 F) (u : nat) : ndarray2 F :=
  cg_X (Nat.iter (Z.to_nat cg_steps) (cg_iteration N YtY Cui Y u)
                 (cg_start N YtY Cui Y X u)).

Definition least_squares_cg (Cui : csr_matrix F) (X Y : ndarray2 F)
           (regularization : F) (cg_steps : Z) : ndarray2 F * option exn :=
  let users := shape0 X in
  let N := shape1 X in
  match np_add (np_dot (np_transpose Y) Y)
               (np_scale regularization (np_eye N)) with
  | inl e => (X, Some e)
  | inr YtY =>
      (fold_left (cg_user N YtY Cui Y cg_steps) (seq 0 users) X, None)
  end.

(** ** [calculate_loss] (lines 196-239) *)

(** The memory the function can reach: the two factor matrices and its four
    accumulators. *)
Record loss_state : Type := mk_loss_state {
  lo_X : ndarray2 F;
  lo_Y : ndarray2 F;
  lo_loss : F;
  lo_total_confidence : F;
  lo_item_norm : F;
  lo_user_norm : F
}.

(** Lines 219-227: one stored entry of user [u]; [r] is the scratch
    vector. *)
Definition loss_entry (N : nat) (Cui : csr_matrix F) (u : nat)
           (sr : loss_state * list F) (index : nat) : loss_state * list F :=
  let '(st, r) := sr in
  let i := nth index (indices Cui) 0 in
  let confidence := nth index (data Cui) fzero in
  let temp := (confidence -! fone) *! dot N (row (lo_Y st) i) (row (lo_X st) u)
              -! fofZ 2 *! confidence in
  let r := axpy N temp (row (lo_Y st) i) r in
  ({| lo_X := lo_X st; lo_Y := lo_Y st;
      lo_loss := lo_loss st +! confidence;
      lo_total_confidence := lo_total_confidence st +! confidence;
      lo_item_norm := lo_item_norm st;
      lo_user_norm := lo_user_norm st |}, r).

(** Lines 215-230: the body of the loop over users. *)
Definition loss_user (N : nat) (YtY : ndarray2 F) (Cui : csr_matrix F)
           (st : loss_state) (u : nat) : loss_state :=
  let r := symv N fone (flat YtY) (row (lo_X st) u) in
  let '(st, r) :=
    fold_left (loss_entry N Cui u)
              (range (nth u (indptr Cui) 0) (nth (u + 1) (indptr Cui) 0))
              (st, r) in
  {| lo_X := lo_X st; lo_Y := lo_Y st;
     lo_loss := lo_loss st +! dot N r (row (lo_X st) u);
     lo_total_confidence := lo_total_confidence st;
     lo_item_norm := lo_item_norm st;
     lo_user_norm := lo_user_norm st
                     +! dot N (row (lo_X st) u) (row (lo_X st) u) |}.

(** Lines 232-233: the body of the loop over items. *)
Definition loss_item (N : nat) (st : loss_state) (i : nat) : loss_state :=
  {| lo_X := lo_X st; lo_Y := lo_Y st;
     lo_loss := lo_loss st;
     lo_total_confidence := lo_total_confidence st;
     lo_item_norm := lo_item_norm st
                     +! dot N (row (lo_Y st) i) (row (lo_Y st) i);
     lo_user_norm := lo_user_norm st |}.

(** Lines 209-233: the state when both loops are done. *)
Definition loss_loops (Cui : csr_matrix F) (X Y : ndarray2 F) : loss_state :=
  let users := shape0 X in
  let N := shape1 X in
  let items := shape0 Y in
  let YtY := np_dot (np_transpose Y) Y in
  let st := {| lo_X := X; lo_Y := Y; lo_loss := fzero;
               lo_total_confidence := fzero;
               lo_item_norm := fzero; lo_user_norm := fzero |} in
  let st := fold_left (loss_user N YtY Cui) (seq 0 users) st in
  fold_left (loss_item N) (seq 0 items) st.

(** Line 239: the divisor is built from Python objects ([Cui.shape],
    [Cui.nnz]), so the division is Python's: it raises on a zero divisor. *)
Definition loss_divisor (Cui : csr_matrix F) (st : loss_state) : F :=
  lo_total_confidence st
  +! fofZ (Z.of_nat (fst (shape Cui)) * Z.of_nat (snd (shape Cui)))
  -! fofZ (Z.of_nat (nnz Cui)).

Definition calculate_loss (Cui : csr_matrix F) (X Y : ndarray2 F)
           (regularization : F) : loss_state * (exn + F) :=
  let st := loss_loops Cui X Y in
  let loss := lo_loss st
              +! regularization *! (lo_item_norm st +! lo_user_norm st) in
  let divisor := loss_divisor Cui st in
  (st, if feqb divisor fzero then inl ZeroDivisionError else inr (loss /! divisor)).

End Model.

(** ** A reference backend

    The unblocked LAPACK algorithms, on the column-major view of the buffer
    (entry (i, j) is [a[i + j * n]]): [dpotf2]/[dpotrs] with UPLO = "U" for
    [posv], and [dgetf2]/[dgetrs] with partial pivoting for [gesv].  Both
    factor in place; on a non-zero status the right-hand side is returned
    as it was received and the matrix as the factorisation left it. *)
Section Reference.

Context {F : Type} {SF : Scalar F}.

Definition at2 (n : nat) (a : list F) (i j : nat) : F := nth (i + j * n) a fzero.

Definition put2 (n : nat) (a : list F) (i j : nat) (v : F) : list F :=
  update (i + j * n) v a.

(** The sum of [f k] for the [k] of a list, accumulated left to right. *)
Definition sumf (ks : list nat) (f : nat -> F) : F :=
  fold_left (fun acc k => acc +! f k) ks fzero.

(** Column [j] of [dpotf2]: the pivot test, then the row of U right of it. *)
Definition potf2_step (n : nat) (st : list F * Z) (j : nat) : list F * Z :=
  let '(a, info) := st in
  if negb (info =? 0)%Z then st
  else
    let ajj := at2 n a j j -! sumf (seq 0 j) (fun i => at2 n a i j *! at2 n a i j) in
    if fltb fzero ajj then
      let ajj := fsqrt ajj in
      let a := put2 n a j j ajj in
      (fold_left
         (fun a k =>
            put2 n a j k
                 ((at2 n a j k
                   -! sumf (seq 0 j) (fun i => at2 n a i k *! at2 n a i j))
                  *! (fone /! ajj)))
         (seq (S j) (n - S j)) a, 0%Z)
    else (put2 n a j j ajj, Z.of_nat (S j)).

Definition potf2 (n : nat) (a : list F) : list F * Z :=
  fold_left (potf2_step n) (seq 0 n) (a, 0%Z).

(** Solve T x = b for the upper triangular T whose entry (i, k) is
    [t i k], last unknown first. *)
Definition back_subst (n : nat) (t : nat -> nat -> F) (b : list F) : list F :=
  fold_left
    (fun x i =>
       update i ((nth i x fzero
                  -! sumf (seq (S i) (n - S i)) (fun k => t i k *! nth k x fzero))
                 /! t i i) x)
    (rev (seq 0 n)) b.

(** Solve T x = b for the lower triangular T, first unknown first;
    [unit] tells that the diagonal of T is 1 and not stored. *)
Definition forward_subst (n : nat) (unit : bool) (t : nat -> nat -> F)
           (b : list F) : list F :=
  fold_left
    (fun x i =>
       let v := nth i x fzero -! sumf (seq 0 i) (fun k => t i k *! nth k x fzero) in
       update i (if unit then v else v /! t i i) x)
    (seq 0 n) b.

Definition posv_ref (n : nat) (a b : list F) : list F * list F * Z :=
  let '(a, info) := potf2 n a in
  if (info =? 0)%Z then
    let y := forward_subst n false (fun i k => at2 n a k i) b in
    (a, back_subst n (fun i k => at2 n a i k) y, info)
  else (a, b, info).

(** [idamax]: the first row at or below [j] whose entry in column [j] has
    the largest magnitude. *)
Definition pivot_row (n : nat) (a : list F) (j : nat) : nat :=
  fold_left (fun p i => if fltb (fabs (at2 n a p j)) (fabs (at2 n a i j)) then i else p)
            (seq (S j) (n - S j)) j.

Definition swap_rows (n : nat) (a : list F) (i p : nat) : list F :=
  fold_left (fun a k => put2 n (put2 n a i k (at2 n a p k)) p k (at2 n a i k))
            (seq 0 n) a.

Definition swap_elems (b : list F) (i p : nat) : list F :=
  update p (nth i b fzero) (update i (nth p b fzero) b).

(** Column [j] of [dgetf2]; the state carries the pivots chosen so far. *)
Definition getf2_step (n : nat) (st : list F * list nat * Z) (j : nat)
  : list F * list nat * Z :=
  let '(a, piv, info) := st in
  let p := pivot_row n a j in
  let '(a, info) :=
    if feqb (at2 n a p j) fzero
    then (a, if (info =? 0)%Z then Z.of_nat (S j) else info)
    else
      let a := swap_rows n a j p in
      (fold_left (fun a i => put2 n a i j (at2 n a i j /! at2 n a j j))
                 (seq (S j) (n - S j)) a, info) in
  let a :=
    fold_left
      (fun a k =>
         fold_left (fun a i => put2 n a i k (at2 n a i k -! at2 n a i j *! at2 n a j k))
                   (seq (S j) (n - S j)) a)
      (seq (S j) (n - S j)) a in
  (a, piv ++ [p], info).

Definition getf2 (n : nat) (a : list F) : list F * list nat * Z :=
  fold_left (getf2_step n) (seq 0 n) (a, [], 0%Z).

Definition gesv_ref (n : nat) (a b : list F) : list F * list F * Z :=
  let '(a, piv, info) := getf2 n a in
  if (info =? 0)%Z then
    let b := fold_left (fun b ip => swap_elems b (fst ip) (snd ip))
                       (combine (seq 0 n) piv) b in
    let y := forward_subst n true (fun i k => at2 n a i k) b in
    (a, back_subst n (fun i k => at2 n a i k) y, info)
  else (a, b, info).

Definition reference_lapack : lapack (F := F) :=
  {| posv := posv_ref; gesv := gesv_ref |}.

End Reference.

(** ** Well-formed inputs (the data model of the specification) *)

Section WellFormed.

Context {F : Type} {SF : Scalar F}.

Definition rectangular (M : ndarray2 F) : Prop :=
  Forall (fun r => length r = shape1 M) (rows M).

(** The stored entries of row [u]: the (item, confidence) pairs at the
    positions [indptr[u] .. indptr[u+1]). *)
Definition observed (Cui : csr_matrix F) (u : nat) : list (nat * F) :=
  map (fun index => (nth index (indices Cui) 0, nth index (data Cui) fzero))
      (range (nth u (indptr Cui) 0) (nth (u + 1) (indptr Cui) 0)).

(** Shapes agree, the row pointer has users+1 non-decreasing entries from 0
    to nnz, the index and value arrays have nnz entries, and every column
    index names an item. *)
Record wf_input (Cui : csr_matrix F) (X Y : ndarray2 F) : Prop := mk_wf_input {
  wf_X : rectangular X;
  wf_Y : rectangular Y;
  wf_width : shape1 Y = shape1 X;
  wf_shape : shape Cui = (shape0 X, shape0 Y);
  wf_indptr_length : length (indptr Cui) = S (shape0 X);
  wf_indptr_first : nth 0 (indptr Cui) 0 = 0;
  wf_indptr_mono :
    forall u, u < shape0 X -> nth u (indptr Cui) 0 <= nth (u + 1) (indptr Cui) 0;
  wf_indptr_last : nth (shape0 X) (indptr Cui) 0 = nnz Cui;
  wf_indices_length : length (indices Cui) = nnz Cui;
  wf_data_length : length (data Cui) = nnz Cui;
  wf_indices_range : Forall (fun i => i < shape0 Y) (indices Cui)
}.

(** One stored value per cell: no column index is repeated within a row. *)
Definition canonical (Cui : csr_matrix F) (users : nat) : Prop :=
  forall u, u < users -> NoDup (map fst (observed Cui u)).

End WellFormed.

(** Confidence values are non-negative weights. *)
Definition nonneg_confidence (Cui : csr_matrix R) : Prop :=
  Forall (fun c => (0 <= c)%R) (data Cui).

(** ** The quantities the specification names *)

Section Spec.

Context {F : Type} {SF : Scalar F}.

Definition fsum {A} (f : A -> F) (l : list A) : F :=
  fold_right (fun a s => f a +! s) fzero l.

(** [x . y] on the first [n] coordinates. *)
Definition vdot (n : nat) (x y : list F) : F :=
  fsum (fun k => nth k x fzero *! nth k y fzero) (seq 0 n).

(** The n-vector whose coordinate [k] is [f k]. *)
Definition vec (n : nat) (f : nat -> F) : list F := map f (seq 0 n).

(** [M x] for the matrix with entry (j, k) equal to [M j k]. *)
Definition mat_vec (n : nat) (M : nat -> nat -> F) (x : list F) : list F :=
  vec n (fun j => fsum (fun k => M j k *! nth k x fzero) (seq 0 n)).

(** Entry (j, k) of the Gram matrix YtY. *)
Definition gram (Y : ndarray2 F) (j k : nat) : F :=
  fsum (fun y => nth j y fzero *! nth k y fzero) (rows Y).

(** A = YtY + regularization * I + sum over u's observed items of
    (confidence - 1) * yi yi^t. *)
Definition normal_matrix (Cui : csr_matrix F) (Y : ndarray2 F)
           (regularization : F) (u : nat) (j k : nat) : F :=
  gram Y j k +! (if j =? k then regularization else fzero)
  +! fsum (fun ic => (snd ic -! fone)
                     *! (nth j (row Y (fst ic)) fzero *! nth k (row Y (fst ic)) fzero))
          (observed Cui u).

(** b = sum over u's observed items of confidence * yi. *)
Definition normal_rhs (Cui : csr_matrix F) (Y : ndarray2 F) (u : nat) (j : nat) : F :=
  fsum (fun ic => snd ic *! nth j (row Y (fst ic)) fzero) (observed Cui u).

(** The conjugate-gradient recurrence of the specification, for a system
    given by its matrix [A]. *)
Record cg_vars : Type := mk_cg_vars {
  sv_x : list F;
  sv_r : list F;
  sv_p : list F;
  sv_rsold : F
}.

Definition cg_step (n : nat) (A : nat -> nat -> F) (v : cg_vars) : cg_vars :=
  let Ap := mat_vec n A (sv_p v) in
  let alpha := sv_rsold v /! vdot n (sv_p v) Ap in
  let x := vec n (fun k => nth k (sv_x v) fzero +! alpha *! nth k (sv_p v) fzero) in
  let r := vec n (fun k => nth k (sv_r v) fzero -! alpha *! nth k Ap fzero) in
  let rsnew := vdot n r r in
  let p := vec n (fun k => nth k r fzero
                           +! (rsnew /! sv_rsold v) *! nth k (sv_p v) fzero) in
  {| sv_x := x; sv_r := r; sv_p := p; sv_rsold := rsnew |}.

(** r0 = b - A x0, p0 = r0, rsold = r0 . r0. *)
Definition cg_init (n : nat) (A : nat -> nat -> F) (b : nat -> F) (x0 : list F)
  : cg_vars :=
  let r0 := vec n (fun j => b j -! nth j (mat_vec n A x0) fzero) in
  {| sv_x := x0; sv_r := r0; sv_p := r0; sv_rsold := vdot n r0 r0 |}.

(** The sum of all stored confidence values. *)
Definition total_confidence (Cui : csr_matrix F) : F :=
  fsum (fun c => c) (data Cui).

(** The per-user term: r . x with r = (YtY) x corrected, for each observed
    item, by adding ((confidence - 1) (yi . x) - 2 confidence) yi. *)
Definition user_term (Cui : csr_matrix F) (X Y : ndarray2 F) (u : nat) : F :=
  let n := shape1 X in
  let x := row X u in
  let r := vec n (fun j =>
                    nth j (mat_vec n (gram Y) x) fzero
                    +! fsum (fun ic =>
                               ((snd ic -! fone) *! vdot n (row Y (fst ic)) x
                                -! fofZ 2 *! snd ic)
                               *! nth j (row Y (fst ic)) fzero)
                            (observed Cui u)) in
  vdot n r x.

Definition sum_user_terms (Cui : csr_matrix F) (X Y : ndarray2 F) : F :=
  fsum (user_term Cui X Y) (seq 0 (shape0 X)).

Definition sum_sq_norms (n : nat) (M : ndarray2 F) : F :=
  fsum (fun r => vdot n r r) (rows M).

(** total_confidence + users * items - nnz. *)
Definition loss_denominator (Cui : csr_matrix F) (X Y : ndarray2 F) : F :=
  total_confidence Cui
  +! fofZ (Z.of_nat (shape0 X) * Z.of_nat (shape0 Y))
  -! fofZ (Z.of_nat (nnz Cui)).

(** The loss as the specification words it. *)
Definition loss_as_specified (Cui : csr_matrix F) (X Y : ndarray2 F)
           (regularization : F) : F :=
  (sum_user_terms Cui X Y
   +! regularization *! (sum_sq_norms (shape1 X) X +! sum_sq_norms (shape1 X) Y))
  /! loss_denominator Cui X Y.

(** The loss with the constant term of the objective: every stored
    confidence is also added to the numerator. *)
Definition loss_with_constant (Cui : csr_matrix F) (X Y : ndarray2 F)
           (regularization : F) : F :=
  (sum_user_terms Cui X Y +! total_confidence Cui
   +! regularization *! (sum_sq_norms (shape1 X) X +! sum_sq_norms (shape1 X) Y))
  /! loss_denominator Cui X Y.

End Spec.

(** ** The contract of the Cholesky solve, in exact arithmetic *)

Section Contract.

Local Open Scope R_scope.

(** x^t M x. *)
Definition quad_form (n : nat) (M : nat -> nat -> R) (x : list R) : R :=
  vdot n x (mat_vec n M x).

Definition symmetric (n : nat) (M : nat -> nat -> R) : Prop :=
  forall i j, (i < n)%nat -> (j < n)%nat -> M i j = M j i.

Definition positive_definite (n : nat) (M : nat -> nat -> R) : Prop :=
  forall x, (exists k, (k < n)%nat /\ nth k x 0 <> 0) -> 0 < quad_form n M x.

(** [x] is an n-vector with M x = b. *)
Definition solves (n : nat) (M : nat -> nat -> R) (x : list R) (b : nat -> R)
  : Prop :=
  length x = n /\ forall j, (j < n)%nat -> nth j (mat_vec n M x) 0 = b j.

(** On a symmetric positive definite matrix of order [n], [posv] reports
    status 0 and leaves the solution in [b]. *)
Definition posv_solves_spd (backend : lapack) (n : nat) : Prop :=
  forall A b,
    length A = (n * n)%nat -> length b = n ->
    symmetric n (at2 n A) -> positive_definite n (at2 n A) ->
    exists A' x,
      posv backend n A b = (A', x, 0%Z)
      /\ solves n (at2 n A) x (fun j => nth j b 0).

End Contract.

(** ** Auxiliary definitions for the proofs *)

(** The candidate that the solve leaves in [b] for user [u]. *)
Definition ls_candidate (backend : lapack (F := R)) (n : nat)
           (initialA : ndarray2 R) (Cui : csr_matrix R) (Y : ndarray2 R)
           (u : nat) : list R :=
  snd (fst (ls_solve backend n
                     (fst (ls_build n initialA (np_zeros n) Cui Y u))
                     (snd (ls_build n initialA (np_zeros n) Cui Y u)))).

(** The loop variables of [least_squares_cg] for user [u], started on
    [X0], hold the variables of the recurrence. *)
Definition cg_holds (n u : nat) (X0 : ndarray2 R) (st : cg_state)
           (v : cg_vars) : Prop :=
  cg_X st = set_row u (sv_x v) X0
  /\ cg_r st = sv_r v /\ cg_p st = sv_p v /\ cg_rsold st = sv_rsold v
  /\ length (sv_x v) = n /\ length (sv_r v) = n /\ length (sv_p v) = n.

(** Two states of the solver for user [u] that differ at most in the rows
    of other users. *)
Definition cg_agree {F : Type} (u : nat) (st1 st2 : cg_state (F := F)) : Prop :=
  cg_r st1 = cg_r st2 /\ cg_p st1 = cg_p st2 /\ cg_rsold st1 = cg_rsold st2
  /\ row (cg_X st1) u = row (cg_X st2) u
  /\ u < shape0 (cg_X st1) /\ u < shape0 (cg_X st2).

(** ** The objective that [calculate_loss] evaluates

    The objective of implicit-feedback matrix factorisation, written cell
    by cell and independently of the loops of the module. *)

Section Objective.

Context {F : Type} {SF : Scalar F}.

(** The confidence stored for cell (u, i), if there is one. *)
Definition stored (Cui : csr_matrix F) (u i : nat) : option F :=
  option_map snd (find (fun ic => fst ic =? i) (observed Cui u)).

(** What cell (u, i) adds to the objective when [x] holds the factors of
    user [u]: confidence * (preference - x . yi)^2, where a stored cell has
    preference 1 and the stored confidence, and every other cell has
    preference 0 and confidence 1. *)
Definition cell_error (Cui : csr_matrix F) (Y : ndarray2 F) (n u : nat)
           (x : list F) (i : nat) : F :=
  let d := vdot n (row Y i) x in
  match stored Cui u i with
  | Some c => c *! ((fone -! d) *! (fone -! d))
  | None => d *! d
  end.

(** The part of the objective that depends on the factors of user [u]. *)
Definition user_cost (Cui : csr_matrix F) (Y : ndarray2 F) (regularization : F)
           (n u : nat) (x : list F) : F :=
  fsum (cell_error Cui Y n u x) (seq 0 (shape0 Y))
  +! regularization *! vdot n x x.

(** The sum over all cells of the weighted squared error, plus the
    regularization of both factor matrices. *)
Definition als_objective (Cui : csr_matrix F) (X Y : ndarray2 F)
           (regularization : F) : F :=
  fsum (fun u => user_cost Cui Y regularization (shape1 X) u (row X u))
       (seq 0 (shape0 X))
  +! regularization *! sum_sq_norms (shape1 X) Y.

End Objective.


(** ** Concrete inputs *)

Section RealExamples.

Local Open Scope R_scope.

(** Three users, two items, two factors: user 0 observed item 0 with
    confidence 2, user 1 observed nothing, user 2 observed item 1 with
    confidence 3. *)
Definition rex_Y : ndarray2 R := {| shape1 := 2; rows := [[1; 2]; [3; 4]] |}.
Definition rex_X : ndarray2 R :=
  {| shape1 := 2; rows := [[0; 0]; [5; 7]; [1; 1]] |}.
Definition rex_Cui : csr_matrix R :=
  {| indptr := [0; 1; 1; 2]%nat; indices := [0; 1]%nat; data := [2; 3];
     shape := (3, 2)%nat; nnz := 2%nat |}.

(** One user, one item, one factor, x = y = 1, confidence 2. *)
Definition cl_X : ndarray2 R := {| shape1 := 1; rows := [[1]] |}.
Definition cl_Y : ndarray2 R := {| shape1 := 1; rows := [[1]] |}.
Definition cl_Cui : csr_matrix R :=
  {| indptr := [0; 1]%nat; indices := [0]%nat; data := [2];
     shape := (1, 1)%nat; nnz := 1%nat |}.

(** No user and no item. *)
Definition empty_X : ndarray2 R := {| shape1 := 1; rows := [] |}.
Definition empty_Cui : csr_matrix R :=
  {| indptr := [0]%nat; indices := []; data := [];
     shape := (0, 0)%nat; nnz := 0%nat |}.

End RealExamples.

Section FloatExamples.

Local Open Scope float_scope.

(** One user, one item y = (2, 1) observed with confidence 1, and
    regularization 0: the normal matrix [[4, 2], [2, 1]] is singular. *)
Definition rank1_Y : ndarray2 float := {| shape1 := 2; rows := [[2; 1]] |}.
Definition rank1_X : ndarray2 float := {| shape1 := 2; rows := [[0; 0]] |}.
Definition rank1_Cui : csr_matrix float :=
  {| indptr := [0; 1]%nat; indices := [0]%nat; data := [1];
     shape := (1, 1)%nat; nnz := 1%nat |}.

(** One user with no observation and a zero factor row. *)
Definition z_Y : ndarray2 float := {| shape1 := 1; rows := [[1]] |}.
Definition z_X : ndarray2 float := {| shape1 := 1; rows := [[0]] |}.
Definition z_Cui : csr_matrix float :=
  {| indptr := [0; 0]%nat; indices := []; data := [];
     shape := (1, 1)%nat; nnz := 0%nat |}.
Definition z_YtY : ndarray2 float := {| shape1 := 1; rows := [[1.5]] |}.

(** Two users, two items, two factors. *)
Definition s_Y : ndarray2 float := {| shape1 := 2; rows := [[1; 0]; [0; 1]] |}.
Definition s_X : ndarray2 float := {| shape1 := 2; rows := [[1; 1]; [1; 1]] |}.
Definition s_Cui : csr_matrix float :=
  {| indptr := [0; 1; 1]%nat; indices := [0]%nat; data := [2];
     shape := (2, 2)%nat; nnz := 1%nat |}.

(** The same matrix with a row pointer that decreases and does not end at
    nnz. *)
Definition bad_Cui : csr_matrix float :=
  {| indptr := [0; 1; 0]%nat; indices := [0]%nat; data := [2];
     shape := (2, 2)%nat; nnz := 1%nat |}.

(** User factors of width 1 against item factors of width 2. *)
Definition narrow_X : ndarray2 float := {| shape1 := 1; rows := [[1]; [1]] |}.

(** User factors of width 3 against item factors of width 2. *)
Definition wide_X : ndarray2 float :=
  {| shape1 := 3; rows := [[1; 1; 1]; [1; 1; 1]] |}.

(** User 1 stores an explicit confidence 0 for item 0: with
    regularization 0 its normal matrix is diag(0, 1). *)
Definition sing_X : ndarray2 float := {| shape1 := 2; rows := [[3; 4]; [5; 6]] |}.

End FloatExamples.

Section FurtherExamples.

Local Open Scope float_scope.

(** The sum YtY + regularization * eye(2) of the preamble for [s_Y] and
    regularization 1. *)
Definition s_initialA : ndarray2 float :=
  {| shape1 := 2; rows := [[2; 0]; [0; 2]] |}.

End FurtherExamples.

Section EntryOrderExamples.

Local Open Scope R_scope.

(** One user that stores items 0 and 1 of [rex_Y] with confidences 2 and
    3, the entries of its row in the two possible orders. *)
Definition pair_X : ndarray2 R := {| shape1 := 2; rows := [[1; 1]] |}.
Definition pair_Cui : csr_matrix R :=
  {| indptr := [0; 2]%nat; indices := [0; 1]%nat; data := [2; 3];
     shape := (1, 2)%nat; nnz := 2%nat |}.
Definition pair_Cui_swapped : csr_matrix R :=
  {| indptr := [0; 2]%nat; indices := [1; 0]%nat; data := [3; 2];
     shape := (1, 2)%nat; nnz := 2%nat |}.

End EntryOrderExamples.

(** * Proofs *)

Section ListFacts.

Context {F : Type} {SF : Scalar F}.

Lemma length_update {A} (i : nat) (v : A) (l : list A) :
  length (update i v l) = length l.
Proof.
  revert i; induction l as [|a l IH]; intros [|i]; simpl; auto.
Qed.

Lemma nth_update_same {A} (i : nat) (v : A) (l : list A) (d : A) :
  i < length l -> nth i (update i v l) d = v.
Proof.
  revert i; induction l as [|a l IH]; intros [|i]; simpl; intros Hi;
    try lia; auto.
  apply IH; lia.
Qed.

Lemma nth_update_other {A} (i j : nat) (v : A) (l : list A) (d : A) :
  j <> i -> nth j (update i v l) d = nth j l d.
Proof.
  revert i j; induction l as [|a l IH]; intros [|i] [|j]; simpl; intros Hij;
    try congruence; auto.
Qed.

Lemma update_nth_id {A} (i : nat) (l : list A) (d : A) :
  update i (nth i l d) l = l.
Proof.
  revert i; induction l as [|a l IH]; intros [|i]; simpl; auto.
  now rewrite IH.
Qed.

Lemma length_axpy (n : nat) (da : F) (dx dy : list F) :
  length (axpy n da dx dy) = length dy.
Proof.
  revert dx dy; induction n as [|n IH]; intros [|x dx] [|y dy]; simpl; auto.
Qed.

Lemma ltb_0_r (k : nat) : (k <? 0) = false.
Proof. reflexivity. Qed.

Lemma nth_axpy (n : nat) (da : F) (dx dy : list F) (k : nat) :
  nth k (axpy n da dx dy) fzero =
  if (k <? n) && (k <? length dx) && (k <? length dy)
  then nth k dy fzero +! da *! nth k dx fzero
  else nth k dy fzero.
Proof.
  revert dx dy k; induction n as [|n IH]; intros dx dy k.
  - destruct dx, dy; reflexivity.
  - destruct dx as [|x dx], dy as [|y dy]; cbn [axpy length].
    + now rewrite ltb_0_r, !andb_false_r.
    + now rewrite ltb_0_r, andb_false_r.
    + now rewrite ltb_0_r, !andb_false_r.
    + destruct k as [|k]; [reflexivity|]. cbn [nth]. rewrite IH. reflexivity.
Qed.

Lemma length_scal (n : nat) (sa : F) (sx : list F) :
  length (scal n sa sx) = length sx.
Proof.
  revert sx; induction n as [|n IH]; intros [|x sx]; simpl; auto.
Qed.

Lemma nth_scal (n : nat) (sa : F) (sx : list F) (k : nat) :
  nth k (scal n sa sx) fzero =
  if (k <? n) && (k <? length sx) then sa *! nth k sx fzero else nth k sx fzero.
Proof.
  revert sx k; induction n as [|n IH]; intros [|x sx] k; cbn [scal length];
    rewrite ?ltb_0_r, ?andb_false_r; try reflexivity.
  destruct k as [|k]; [reflexivity|]. cbn [nth]. now rewrite IH.
Qed.

Lemma length_symv (n : nat) (alpha : F) (a x : list F) :
  length (symv n alpha a x) = n.
Proof. unfold symv. now rewrite length_map, length_seq. Qed.

Lemma nth_map_seq {A} (f : nat -> A) (n k : nat) (d : A) :
  k < n -> nth k (map f (seq 0 n)) d = f k.
Proof.
  intros Hk. rewrite (nth_indep _ d (f 0)) by now rewrite length_map, length_seq.
  rewrite (map_nth f (seq 0 n) 0 k). now rewrite seq_nth.
Qed.

Lemma nth_symv (n : nat) (alpha : F) (a x : list F) (k : nat) :
  k < n ->
  nth k (symv n alpha a x) fzero = alpha *! dot n (sym_row n a k) x.
Proof. intros Hk. unfold symv. now rewrite nth_map_seq. Qed.

Lemma length_axpy_at (off n : nat) (da : F) (dx buf : list F) :
  length (axpy_at off n da dx buf) = length buf.
Proof.
  unfold axpy_at. rewrite length_app, length_axpy.
  rewrite <- (firstn_skipn off buf) at 3. now rewrite length_app.
Qed.

End ListFacts.

(** * Exact arithmetic: sums over the reals *)

Ltac rsc :=
  cbn [fadd fsub fmul fdiv fzero fone fofZ R_scalar] in *.

Section RealSums.

Local Open Scope R_scope.

Lemma fsum_cons {A} (f : A -> R) (a : A) (l : list A) :
  fsum f (a :: l) = f a + fsum f l.
Proof. reflexivity. Qed.

Lemma fsum_nil {A} (f : A -> R) : fsum f [] = 0.
Proof. reflexivity. Qed.

Lemma fsum_app {A} (f : A -> R) (l1 l2 : list A) :
  fsum f (l1 ++ l2) = fsum f l1 + fsum f l2.
Proof.
  induction l1 as [|a l1 IH]; cbn [app].
  - rewrite fsum_nil. lra.
  - rewrite !fsum_cons, IH. lra.
Qed.

Lemma fsum_ext {A} (f g : A -> R) (l : list A) :
  (forall a, In a l -> f a = g a) -> fsum f l = fsum g l.
Proof.
  induction l as [|a l IH]; intros H; [reflexivity|].
  rewrite !fsum_cons, IH, (H a); auto using in_eq, in_cons.
Qed.

Lemma fsum_add {A} (f g : A -> R) (l : list A) :
  fsum (fun a => f a + g a) l = fsum f l + fsum g l.
Proof.
  induction l as [|a l IH]; [rewrite !fsum_nil; lra|].
  rewrite !fsum_cons, IH. lra.
Qed.

Lemma fsum_scale {A} (c : R) (f : A -> R) (l : list A) :
  fsum (fun a => c * f a) l = c * fsum f l.
Proof.
  induction l as [|a l IH]; [rewrite !fsum_nil; lra|].
  rewrite !fsum_cons, IH. lra.
Qed.

Lemma fsum_zero {A} (l : list A) : fsum (fun _ => 0) l = 0.
Proof.
  induction l as [|a l IH]; [reflexivity|]. rewrite fsum_cons, IH. lra.
Qed.

Lemma fsum_swap {A B} (f : A -> B -> R) (la : list A) (lb : list B) :
  fsum (fun a => fsum (fun b => f a b) lb) la =
  fsum (fun b => fsum (fun a => f a b) la) lb.
Proof.
  induction la as [|a la IH].
  - rewrite fsum_nil. symmetry. apply fsum_zero.
  - rewrite fsum_cons, IH, <- fsum_add. reflexivity.
Qed.

Lemma fsum_map {A B} (f : B -> R) (g : A -> B) (l : list A) :
  fsum f (map g l) = fsum (fun a => f (g a)) l.
Proof.
  induction l as [|a l IH]; [reflexivity|].
  cbn [map]. now rewrite !fsum_cons, IH.
Qed.

Lemma fsum_nonneg {A} (f : A -> R) (l : list A) :
  (forall a, In a l -> 0 <= f a) -> 0 <= fsum f l.
Proof.
  induction l as [|a l IH]; intros H; [rewrite fsum_nil; lra|].
  rewrite fsum_cons.
  assert (0 <= f a) by auto using in_eq.
  assert (0 <= fsum f l) by auto using in_cons. lra.
Qed.

Lemma fsum_le {A} (f g : A -> R) (l : list A) :
  (forall a, In a l -> f a <= g a) -> fsum f l <= fsum g l.
Proof.
  induction l as [|a l IH]; intros H; [rewrite !fsum_nil; lra|].
  rewrite !fsum_cons.
  assert (f a <= g a) by auto using in_eq.
  assert (fsum f l <= fsum g l) by auto using in_cons. lra.
Qed.

(** The left-to-right accumulation of the loops is the sum. *)
Lemma fold_left_fsum {A} (f : A -> R) (l : list A) (acc : R) :
  fold_left (fun s a => s + f a) l acc = acc + fsum f l.
Proof.
  revert acc; induction l as [|a l IH]; intros acc; cbn [fold_left].
  - rewrite fsum_nil. lra.
  - rewrite IH, fsum_cons. lra.
Qed.

Lemma fsum_seq_shift (f : nat -> R) (s n : nat) :
  fsum f (seq (S s) n) = fsum (fun k => f (S k)) (seq s n).
Proof. now rewrite <- seq_shift, fsum_map. Qed.

Lemma fsum_seq_nth {A} (f : A -> R) (l : list A) (d : A) :
  fsum (fun t => f (nth t l d)) (seq 0 (length l)) = fsum f l.
Proof.
  induction l as [|a l IH]; [reflexivity|].
  cbn [length seq]. rewrite !fsum_cons, fsum_seq_shift. cbn [nth].
  now rewrite IH.
Qed.

Lemma fsum_delta (a : nat -> R) (s n j : nat) :
  (s <= j < s + n)%nat ->
  fsum (fun k => if j =? k then a k else 0) (seq s n) = a j.
Proof.
  revert s; induction n as [|n IH]; intros s Hj; [lia|].
  cbn [seq]. rewrite fsum_cons.
  destruct (Nat.eqb_spec j s) as [->|Hne].
  - rewrite (fsum_ext _ (fun _ => 0)), fsum_zero; [lra|].
    intros k Hk. apply in_seq in Hk.
    destruct (Nat.eqb_spec s k); [lia|reflexivity].
  - rewrite IH by lia. lra.
Qed.

Lemma fsum_single_nonzero {A} (f : A -> R) (l : list A) (a : A) :
  (forall b, In b l -> 0 <= f b) -> In a l -> 0 < f a -> 0 < fsum f l.
Proof.
  induction l as [|b l IH]; intros Hpos Hin Ha; [contradiction|].
  rewrite fsum_cons.
  assert (0 <= f b) by auto using in_eq.
  assert (0 <= fsum f l) by (apply fsum_nonneg; auto using in_cons).
  destruct Hin as [->|Hin]; [lra|].
  assert (0 < fsum f l) by auto using in_cons. lra.
Qed.

(** A sum over distinct members of a list is at most the sum over the
    list, for non-negative terms. *)
Lemma fsum_sublist_le {A} (f : A -> R) (l s : list A) :
  (forall a, In a s -> 0 <= f a) ->
  NoDup l -> incl l s -> fsum f l <= fsum f s.
Proof.
  revert s; induction l as [|a l IH]; intros s Hpos Hnd Hincl.
  - rewrite fsum_nil. now apply fsum_nonneg.
  - inversion Hnd as [|? ? Hnotin Hnd']; subst.
    destruct (in_split a s) as (s1 & s2 & ->); [apply Hincl, in_eq|].
    rewrite fsum_cons, fsum_app, fsum_cons.
    assert (Hle : fsum f l <= fsum f (s1 ++ s2)).
    { apply IH; auto.
      - intros b Hb. apply Hpos. apply in_app_or in Hb.
        apply in_or_app; destruct Hb; [left|right; right]; assumption.
      - intros b Hb.
        assert (Hbs : In b (s1 ++ a :: s2)) by (apply Hincl, in_cons, Hb).
        apply in_app_or in Hbs. apply in_or_app.
        destruct Hbs as [H1|[H2|H3]]; auto. subst. contradiction. }
    rewrite fsum_app in Hle. lra.
Qed.

End RealSums.

Section Concat.

Context {A : Type}.

Lemma length_concat_uniform (n : nat) (ls : list (list A)) :
  Forall (fun r => length r = n) ls -> length (concat ls) = length ls * n.
Proof.
  induction 1 as [|r ls Hr _ IH]; [reflexivity|].
  cbn [concat length]. rewrite length_app, IH, Hr. lia.
Qed.

Lemma nth_concat_uniform (n : nat) (ls : list (list A)) (j k : nat) (d : A) :
  Forall (fun r => length r = n) ls -> k < n ->
  nth (j * n + k) (concat ls) d = nth k (nth j ls []) d.
Proof.
  intros Hall Hk. revert j.
  induction Hall as [|r ls Hr _ IH]; intros j.
  - cbn [concat]. destruct j; cbn [nth]; now destruct (_ + _), k.
  - cbn [concat]. destruct j as [|j]; cbn [nth].
    + rewrite app_nth1 by (cbn; lia). reflexivity.
    + rewrite app_nth2 by (cbn; lia).
      replace (S j * n + k - length r) with (j * n + k) by (cbn; lia).
      apply IH.
Qed.

End Concat.

Section RealBlas.

Local Open Scope R_scope.

Lemma nth_nil_R (k : nat) : nth k (@nil R) 0 = 0.
Proof. now destruct k. Qed.

Lemma vdot_nil_l (n : nat) (y : list R) : vdot n [] y = 0.
Proof.
  unfold vdot. rewrite (fsum_ext _ (fun _ => 0)), fsum_zero; [reflexivity|].
  intros k _. rsc. rewrite nth_nil_R. lra.
Qed.

Lemma vdot_nil_r (n : nat) (x : list R) : vdot n x [] = 0.
Proof.
  unfold vdot. rewrite (fsum_ext _ (fun _ => 0)), fsum_zero; [reflexivity|].
  intros k _. rsc. rewrite nth_nil_R. lra.
Qed.

Lemma vdot_cons (n : nat) (a b : R) (x y : list R) :
  vdot (S n) (a :: x) (b :: y) = a * b + vdot n x y.
Proof.
  unfold vdot. cbn [seq]. rewrite fsum_cons, fsum_seq_shift. reflexivity.
Qed.

Lemma vdot_0 (x y : list R) : vdot 0 x y = 0.
Proof. reflexivity. Qed.

Lemma dot_loop_vdot (n : nat) (x y : list R) (acc : R) :
  dot_loop n x y acc = acc + vdot n x y.
Proof.
  revert x y acc; induction n as [|n IH]; intros x y acc.
  - destruct x, y; cbn [dot_loop]; rewrite vdot_0; lra.
  - destruct x as [|a x]; [cbn [dot_loop]; rewrite vdot_nil_l; lra|].
    destruct y as [|b y]; [cbn [dot_loop]; rewrite vdot_nil_r; lra|].
    cbn [dot_loop]. rewrite IH, vdot_cons. rsc. lra.
Qed.

(** [dot] is the inner product. *)
Lemma dot_vdot (n : nat) (x y : list R) : dot n x y = vdot n x y.
Proof. unfold dot. rewrite dot_loop_vdot. rsc. lra. Qed.

Lemma nth_axpy_R (n : nat) (da : R) (dx dy : list R) (k : nat) :
  (k < length dy)%nat ->
  nth k (axpy n da dx dy) 0 =
  if k <? n then nth k dy 0 + da * nth k dx 0 else nth k dy 0.
Proof.
  intros Hk. change 0 with (@fzero R R_scalar) at 1. rewrite nth_axpy. rsc.
  destruct (Nat.ltb_spec k n); cbn [andb]; [|reflexivity].
  apply Nat.ltb_lt in Hk. rewrite Hk, andb_true_r.
  destruct (Nat.ltb_spec k (length dx)); [reflexivity|].
  rewrite (nth_overflow dx) by lia. lra.
Qed.

Lemma nth_scal_R (n : nat) (sa : R) (sx : list R) (k : nat) :
  nth k (scal n sa sx) 0 =
  if k <? n then sa * nth k sx 0 else nth k sx 0.
Proof.
  change 0 with (@fzero R R_scalar) at 1. rewrite nth_scal. rsc.
  destruct (Nat.ltb_spec k n); cbn [andb]; [|reflexivity].
  destruct (Nat.ltb_spec k (length sx)); [reflexivity|].
  rewrite (nth_overflow sx) by lia. lra.
Qed.

Lemma nth_axpy_at_R (off n : nat) (da : R) (dx buf : list R) (m : nat) :
  (off + n <= length buf)%nat ->
  nth m (axpy_at off n da dx buf) 0 =
  if (off <=? m) && (m <? off + n)
  then nth m buf 0 + da * nth (m - off) dx 0
  else nth m buf 0.
Proof.
  intros Hlen.
  destruct (Nat.lt_ge_cases m (length buf)) as [Hm|Hm].
  2:{ rewrite (nth_overflow (axpy_at _ _ _ _ _))
        by (rewrite length_axpy_at; exact Hm).
      replace (m <? off + n) with false by (symmetry; apply Nat.ltb_ge; lia).
      rewrite andb_false_r. now rewrite nth_overflow. }
  unfold axpy_at.
  assert (Hf : length (firstn off buf) = off) by (rewrite length_firstn; lia).
  assert (Hs : forall i, nth i (skipn off buf) 0 = nth (off + i) buf 0).
  { intros i. rewrite <- (firstn_skipn off buf) at 2.
    rewrite app_nth2 by lia. f_equal. lia. }
  destruct (Nat.leb_spec off m) as [Hle|Hlt]; cbn [andb].
  - rewrite app_nth2 by lia. rewrite Hf.
    rewrite nth_axpy_R by (rewrite length_skipn; lia).
    rewrite Hs. replace (off + (m - off))%nat with m by lia.
    destruct (Nat.ltb_spec m (off + n)) as [H1|H1].
    + replace (m - off <? n) with true by (symmetry; apply Nat.ltb_lt; lia).
      reflexivity.
    + replace (m - off <? n) with false by (symmetry; apply Nat.ltb_ge; lia).
      reflexivity.
  - rewrite app_nth1 by lia.
    rewrite <- (firstn_skipn off buf) at 2. now rewrite app_nth1 by lia.
Qed.

End RealBlas.

Section NumpyShapes.

Context {F : Type} {SF : Scalar F}.

Lemma shape0_gram (Y : ndarray2 F) :
  shape0 (np_dot (np_transpose Y) Y) = shape1 Y.
Proof.
  unfold shape0, np_dot, np_transpose. cbn [rows].
  now rewrite !length_map, length_seq.
Qed.

Lemma shape1_gram (Y : ndarray2 F) :
  shape1 (np_dot (np_transpose Y) Y) = shape1 Y.
Proof. reflexivity. Qed.

Lemma shape0_scaled_eye (s : F) (n : nat) : shape0 (np_scale s (np_eye n)) = n.
Proof.
  unfold shape0, np_scale, np_eye. cbn [rows].
  now rewrite !length_map, length_seq.
Qed.

Lemma shape1_scaled_eye (s : F) (n : nat) : shape1 (np_scale s (np_eye n)) = n.
Proof. reflexivity. Qed.

(** Shapes that differ on an axis where neither extent is 1 do not
    broadcast. *)
Lemma bcast_dim_none (a b : nat) :
  a <> b -> a <> 1 -> b <> 1 -> bcast_dim a b = None.
Proof.
  intros Hab Ha Hb. unfold bcast_dim.
  destruct (Nat.eqb_spec a b); [contradiction|].
  destruct (Nat.eqb_spec a 1); [contradiction|].
  destruct (Nat.eqb_spec b 1); [contradiction|reflexivity].
Qed.

Lemma bcast_dim_same (a : nat) : bcast_dim a a = Some a.
Proof. unfold bcast_dim. now rewrite Nat.eqb_refl. Qed.

Lemma bcast_get_square (M : ndarray2 F) (n i j : nat) :
  shape0 M = n -> shape1 M = n -> i < n -> j < n ->
  bcast_get M i j = nth j (row M i) fzero.
Proof.
  intros H0 H1 Hi Hj. unfold bcast_get. rewrite H0, H1.
  destruct (Nat.eqb_spec n 1) as [->|_]; [|reflexivity].
  now replace i with 0 by lia; replace j with 0 by lia.
Qed.

Lemma np_add_square (M N : ndarray2 F) (n : nat) :
  shape0 M = n -> shape1 M = n -> shape0 N = n -> shape1 N = n ->
  np_add M N =
  inr {| shape1 := n;
         rows := map (fun i => map (fun j => nth j (row M i) fzero
                                              +! nth j (row N i) fzero)
                                   (seq 0 n))
                     (seq 0 n) |}.
Proof.
  intros HM0 HM1 HN0 HN1. unfold np_add.
  rewrite HM0, HM1, HN0, HN1, bcast_dim_same. do 2 f_equal.
  apply map_ext_in. intros i Hi. apply in_seq in Hi.
  apply map_ext_in. intros j Hj. apply in_seq in Hj.
  now rewrite !(bcast_get_square _ n) by (assumption || lia).
Qed.

Lemma row_scaled_eye (s : F) (n i j : nat) :
  i < n -> j < n ->
  nth j (row (np_scale s (np_eye n)) i) fzero =
  s *! (if i =? j then fone else fzero).
Proof.
  intros Hi Hj. unfold row, np_scale, np_eye. cbn [rows].
  rewrite map_map. rewrite nth_map_seq by assumption.
  rewrite map_map. now rewrite nth_map_seq by assumption.
Qed.

End NumpyShapes.

Section RealNumpy.

Local Open Scope R_scope.

(** [numpy.dot(numpy.transpose(Y), Y)] is the Gram matrix. *)
Lemma row_gram (Y : ndarray2 R) (j k : nat) :
  (j < shape1 Y)%nat -> (k < shape1 Y)%nat ->
  nth k (row (np_dot (np_transpose Y) Y) j) 0 = gram Y j k.
Proof.
  intros Hj Hk. unfold row, np_dot, np_transpose. cbn [rows].
  rewrite map_map. rewrite nth_map_seq by assumption.
  rewrite nth_map_seq by assumption. rsc.
  rewrite (fold_left_fsum
             (fun t => nth t (map (fun r => nth j r 0) (rows Y)) 0
                       * nth k (nth t (rows Y) []) 0)).
  unfold gram, shape0.
  rewrite <- (fsum_seq_nth (fun y => nth j y fzero *! nth k y fzero) (rows Y) []).
  rsc. rewrite Rplus_0_l. apply fsum_ext. intros t Ht. apply in_seq in Ht.
  f_equal.
  rewrite (nth_indep _ 0 (nth j [] 0)) by (rewrite length_map; lia).
  now rewrite (map_nth (fun r => nth j r 0)).
Qed.

(** The base matrix [initialA] (line 62) on well-shaped factors. *)
Lemma initialA_spec (Y : ndarray2 R) (regularization : R) (n : nat) :
  shape1 Y = n ->
  exists initialA,
    np_add (np_dot (np_transpose Y) Y) (np_scale regularization (np_eye n))
    = inr initialA
    /\ shape1 initialA = n
    /\ length (rows initialA) = n
    /\ Forall (fun r => length r = n) (rows initialA)
    /\ forall j k, (j < n)%nat -> (k < n)%nat ->
         nth k (row initialA j) 0 =
         gram Y j k + (if j =? k then regularization else 0).
Proof.
  intros HY. eexists. split.
  { apply (np_add_square _ _ n).
    - now rewrite shape0_gram.
    - now rewrite shape1_gram.
    - apply shape0_scaled_eye.
    - apply shape1_scaled_eye. }
  cbn [shape1 rows]. repeat split.
  - now rewrite length_map, length_seq.
  - apply Forall_forall. intros r Hr. apply in_map_iff in Hr.
    destruct Hr as (i & <- & _). now rewrite length_map, length_seq.
  - intros j k Hj Hk. unfold row at 1. cbn [rows].
    rewrite nth_map_seq by assumption. rewrite nth_map_seq by assumption.
    rewrite row_scaled_eye by assumption. rsc.
    rewrite row_gram by (rewrite HY; assumption).
    destruct (j =? k); lra.
Qed.

End RealNumpy.

Section RealBuild.

Local Open Scope R_scope.

(** Lines 93-95: the rank-one update of the scratch matrix. *)
Lemma ls_accumulate_R (n : nat) (Cui : csr_matrix R) (Y : ndarray2 R)
      (A b : list R) (index : nat) :
  length A = (n * n)%nat -> length b = n ->
  let c := nth index (data Cui) 0 in
  let y := row Y (nth index (indices Cui) 0%nat) in
  let Ab := ls_accumulate n Cui Y (A, b) index in
  length (fst Ab) = (n * n)%nat /\ length (snd Ab) = n
  /\ (forall j k, (j < n)%nat -> (k < n)%nat ->
        nth (j * n + k) (fst Ab) 0 =
        nth (j * n + k) A 0 + (c - 1) * (nth j y 0 * nth k y 0))
  /\ (forall j, (j < n)%nat -> nth j (snd Ab) 0 = nth j b 0 + c * nth j y 0).
Proof.
  intros HA Hb c y. unfold ls_accumulate. fold c y. cbn [fst snd]. rsc.
  set (f := fun (A0 : list R) (j : nat) => axpy_at (j * n) n _ y A0).
  assert (Hfold : forall J, (J <= n)%nat ->
            length (fold_left f (seq 0 J) A) = (n * n)%nat
            /\ forall j k, (j < n)%nat -> (k < n)%nat ->
                 nth (j * n + k) (fold_left f (seq 0 J) A) 0 =
                 if j <? J
                 then nth (j * n + k) A 0 + (c - 1) * (nth j y 0 * nth k y 0)
                 else nth (j * n + k) A 0).
  { induction J as [|J IH]; intros HJ.
    - cbn [seq fold_left]. split; [assumption|]. intros j k _ _. reflexivity.
    - destruct IH as [IHlen IHnth]; [lia|].
      rewrite seq_S, fold_left_app. cbn [fold_left Nat.add].
      split; [unfold f at 1; now rewrite length_axpy_at|].
      intros j k Hj Hk. unfold f at 1.
      rewrite nth_axpy_at_R by (rewrite IHlen; nia).
      rewrite IHnth by assumption.
      destruct (Nat.eq_dec j J) as [->|Hne].
      + replace (J * n <=? J * n + k) with true
          by (symmetry; apply Nat.leb_le; lia).
        replace (J * n + k <? J * n + n) with true
          by (symmetry; apply Nat.ltb_lt; lia).
        rewrite Nat.ltb_irrefl.
        replace (J <? S J) with true by (symmetry; apply Nat.ltb_lt; lia).
        cbn [andb]. replace (J * n + k - J * n)%nat with k by lia. unfold c. ring.
      + replace ((J * n <=? j * n + k) && (j * n + k <? J * n + n)) with false.
        2:{ symmetry. apply andb_false_iff.
            rewrite Nat.leb_gt, Nat.ltb_ge. nia. }
        destruct (Nat.ltb_spec j J), (Nat.ltb_spec j (S J));
          try reflexivity; lia. }
  destruct (Hfold n (Nat.le_refl n)) as [Hlen Hnth].
  repeat split.
  - exact Hlen.
  - now rewrite length_axpy.
  - intros j k Hj Hk. rewrite Hnth by assumption.
    now replace (j <? n) with true by (symmetry; apply Nat.ltb_lt; lia).
  - intros j Hj. rewrite nth_axpy_R by lia.
    now replace (j <? n) with true by (symmetry; apply Nat.ltb_lt; lia).
Qed.

Lemma ls_fold_R (n : nat) (Cui : csr_matrix R) (Y : ndarray2 R)
      (idxs : list nat) (A b : list R) :
  length A = (n * n)%nat -> length b = n ->
  let Ab := fold_left (ls_accumulate n Cui Y) idxs (A, b) in
  let c index := nth index (data Cui) 0 in
  let y index := row Y (nth index (indices Cui) 0%nat) in
  length (fst Ab) = (n * n)%nat /\ length (snd Ab) = n
  /\ (forall j k, (j < n)%nat -> (k < n)%nat ->
        nth (j * n + k) (fst Ab) 0 =
        nth (j * n + k) A 0
        + fsum (fun index => (c index - 1)
                             * (nth j (y index) 0 * nth k (y index) 0)) idxs)
  /\ (forall j, (j < n)%nat ->
        nth j (snd Ab) 0 =
        nth j b 0 + fsum (fun index => c index * nth j (y index) 0) idxs).
Proof.
  revert A b. induction idxs as [|index idxs IH]; intros A b HA Hb; cbn zeta.
  - cbn [fold_left fst snd]. repeat split; auto; intros; rewrite fsum_nil; lra.
  - cbn [fold_left].
    destruct (ls_accumulate_R n Cui Y A b index HA Hb) as (H1 & H2 & H3 & H4).
    destruct (ls_accumulate n Cui Y (A, b) index) as [A1 b1]. cbn [fst snd] in *.
    destruct (IH A1 b1 H1 H2) as (I1 & I2 & I3 & I4).
    repeat split; auto.
    + intros j k Hj Hk. rewrite I3, H3, fsum_cons by assumption. lra.
    + intros j Hj. rewrite I4, H4, fsum_cons by assumption. lra.
Qed.

Lemma nth_repeat_R (n j : nat) : nth j (repeat 0 n) 0 = 0.
Proof.
  revert j; induction n as [|n IH]; intros [|j]; cbn; auto.
Qed.

(** Lines 80-95: the scratch buffers hold the normal equations of the
    user, row-major. *)
Lemma ls_build_R (Cui : csr_matrix R) (Y : ndarray2 R) (regularization : R)
      (n u : nat) (initialA : ndarray2 R) :
  length (rows initialA) = n ->
  Forall (fun r => length r = n) (rows initialA) ->
  (forall j k, (j < n)%nat -> (k < n)%nat ->
     nth k (row initialA j) 0 =
     gram Y j k + (if j =? k then regularization else 0)) ->
  let Ab := ls_build n initialA (np_zeros n) Cui Y u in
  length (fst Ab) = (n * n)%nat /\ length (snd Ab) = n
  /\ (forall j k, (j < n)%nat -> (k < n)%nat ->
        nth (j * n + k) (fst Ab) 0 = normal_matrix Cui Y regularization u j k)
  /\ (forall j, (j < n)%nat -> nth j (snd Ab) 0 = normal_rhs Cui Y u j).
Proof.
  intros Hrows Hall Hentries Ab.
  assert (Hflat : length (flat initialA) = (n * n)%nat).
  { unfold flat. now rewrite (length_concat_uniform n), Hrows. }
  assert (HA0 : firstn (n * n) (flat initialA) = flat initialA).
  { apply firstn_all2. lia. }
  assert (Hb0 : firstn n (np_zeros n) = repeat 0 n).
  { apply firstn_all2. unfold np_zeros. now rewrite repeat_length. }
  destruct (ls_fold_R n Cui Y
              (range (nth u (indptr Cui) 0%nat) (nth (u + 1) (indptr Cui) 0%nat))
              (flat initialA) (repeat 0 n))
    as (H1 & H2 & H3 & H4);
    [exact Hflat | apply repeat_length |].
  subst Ab. unfold ls_build. rewrite HA0, Hb0.
  repeat split; auto.
  - intros j k Hj Hk. rewrite H3 by assumption.
    unfold flat. rewrite nth_concat_uniform by assumption.
    fold (row initialA j). rewrite Hentries by assumption.
    unfold normal_matrix, observed. rewrite fsum_map. reflexivity.
  - intros j Hj. rewrite H4 by assumption. rewrite nth_repeat_R.
    unfold normal_rhs, observed. rewrite fsum_map, Rplus_0_l. reflexivity.
Qed.

End RealBuild.

Section RealQuadratic.

Local Open Scope R_scope.

Lemma fsum_mul {A B} (f : A -> R) (g : B -> R) (la : list A) (lb : list B) :
  fsum f la * fsum g lb = fsum (fun a => fsum (fun b => f a * g b) lb) la.
Proof.
  induction la as [|a la IH]; [rewrite !fsum_nil; lra|].
  rewrite !fsum_cons, <- IH, fsum_scale. lra.
Qed.

Lemma nth_mat_vec (n : nat) (M : nat -> nat -> R) (x : list R) (j : nat) :
  (j < n)%nat ->
  nth j (mat_vec n M x) 0 = fsum (fun k => M j k * nth k x 0) (seq 0 n).
Proof. intros Hj. unfold mat_vec, vec. now rewrite nth_map_seq. Qed.

Lemma length_mat_vec (n : nat) (M : nat -> nat -> R) (x : list R) :
  length (mat_vec n M x) = n.
Proof. unfold mat_vec, vec. now rewrite length_map, length_seq. Qed.

Lemma quad_form_sum (n : nat) (M : nat -> nat -> R) (x : list R) :
  quad_form n M x =
  fsum (fun j => fsum (fun k => nth j x 0 * M j k * nth k x 0) (seq 0 n))
       (seq 0 n).
Proof.
  unfold quad_form, vdot. apply fsum_ext. intros j Hj. apply in_seq in Hj.
  rsc. rewrite nth_mat_vec by lia. rewrite <- fsum_scale.
  apply fsum_ext. intros k _. ring.
Qed.

Lemma quad_form_ext (n : nat) (M N : nat -> nat -> R) (x : list R) :
  (forall j k, (j < n)%nat -> (k < n)%nat -> M j k = N j k) ->
  quad_form n M x = quad_form n N x.
Proof.
  intros H. rewrite !quad_form_sum.
  apply fsum_ext. intros j Hj. apply in_seq in Hj.
  apply fsum_ext. intros k Hk. apply in_seq in Hk.
  rewrite H by lia. reflexivity.
Qed.

Lemma quad_form_add (n : nat) (M N : nat -> nat -> R) (x : list R) :
  quad_form n (fun j k => M j k + N j k) x = quad_form n M x + quad_form n N x.
Proof.
  rewrite !quad_form_sum, <- fsum_add.
  apply fsum_ext. intros j _. rewrite <- fsum_add.
  apply fsum_ext. intros k _. ring.
Qed.

(** The quadratic form of a weighted sum of outer products. *)
Lemma quad_form_outer {A} (L : list A) (w : A -> R) (y : A -> list R)
      (n : nat) (x : list R) :
  quad_form n (fun j k => fsum (fun a => w a * (nth j (y a) 0 * nth k (y a) 0)) L) x
  = fsum (fun a => w a * (vdot n (y a) x * vdot n (y a) x)) L.
Proof.
  rewrite quad_form_sum.
  rewrite (fsum_ext _ (fun j => fsum (fun a =>
             fsum (fun k => w a * ((nth j (y a) 0 * nth j x 0)
                                   * (nth k (y a) 0 * nth k x 0))) (seq 0 n)) L)).
  2:{ intros j _. rewrite fsum_swap. apply fsum_ext. intros k _.
      rewrite <- fsum_scale, Rmult_comm, <- fsum_scale.
      apply fsum_ext. intros a _. ring. }
  rewrite fsum_swap. apply fsum_ext. intros a _.
  unfold vdot. rsc. rewrite fsum_mul, <- fsum_scale.
  apply fsum_ext. intros j _. rewrite <- fsum_scale.
  apply fsum_ext. intros k _. ring.
Qed.

Lemma quad_form_diag (n : nat) (c : R) (x : list R) :
  quad_form n (fun j k => if j =? k then c else 0) x = c * vdot n x x.
Proof.
  rewrite quad_form_sum. unfold vdot. rewrite <- fsum_scale.
  apply fsum_ext. intros j Hj. apply in_seq in Hj.
  rewrite (fsum_ext _ (fun k => if j =? k then nth j x 0 * c * nth k x 0 else 0)).
  2:{ intros k _. destruct (j =? k); ring. }
  rewrite (fsum_delta (fun k => nth j x 0 * c * nth k x 0)) by lia.
  rsc. ring.
Qed.

Lemma vdot_self_pos (n : nat) (x : list R) :
  (exists k, (k < n)%nat /\ nth k x 0 <> 0) -> 0 < vdot n x x.
Proof.
  intros (k & Hk & Hnz). unfold vdot.
  apply (fsum_single_nonzero _ _ k).
  - intros j _. rsc. nra.
  - apply in_seq. lia.
  - rsc. nra.
Qed.

End RealQuadratic.

Section WellFormedFacts.

Context {F : Type} {SF : Scalar F}.

Lemma indptr_monotone (Cui : csr_matrix F) (X Y : ndarray2 F) (u v : nat) :
  wf_input Cui X Y -> u <= v -> v <= shape0 X ->
  nth u (indptr Cui) 0 <= nth v (indptr Cui) 0.
Proof.
  intros Hwf Huv. induction Huv as [|v Huv IH]; intros Hv; [lia|].
  etransitivity; [apply IH; lia|].
  replace (S v) with (v + 1) by lia. apply (wf_indptr_mono _ _ _ Hwf). lia.
Qed.

(** Every position of row [u] is a position of the index and value
    arrays. *)
Lemma range_below_nnz (Cui : csr_matrix F) (X Y : ndarray2 F) (u index : nat) :
  wf_input Cui X Y -> u < shape0 X ->
  In index (range (nth u (indptr Cui) 0) (nth (u + 1) (indptr Cui) 0)) ->
  index < nnz Cui.
Proof.
  intros Hwf Hu Hin. unfold range in Hin. apply in_seq in Hin.
  pose proof (indptr_monotone Cui X Y (u + 1) (shape0 X) Hwf) as Hle.
  rewrite (wf_indptr_last _ _ _ Hwf) in Hle. lia.
Qed.

Lemma observed_item_range (Cui : csr_matrix F) (X Y : ndarray2 F) (u : nat)
      (ic : nat * F) :
  wf_input Cui X Y -> u < shape0 X -> In ic (observed Cui u) ->
  fst ic < shape0 Y.
Proof.
  intros Hwf Hu Hin. unfold observed in Hin. apply in_map_iff in Hin.
  destruct Hin as (index & <- & Hin). cbn [fst].
  pose proof (range_below_nnz Cui X Y u index Hwf Hu Hin) as Hlt.
  pose proof (wf_indices_range _ _ _ Hwf) as Hall.
  rewrite Forall_forall in Hall. apply Hall, nth_In.
  now rewrite (wf_indices_length _ _ _ Hwf).
Qed.

Lemma row_length (M : ndarray2 F) (i : nat) :
  rectangular M -> i < shape0 M -> length (row M i) = shape1 M.
Proof.
  intros Hrect Hi. unfold rectangular in Hrect. rewrite Forall_forall in Hrect.
  apply Hrect. now apply nth_In.
Qed.

End WellFormedFacts.

Section RealNormalEquations.

Local Open Scope R_scope.

Lemma observed_nonneg (Cui : csr_matrix R) (u : nat) (ic : nat * R) :
  nonneg_confidence Cui -> In ic (observed Cui u) -> 0 <= snd ic.
Proof.
  intros Hnn Hin. unfold observed in Hin. apply in_map_iff in Hin.
  destruct Hin as (index & <- & _). cbn [snd]. rsc.
  unfold nonneg_confidence in Hnn. rewrite Forall_forall in Hnn.
  destruct (nth_in_or_default index (data Cui) 0) as [Hin | Heq]; [auto | rewrite Heq; lra].
Qed.

Lemma normal_matrix_symmetric (Cui : csr_matrix R) (Y : ndarray2 R)
      (regularization : R) (u n : nat) :
  symmetric n (normal_matrix Cui Y regularization u).
Proof.
  intros j k _ _. unfold normal_matrix, gram. rsc.
  rewrite (Nat.eqb_sym j k). f_equal; [f_equal|].
  - apply fsum_ext. intros y _. ring.
  - apply fsum_ext. intros ic _. ring.
Qed.

Lemma normal_matrix_quad (Cui : csr_matrix R) (Y : ndarray2 R)
      (regularization : R) (u n : nat) (x : list R) :
  quad_form n (normal_matrix Cui Y regularization u) x =
  fsum (fun y => vdot n y x * vdot n y x) (rows Y)
  + regularization * vdot n x x
  + fsum (fun ic => (snd ic - 1)
                    * (vdot n (row Y (fst ic)) x * vdot n (row Y (fst ic)) x))
         (observed Cui u).
Proof.
  rewrite <- (quad_form_outer (observed Cui u) (fun ic => snd ic - 1)
                              (fun ic => row Y (fst ic))).
  rewrite <- quad_form_diag.
  rewrite (fsum_ext (fun y => vdot n y x * vdot n y x)
                    (fun y => 1 * (vdot n y x * vdot n y x)))
    by (intros; ring).
  rewrite <- (quad_form_outer (rows Y) (fun _ => 1) (fun y => y)).
  rewrite <- !quad_form_add.
  apply quad_form_ext. intros j k _ _. unfold normal_matrix, gram. rsc.
  f_equal. f_equal. apply fsum_ext. intros y _. ring.
Qed.

(** With regularization > 0, non-negative confidences and one stored value
    per cell, the normal matrix of every user is positive definite. *)
Lemma normal_matrix_pd (Cui : csr_matrix R) (X Y : ndarray2 R)
      (regularization : R) (u : nat) :
  wf_input Cui X Y -> canonical Cui (shape0 X) -> nonneg_confidence Cui ->
  0 < regularization -> (u < shape0 X)%nat ->
  positive_definite (shape1 X) (normal_matrix Cui Y regularization u).
Proof.
  intros Hwf Hcan Hnn Hreg Hu x Hx.
  set (n := shape1 X). rewrite normal_matrix_quad.
  set (d := fun y : list R => vdot n y x * vdot n y x).
  change (fun ic : nat * R => (snd ic - 1)
            * (vdot n (row Y (fst ic)) x * vdot n (row Y (fst ic)) x))
    with (fun ic : nat * R => (snd ic - 1) * d (row Y (fst ic))).
  assert (Hd : forall y, 0 <= d y) by (intros y; unfold d; nra).
  assert (Hsub : fsum (fun i => d (row Y i)) (map fst (observed Cui u))
                 <= fsum d (rows Y)).
  { rewrite <- (fsum_seq_nth d (rows Y) []).
    apply (fsum_sublist_le (fun i => d (nth i (rows Y) []))).
    - intros i _. apply Hd.
    - now apply Hcan.
    - intros i Hi. apply in_map_iff in Hi. destruct Hi as (ic & <- & Hic).
      apply in_seq. split; [lia|].
      apply (observed_item_range Cui X Y u ic Hwf Hu Hic). }
  rewrite fsum_map in Hsub.
  assert (Hobs : - fsum (fun ic => d (row Y (fst ic))) (observed Cui u)
                 <= fsum (fun ic => (snd ic - 1) * d (row Y (fst ic)))
                         (observed Cui u)).
  { replace (- fsum (fun ic => d (row Y (fst ic))) (observed Cui u))
      with (fsum (fun ic => -1 * d (row Y (fst ic))) (observed Cui u))
      by (rewrite fsum_scale; ring).
    apply fsum_le. intros ic Hic.
    pose proof (observed_nonneg Cui u ic Hnn Hic). specialize (Hd (row Y (fst ic))).
    nra. }
  pose proof (vdot_self_pos n x Hx) as Hpos.
  nra.
Qed.

Lemma positive_definite_ext (n : nat) (M N : nat -> nat -> R) :
  (forall j k, (j < n)%nat -> (k < n)%nat -> M j k = N j k) ->
  positive_definite n M -> positive_definite n N.
Proof.
  intros H HM x Hx. rewrite <- (quad_form_ext n M N x H). now apply HM.
Qed.

Lemma solves_ext (n : nat) (M N : nat -> nat -> R) (x : list R) (b c : nat -> R) :
  (forall j k, (j < n)%nat -> (k < n)%nat -> M j k = N j k) ->
  (forall j, (j < n)%nat -> b j = c j) ->
  solves n M x b -> solves n N x c.
Proof.
  intros HMN Hbc [Hlen Hsol]. split; [assumption|]. intros j Hj.
  rewrite <- Hbc, <- Hsol by assumption. rewrite !nth_mat_vec by assumption.
  apply fsum_ext. intros k Hk. apply in_seq in Hk. rewrite HMN by lia.
  reflexivity.
Qed.

(** A positive definite system has at most one solution. *)
Lemma solves_unique (n : nat) (M : nat -> nat -> R) (x x' : list R)
      (b : nat -> R) :
  positive_definite n M -> solves n M x b -> solves n M x' b -> x' = x.
Proof.
  intros Hpd [Hlen Hsol] [Hlen' Hsol'].
  set (z := vec n (fun k => nth k x' 0 - nth k x 0)).
  assert (Hz : forall k, (k < n)%nat -> nth k z 0 = nth k x' 0 - nth k x 0).
  { intros k Hk. unfold z, vec. now rewrite nth_map_seq. }
  assert (Hq : quad_form n M z = 0).
  { unfold quad_form, vdot.
    rewrite (fsum_ext _ (fun _ => 0)); [apply fsum_zero|].
    intros j Hj. apply in_seq in Hj. rsc. rewrite nth_mat_vec by lia.
    rewrite (fsum_ext _ (fun k => M j k * nth k x' 0 - M j k * nth k x 0)).
    2:{ intros k Hk. apply in_seq in Hk. rewrite Hz by lia. ring. }
    unfold Rminus.
    rewrite (fsum_ext _ (fun k => M j k * nth k x' 0 + -1 * (M j k * nth k x 0)))
      by (intros; ring).
    rewrite fsum_add, fsum_scale, <- !nth_mat_vec by lia.
    rewrite Hsol, Hsol' by lia. ring. }
  apply (nth_ext _ _ 0 0); [congruence|].
  intros k Hk. rewrite Hlen' in Hk.
  destruct (Req_dec (nth k x' 0) (nth k x 0)) as [|Hne]; [assumption|].
  exfalso. assert (Hpos : 0 < quad_form n M z).
  { apply Hpd. exists k. split; [assumption|]. rewrite Hz by assumption. lra. }
  lra.
Qed.

End RealNormalEquations.

Section Rows.

Context {F : Type} {SF : Scalar F}.

Lemma row_set_row_same (M : ndarray2 F) (u : nat) (v : list F) :
  u < shape0 M -> row (set_row u v M) u = v.
Proof. intros Hu. unfold row, set_row. cbn [rows]. now apply nth_update_same. Qed.

Lemma row_set_row_other (M : ndarray2 F) (u w : nat) (v : list F) :
  w <> u -> row (set_row u v M) w = row M w.
Proof. intros Hw. unfold row, set_row. cbn [rows]. now apply nth_update_other. Qed.

Lemma shape0_set_row (M : ndarray2 F) (u : nat) (v : list F) :
  shape0 (set_row u v M) = shape0 M.
Proof. unfold shape0, set_row. cbn [rows]. apply length_update. Qed.

Lemma shape1_set_row (M : ndarray2 F) (u : nat) (v : list F) :
  shape1 (set_row u v M) = shape1 M.
Proof. reflexivity. Qed.

Lemma set_row_same (M : ndarray2 F) (u : nat) :
  set_row u (row M u) M = M.
Proof.
  unfold set_row, row. rewrite update_nth_id. now destruct M.
Qed.

Lemma Forall_update {A} (P : A -> Prop) (i : nat) (v : A) (l : list A) :
  P v -> Forall P l -> Forall P (update i v l).
Proof.
  intros Hv Hl. revert i. induction Hl as [|a l Ha Hl IH]; intros [|i];
    cbn [update]; auto.
Qed.

Lemma rectangular_set_row (M : ndarray2 F) (u : nat) (v : list F) :
  length v = shape1 M -> rectangular M -> rectangular (set_row u v M).
Proof. intros Hv HM. unfold rectangular, set_row. cbn [rows shape1]. now apply Forall_update. Qed.

(** A loop whose body overwrites row [u] with [g u] and raises nothing. *)
Lemma prange_users_overwrites (P : ndarray2 F -> Prop)
      (body : ndarray2 F -> nat -> ndarray2 F * option exn)
      (g : nat -> list F) (us : list nat) (X : ndarray2 F) :
  (forall X' u, P X' -> In u us ->
     body X' u = (set_row u (g u) X', None) /\ P (set_row u (g u) X')) ->
  P X ->
  prange_users body us X = (fold_left (fun X' u => set_row u (g u) X') us X, None).
Proof.
  revert X. induction us as [|u us IH]; intros X Hbody HP; [reflexivity|].
  cbn [prange_users fold_left].
  destruct (Hbody X u HP (in_eq _ _)) as [-> HP'].
  apply IH; [|assumption]. intros X' w HX' Hw. apply Hbody; auto using in_cons.
Qed.

Lemma fold_set_row_shape (g : nat -> list F) (us : list nat) (X : ndarray2 F) :
  shape0 (fold_left (fun X' u => set_row u (g u) X') us X) = shape0 X
  /\ shape1 (fold_left (fun X' u => set_row u (g u) X') us X) = shape1 X.
Proof.
  revert X. induction us as [|u us IH]; intros X; [now split|].
  cbn [fold_left]. destruct (IH (set_row u (g u) X)) as [-> ->].
  now rewrite shape0_set_row.
Qed.

Lemma fold_set_row_rows (g : nat -> list F) (m : nat) (X : ndarray2 F) (u : nat) :
  m <= shape0 X ->
  row (fold_left (fun X' u => set_row u (g u) X') (seq 0 m) X) u =
  if u <? m then g u else row X u.
Proof.
  induction m as [|m IH]; intros Hm; [reflexivity|].
  rewrite seq_S, fold_left_app. cbn [fold_left Nat.add].
  destruct (Nat.eq_dec u m) as [->|Hne].
  - rewrite row_set_row_same
      by (rewrite (proj1 (fold_set_row_shape g (seq 0 m) X)); lia).
    now replace (m <? S m) with true by (symmetry; apply Nat.ltb_lt; lia).
  - rewrite row_set_row_other by assumption. rewrite IH by lia.
    destruct (Nat.ltb_spec u m), (Nat.ltb_spec u (S m)); try reflexivity; lia.
Qed.

End Rows.

Section RealDirect.

Local Open Scope R_scope.

Variable backend : lapack (F := R).

Lemma memcpy_all (n : nat) (src dst : list R) :
  length src = n -> length dst = n -> memcpy n src dst = src.
Proof.
  intros Hs Hd. unfold memcpy.
  rewrite firstn_all2 by lia. rewrite skipn_all2 by lia. apply app_nil_r.
Qed.

Lemma ls_user_solves (Cui : csr_matrix R) (X Y : ndarray2 R)
      (regularization : R) (initialA : ndarray2 R) (u : nat) :
  posv_solves_spd backend (shape1 X) ->
  wf_input Cui X Y -> canonical Cui (shape0 X) -> nonneg_confidence Cui ->
  0 < regularization -> (u < shape0 X)%nat ->
  length (rows initialA) = shape1 X ->
  Forall (fun r => length r = shape1 X) (rows initialA) ->
  (forall j k, (j < shape1 X)%nat -> (k < shape1 X)%nat ->
     nth k (row initialA j) 0 =
     gram Y j k + (if j =? k then regularization else 0)) ->
  let x := ls_candidate backend (shape1 X) initialA Cui Y u in
  solves (shape1 X) (normal_matrix Cui Y regularization u) x (normal_rhs Cui Y u)
  /\ forall X', shape1 X' = shape1 X -> rectangular X' ->
       (u < shape0 X')%nat ->
       ls_user backend (shape1 X) initialA (np_zeros (shape1 X)) Cui Y X' u
       = (set_row u x X', None).
Proof.
  intros Hposv Hwf Hcan Hnn Hreg Hu Hrows Hall Hentries.
  set (n := shape1 X) in *. unfold ls_candidate, ls_user.
  destruct (ls_build_R Cui Y regularization n u initialA Hrows Hall Hentries)
    as (HlenA & Hlenb & HA & Hb).
  destruct (ls_build n initialA (np_zeros n) Cui Y u) as [A b].
  cbn [fst snd] in *.
  assert (Hat : forall i j, (i < n)%nat -> (j < n)%nat ->
            at2 n A i j = normal_matrix Cui Y regularization u i j).
  { intros i j Hi Hj. unfold at2. rsc. rewrite Nat.add_comm, HA by assumption.
    now apply normal_matrix_symmetric with (n := n). }
  destruct (Hposv A b HlenA Hlenb) as (A' & x & Hrun & Hsol).
  { intros i j Hi Hj. rewrite !Hat by assumption.
    now apply normal_matrix_symmetric with (n := n). }
  { apply (positive_definite_ext n (normal_matrix Cui Y regularization u)).
    - intros j k Hj Hk. now rewrite Hat.
    - now apply normal_matrix_pd. }
  unfold ls_solve. rewrite Hrun. cbn [Z.eqb fst snd]. split.
  - apply (solves_ext n (at2 n A) _ x (fun j => nth j b 0)); auto.
  - intros X' H1 Hrect Hu'. f_equal. f_equal. apply memcpy_all.
    + apply Hsol.
    + rewrite (row_length X' u) by assumption. exact H1.
Qed.

(** The direct solve on a well-formed input: every row of the result
    solves the user's normal equations. *)
Lemma least_squares_solves (Cui : csr_matrix R) (X Y : ndarray2 R)
      (regularization : R) :
  posv_solves_spd backend (shape1 X) ->
  wf_input Cui X Y -> canonical Cui (shape0 X) -> nonneg_confidence Cui ->
  0 < regularization ->
  exists X',
    least_squares backend Cui X Y regularization = (X', None)
    /\ shape0 X' = shape0 X /\ shape1 X' = shape1 X
    /\ forall u, (u < shape0 X)%nat ->
         solves (shape1 X) (normal_matrix Cui Y regularization u)
                (row X' u) (normal_rhs Cui Y u).
Proof.
  intros Hposv Hwf Hcan Hnn Hreg.
  destruct (initialA_spec Y regularization (shape1 X) (wf_width _ _ _ Hwf))
    as (initialA & Hadd & _ & Hrows & Hall & Hentries).
  set (g := ls_candidate backend (shape1 X) initialA Cui Y).
  exists (fold_left (fun X' u => set_row u (g u) X') (seq 0 (shape0 X)) X).
  destruct (fold_set_row_shape g (seq 0 (shape0 X)) X) as [Hs0 Hs1].
  split; [|split; [exact Hs0|split; [exact Hs1|]]].
  - unfold least_squares. rewrite Hadd.
    apply (prange_users_overwrites
             (fun X' => shape0 X' = shape0 X /\ shape1 X' = shape1 X
                        /\ rectangular X')).
    + intros X' u (H0 & H1 & Hrect) Hin. apply in_seq in Hin.
      destruct (ls_user_solves Cui X Y regularization initialA u)
        as [[Hlen _] Hrun]; try assumption; try lia.
      split; [apply Hrun; auto; lia|].
      rewrite shape0_set_row. split; [assumption|]. split; [assumption|].
      apply rectangular_set_row; [|assumption]. fold g in Hlen. congruence.
    + split; [reflexivity|]. split; [reflexivity|]. apply (wf_X _ _ _ Hwf).
  - intros u Hu. rewrite fold_set_row_rows by lia.
    replace (u <? shape0 X) with true by (symmetry; apply Nat.ltb_lt; lia).
    now apply (ls_user_solves Cui X Y regularization initialA u).
Qed.

End RealDirect.

Section RealCG.

Local Open Scope R_scope.

(** A chain of [axpy] calls into one vector adds up the scaled sources. *)
Lemma fold_axpy_R (n : nat) (f : list R -> nat -> list R)
      (t : nat -> R) (yv : nat -> list R) (idxs : list nat) (r : list R) :
  (forall r' index, f r' index = axpy n (t index) (yv index) r') ->
  length r = n ->
  length (fold_left f idxs r) = n
  /\ forall j, (j < n)%nat ->
       nth j (fold_left f idxs r) 0 =
       nth j r 0 + fsum (fun index => t index * nth j (yv index) 0) idxs.
Proof.
  intros Hf. revert r. induction idxs as [|index idxs IH]; intros r Hr.
  - cbn [fold_left]. split; [assumption|]. intros j _. rewrite fsum_nil. lra.
  - cbn [fold_left]. rewrite Hf.
    destruct (IH (axpy n (t index) (yv index) r)) as [Hlen Hnth];
      [now rewrite length_axpy|].
    split; [assumption|]. intros j Hj. rewrite Hnth by assumption.
    rewrite nth_axpy_R by lia.
    replace (j <? n) with true by (symmetry; apply Nat.ltb_lt; lia).
    rewrite fsum_cons. lra.
Qed.

(** [symv] on the buffer of a symmetric n x n array multiplies by it. *)
Lemma nth_symv_R (n : nat) (alpha : R) (M : ndarray2 R) (B : nat -> nat -> R)
      (x : list R) (j : nat) :
  Forall (fun r => length r = n) (rows M) ->
  (forall i k, (i < n)%nat -> (k < n)%nat -> nth k (row M i) 0 = B i k) ->
  symmetric n B ->
  (j < n)%nat ->
  nth j (symv n alpha (flat M) x) 0 =
  alpha * fsum (fun k => B j k * nth k x 0) (seq 0 n).
Proof.
  intros Hall HB Hsym Hj.
  change 0 with (@fzero R R_scalar) at 1. rewrite nth_symv by assumption.
  rsc. rewrite dot_vdot. f_equal. unfold vdot. apply fsum_ext.
  intros k Hk. apply in_seq in Hk. rsc. f_equal.
  unfold sym_row. rewrite nth_map_seq by lia. rsc.
  rewrite Nat.add_comm. unfold flat.
  rewrite nth_concat_uniform by (assumption || lia).
  fold (row M (Nat.max j k)). rewrite HB by lia.
  destruct (Nat.le_ge_cases j k) as [Hle|Hge].
  - rewrite Nat.max_r, Nat.min_l by assumption. apply Hsym; lia.
  - rewrite Nat.max_l, Nat.min_r by assumption. reflexivity.
Qed.

Lemma base_matrix_symmetric (Y : ndarray2 R) (regularization : R) (n : nat) :
  symmetric n (fun j k => gram Y j k + (if j =? k then regularization else 0)).
Proof.
  intros j k _ _. unfold gram. rewrite (Nat.eqb_sym j k). f_equal.
  apply fsum_ext. intros y _. rsc. ring.
Qed.

(** A x for the normal matrix, split into its dense and sparse parts. *)
Lemma nth_mat_vec_normal (Cui : csr_matrix R) (Y : ndarray2 R)
      (regularization : R) (u n : nat) (x : list R) (j : nat) :
  (j < n)%nat ->
  nth j (mat_vec n (normal_matrix Cui Y regularization u) x) 0 =
  fsum (fun k => (gram Y j k + (if j =? k then regularization else 0))
                 * nth k x 0) (seq 0 n)
  + fsum (fun ic => (snd ic - 1) * vdot n (row Y (fst ic)) x
                    * nth j (row Y (fst ic)) 0) (observed Cui u).
Proof.
  intros Hj. rewrite nth_mat_vec by assumption. unfold normal_matrix. rsc.
  rewrite (fsum_ext _
    (fun k => (gram Y j k + (if j =? k then regularization else 0)) * nth k x 0
              + fsum (fun ic => (snd ic - 1)
                                * (nth j (row Y (fst ic)) 0
                                   * nth k (row Y (fst ic)) 0) * nth k x 0)
                     (observed Cui u))).
  2:{ intros k _. rewrite Rmult_plus_distr_r. f_equal.
      rewrite Rmult_comm, <- fsum_scale. apply fsum_ext. intros ic _. ring. }
  rewrite fsum_add. f_equal. rewrite fsum_swap. apply fsum_ext. intros ic _.
  unfold vdot. rsc. rewrite Rmult_assoc, (Rmult_comm (fsum _ _)).
  rewrite <- !fsum_scale. apply fsum_ext. intros k _. ring.
Qed.

Section User.

Variables (Cui : csr_matrix R) (Y : ndarray2 R) (regularization : R).
Variables (n u : nat) (YtY : ndarray2 R).

Hypothesis YtY_rows : Forall (fun r => length r = n) (rows YtY).
Hypothesis YtY_entries :
  forall j k, (j < n)%nat -> (k < n)%nat ->
    nth k (row YtY j) 0 = gram Y j k + (if j =? k then regularization else 0).

Let A := normal_matrix Cui Y regularization u.
Let b := normal_rhs Cui Y u.

(** Lines 146-153 compute b - A x. *)
Lemma cg_residual_R (x : list R) :
  cg_residual n YtY Cui Y u x = sv_r (cg_init n A b x).
Proof.
  unfold cg_init. cbn [sv_r].
  match goal with
  | |- cg_residual _ _ _ _ _ _ = _ =>
      unfold cg_residual; cbv zeta;
      match goal with |- fold_left ?f _ _ = _ => set (code := f) end
  end.
  destruct (fold_axpy_R n code
    (fun index => nth index (data Cui) 0
                  - (nth index (data Cui) 0 - 1)
                    * vdot n (row Y (nth index (indices Cui) 0%nat)) x)
    (fun index => row Y (nth index (indices Cui) 0%nat))
    (range (nth u (indptr Cui) 0%nat) (nth (u + 1) (indptr Cui) 0%nat))
    (symv n (fofZ (-1)) (flat YtY) x)) as [Hlen Hnth].
  { intros r' index. unfold code. rsc. now rewrite dot_vdot. }
  { apply length_symv. }
  apply (nth_ext _ _ 0 0).
  { rewrite Hlen. unfold vec. now rewrite length_map, length_seq. }
  intros j Hj. rewrite Hlen in Hj. rewrite Hnth by assumption.
  unfold vec. rewrite nth_map_seq by assumption. rsc.
  rewrite (nth_symv_R n (-1) YtY _ x j YtY_rows YtY_entries
                      (base_matrix_symmetric Y regularization n) Hj).
  unfold A, b. rewrite nth_mat_vec_normal by assumption.
  unfold normal_rhs, observed. rewrite !fsum_map. cbn [fst snd]. rsc.
  match goal with
  | |- _ + fsum ?f ?l = fsum ?g ?l - (_ + fsum ?h ?l) =>
      replace (fsum f l) with (fsum g l + -1 * fsum h l)
  end; [lra|].
  rewrite <- fsum_scale, <- fsum_add. apply fsum_ext. intros index _. ring.
Qed.

(** Lines 160-167 compute A p. *)
Lemma cg_Ap_R (p : list R) :
  cg_Ap n YtY Cui Y u p = mat_vec n A p.
Proof.
  unfold cg_Ap; cbv zeta.
  match goal with |- fold_left ?f _ _ = _ => set (code := f) end.
  destruct (fold_axpy_R n code
    (fun index => (nth index (data Cui) 0 - 1)
                  * vdot n (row Y (nth index (indices Cui) 0%nat)) p)
    (fun index => row Y (nth index (indices Cui) 0%nat))
    (range (nth u (indptr Cui) 0%nat) (nth (u + 1) (indptr Cui) 0%nat))
    (symv n fone (flat YtY) p)) as [Hlen Hnth].
  { intros r' index. unfold code. rsc. now rewrite dot_vdot. }
  { apply length_symv. }
  apply (nth_ext _ _ 0 0).
  { rewrite Hlen. now rewrite length_mat_vec. }
  intros j Hj. rewrite Hlen in Hj. rewrite Hnth by assumption.
  rsc.
  rewrite (nth_symv_R n 1 YtY _ p j YtY_rows YtY_entries
                      (base_matrix_symmetric Y regularization n) Hj).
  unfold A. rewrite nth_mat_vec_normal by assumption.
  unfold observed. rewrite !fsum_map. cbn [fst snd]. rsc.
  rewrite Rmult_1_l. reflexivity.
Qed.

End User.

End RealCG.

Section RowLoops.

Context {F : Type} {SF : Scalar F}.

Lemma update_update {A} (i : nat) (v w : A) (l : list A) :
  update i v (update i w l) = update i v l.
Proof.
  revert i; induction l as [|a l IH]; intros [|i]; cbn [update]; auto.
  now rewrite IH.
Qed.

Lemma set_row_set_row (M : ndarray2 F) (u : nat) (v w : list F) :
  set_row u v (set_row u w M) = set_row u v M.
Proof. unfold set_row. cbn [rows shape1]. now rewrite update_update. Qed.


End RowLoops.

Section RealCGLoop.

Local Open Scope R_scope.

Lemma vec_eq (n : nat) (l : list R) (f : nat -> R) :
  length l = n -> (forall k, (k < n)%nat -> nth k l 0 = f k) -> l = vec n f.
Proof.
  intros Hlen Hnth. apply (nth_ext _ _ 0 0).
  - unfold vec. now rewrite length_map, length_seq.
  - intros k Hk. rewrite Hlen in Hk. unfold vec.
    rewrite nth_map_seq by assumption. now apply Hnth.
Qed.

Lemma length_vec (n : nat) (f : nat -> R) : length (vec n f) = n.
Proof. unfold vec. now rewrite length_map, length_seq. Qed.

Section User.

Variables (Cui : csr_matrix R) (Y : ndarray2 R) (regularization : R).
Variables (n u : nat) (YtY : ndarray2 R) (X0 : ndarray2 R).

Hypothesis YtY_rows : Forall (fun r => length r = n) (rows YtY).
Hypothesis YtY_entries :
  forall j k, (j < n)%nat -> (k < n)%nat ->
    nth k (row YtY j) 0 = gram Y j k + (if j =? k then regularization else 0).
Hypothesis u_user : (u < shape0 X0)%nat.

Let A := normal_matrix Cui Y regularization u.
Let b := normal_rhs Cui Y u.

Lemma cg_start_holds :
  length (row X0 u) = n ->
  cg_holds n u X0 (cg_start n YtY Cui Y X0 u) (cg_init n A b (row X0 u)).
Proof.
  intros Hx. unfold cg_holds, cg_start. cbn [cg_X cg_r cg_p cg_rsold].
  rewrite (cg_residual_R Cui Y regularization n u YtY YtY_rows YtY_entries).
  fold A b. unfold cg_init. cbn [sv_x sv_r sv_p sv_rsold].
  rewrite set_row_same, dot_vdot, !length_vec.
  rewrite firstn_all2 by (rewrite length_vec; lia).
  repeat split; auto.
Qed.

Lemma cg_iteration_holds (st : cg_state) (v : cg_vars) :
  cg_holds n u X0 st v ->
  cg_holds n u X0 (cg_iteration n YtY Cui Y u st) (cg_step n A v).
Proof.
  intros (HX & Hr & Hp & Hrs & Lx & Lr & Lp).
  unfold cg_holds, cg_iteration, cg_step.
  cbn [cg_X cg_r cg_p cg_rsold sv_x sv_r sv_p sv_rsold].
  rewrite (cg_Ap_R Cui Y regularization n u YtY YtY_rows YtY_entries).
  fold A. rewrite HX, Hr, Hp, Hrs, set_row_set_row.
  rewrite row_set_row_same by assumption. rewrite !dot_vdot. rsc.
  set (Ap := mat_vec n A (sv_p v)).
  set (alpha := sv_rsold v / vdot n (sv_p v) Ap).
  assert (Hx' : axpy n alpha (sv_p v) (sv_x v)
                = vec n (fun k => nth k (sv_x v) 0 + alpha * nth k (sv_p v) 0)).
  { apply vec_eq; [now rewrite length_axpy|]. intros k Hk.
    rewrite nth_axpy_R by lia.
    now replace (k <? n) with true by (symmetry; apply Nat.ltb_lt; lia). }
  assert (Hr' : axpy n (alpha * -1) Ap (sv_r v)
                = vec n (fun k => nth k (sv_r v) 0 - alpha * nth k Ap 0)).
  { apply vec_eq; [now rewrite length_axpy|]. intros k Hk.
    rewrite nth_axpy_R by lia.
    replace (k <? n) with true by (symmetry; apply Nat.ltb_lt; lia). ring. }
  rewrite Hx', Hr'.
  set (r' := vec n (fun k => nth k (sv_r v) 0 - alpha * nth k Ap 0)).
  assert (Hp' : axpy n 1 r' (scal n (vdot n r' r' / sv_rsold v) (sv_p v))
                = vec n (fun k => nth k r' 0
                                  + vdot n r' r' / sv_rsold v * nth k (sv_p v) 0)).
  { apply vec_eq; [now rewrite length_axpy, length_scal|]. intros k Hk.
    rewrite nth_axpy_R by (rewrite length_scal; lia). rewrite nth_scal_R.
    replace (k <? n) with true by (symmetry; apply Nat.ltb_lt; lia). ring. }
  rewrite Hp', !length_vec. repeat split; auto. apply length_vec.
Qed.

Lemma cg_iterations_hold (steps : nat) :
  length (row X0 u) = n ->
  cg_holds n u X0 (Nat.iter steps (cg_iteration n YtY Cui Y u) (cg_start n YtY Cui Y X0 u))
           (Nat.iter steps (cg_step n A) (cg_init n A b (row X0 u))).
Proof.
  intros Hx. induction steps as [|steps IH]; cbn [Nat.iter nat_rect].
  - now apply cg_start_holds.
  - now apply cg_iteration_holds.
Qed.

(** The body of the loop over users leaves in row [u] the iterate of the
    recurrence after exactly [cg_steps] steps, and touches no other row. *)
Lemma cg_user_R (cg_steps : Z) :
  length (row X0 u) = n ->
  cg_user n YtY Cui Y cg_steps X0 u =
  set_row u (sv_x (Nat.iter (Z.to_nat cg_steps) (cg_step n A)
                            (cg_init n A b (row X0 u)))) X0
  /\ length (sv_x (Nat.iter (Z.to_nat cg_steps) (cg_step n A)
                            (cg_init n A b (row X0 u)))) = n.
Proof.
  intros Hx. unfold cg_user.
  destruct (cg_iterations_hold (Z.to_nat cg_steps) Hx) as (HX & _ & _ & _ & Lx & _).
  now rewrite HX.
Qed.

End User.

End RealCGLoop.

(** * [calculate_loss] *)

Section LossFrame.

Context {F : Type} {SF : Scalar F}.

Lemma loss_entry_frame (N : nat) (Cui : csr_matrix F) (u : nat)
      (sr : loss_state * list F) (index : nat) :
  lo_X (fst (loss_entry N Cui u sr index)) = lo_X (fst sr)
  /\ lo_Y (fst (loss_entry N Cui u sr index)) = lo_Y (fst sr).
Proof. destruct sr as [st r]. now split. Qed.

Lemma loss_entries_frame (N : nat) (Cui : csr_matrix F) (u : nat)
      (idxs : list nat) (sr : loss_state * list F) :
  lo_X (fst (fold_left (loss_entry N Cui u) idxs sr)) = lo_X (fst sr)
  /\ lo_Y (fst (fold_left (loss_entry N Cui u) idxs sr)) = lo_Y (fst sr).
Proof.
  revert sr. induction idxs as [|index idxs IH]; intros sr; [now split|].
  cbn [fold_left]. destruct (IH (loss_entry N Cui u sr index)) as [-> ->].
  apply loss_entry_frame.
Qed.

Lemma loss_user_frame (N : nat) (YtY : ndarray2 F) (Cui : csr_matrix F)
      (st : loss_state) (u : nat) :
  lo_X (loss_user N YtY Cui st u) = lo_X st
  /\ lo_Y (loss_user N YtY Cui st u) = lo_Y st.
Proof.
  unfold loss_user.
  pose proof (loss_entries_frame N Cui u
    (range (nth u (indptr Cui) 0) (nth (u + 1) (indptr Cui) 0))
    (st, symv N fone (flat YtY) (row (lo_X st) u))) as H.
  destruct (fold_left _ _ _) as [st' r']. exact H.
Qed.

Lemma loss_users_frame (N : nat) (YtY : ndarray2 F) (Cui : csr_matrix F)
      (us : list nat) (st : loss_state) :
  lo_X (fold_left (loss_user N YtY Cui) us st) = lo_X st
  /\ lo_Y (fold_left (loss_user N YtY Cui) us st) = lo_Y st.
Proof.
  revert st. induction us as [|u us IH]; intros st; [now split|].
  cbn [fold_left]. destruct (IH (loss_user N YtY Cui st u)) as [-> ->].
  apply loss_user_frame.
Qed.

Lemma loss_items_frame (N : nat) (js : list nat) (st : loss_state) :
  lo_X (fold_left (loss_item N) js st) = lo_X st
  /\ lo_Y (fold_left (loss_item N) js st) = lo_Y st.
Proof.
  revert st. induction js as [|i js IH]; intros st; [now split|].
  cbn [fold_left]. destruct (IH (loss_item N st i)) as [-> ->]. now split.
Qed.

Lemma loss_loops_frame (Cui : csr_matrix F) (X Y : ndarray2 F) :
  lo_X (loss_loops Cui X Y) = X /\ lo_Y (loss_loops Cui X Y) = Y.
Proof.
  unfold loss_loops.
  match goal with
  | |- lo_X (fold_left _ ?js (fold_left ?f ?us ?st)) = _ /\ _ =>
      destruct (loss_items_frame (shape1 X) js (fold_left f us st)) as [-> ->];
      destruct (loss_users_frame (shape1 X) (np_dot (np_transpose Y) Y) Cui us st)
        as [-> ->]
  end.
  now split.
Qed.

End LossFrame.

Section RealLoss.

Local Open Scope R_scope.

Lemma gram_rows_uniform (Y : ndarray2 R) :
  Forall (fun r => length r = shape1 Y) (rows (np_dot (np_transpose Y) Y)).
Proof.
  apply Forall_forall. intros r Hr. unfold np_dot in Hr. cbn [rows] in Hr.
  apply in_map_iff in Hr. destruct Hr as (c & <- & _).
  now rewrite length_map, length_seq.
Qed.

Lemma gram_symmetric (Y : ndarray2 R) (n : nat) : symmetric n (gram Y).
Proof.
  intros j k _ _. unfold gram. apply fsum_ext. intros y _. rsc. ring.
Qed.

Lemma vdot_ext (n : nat) (a a' x : list R) :
  (forall k, (k < n)%nat -> nth k a 0 = nth k a' 0) ->
  vdot n a x = vdot n a' x.
Proof.
  intros H. unfold vdot. apply fsum_ext. intros k Hk. apply in_seq in Hk.
  rsc. now rewrite H by lia.
Qed.

(** Lines 219-227 for one stored entry. *)
Lemma loss_entry_R (N : nat) (Cui : csr_matrix R) (u : nat)
      (st : loss_state) (r : list R) (index : nat) :
  let c := nth index (data Cui) 0 in
  let y := row (lo_Y st) (nth index (indices Cui) 0%nat) in
  let x := row (lo_X st) u in
  let sr := loss_entry N Cui u (st, r) index in
  lo_X (fst sr) = lo_X st /\ lo_Y (fst sr) = lo_Y st
  /\ lo_loss (fst sr) = lo_loss st + c
  /\ lo_total_confidence (fst sr) = lo_total_confidence st + c
  /\ lo_item_norm (fst sr) = lo_item_norm st
  /\ lo_user_norm (fst sr) = lo_user_norm st
  /\ snd sr = axpy N ((c - 1) * vdot N y x - 2 * c) y r.
Proof.
  cbv zeta. unfold loss_entry. cbn [fst snd lo_X lo_Y lo_loss
    lo_total_confidence lo_item_norm lo_user_norm]. rsc.
  rewrite dot_vdot. repeat split.
Qed.

(** Lines 219-227 over a run of stored entries. *)
Lemma loss_entries_R (N : nat) (Cui : csr_matrix R) (u : nat)
      (idxs : list nat) (st : loss_state) (r : list R) :
  length r = N ->
  let c index := nth index (data Cui) 0 in
  let y index := row (lo_Y st) (nth index (indices Cui) 0%nat) in
  let x := row (lo_X st) u in
  let sr := fold_left (loss_entry N Cui u) idxs (st, r) in
  lo_loss (fst sr) = lo_loss st + fsum c idxs
  /\ lo_total_confidence (fst sr) = lo_total_confidence st + fsum c idxs
  /\ lo_item_norm (fst sr) = lo_item_norm st
  /\ lo_user_norm (fst sr) = lo_user_norm st
  /\ length (snd sr) = N
  /\ forall j, (j < N)%nat ->
       nth j (snd sr) 0 =
       nth j r 0
       + fsum (fun index => ((c index - 1) * vdot N (y index) x - 2 * c index)
                            * nth j (y index) 0) idxs.
Proof.
  revert st r. induction idxs as [|index idxs IH]; intros st r Hr; cbv zeta.
  - cbn [fold_left fst snd]. rewrite !fsum_nil.
    repeat split; try lra; auto. intros j _. rewrite fsum_nil. lra.
  - cbn [fold_left].
    pose proof (loss_entry_R N Cui u st r index) as E. cbv zeta in E.
    destruct (loss_entry N Cui u (st, r) index) as [st1 r1].
    cbn [fst snd] in E. destruct E as (EX & EY & E1 & E2 & E3 & E4 & Er).
    destruct (IH st1 r1) as (H1 & H2 & H3 & H4 & H5 & H6).
    { rewrite Er. now rewrite length_axpy. }
    rewrite EX, EY in H6.
    rewrite H1, H2, H3, H4, E1, E2, E3, E4, !fsum_cons.
    repeat split; try lra; auto.
    intros j Hj. rewrite H6 by assumption. rewrite Er.
    rewrite nth_axpy_R by lia.
    replace (j <? N) with true by (symmetry; apply Nat.ltb_lt; lia).
    rewrite fsum_cons. lra.
Qed.

(** Lines 215-230 for one user, on factors of width [n]. *)
Lemma loss_user_R (Cui : csr_matrix R) (X Y : ndarray2 R) (u : nat)
      (st : loss_state) :
  shape1 Y = shape1 X -> lo_X st = X -> lo_Y st = Y ->
  let st' := loss_user (shape1 X) (np_dot (np_transpose Y) Y) Cui st u in
  let cu := fsum snd (observed Cui u) in
  lo_X st' = X /\ lo_Y st' = Y
  /\ lo_loss st' = lo_loss st + (user_term Cui X Y u + cu)
  /\ lo_total_confidence st' = lo_total_confidence st + cu
  /\ lo_item_norm st' = lo_item_norm st
  /\ lo_user_norm st' =
     lo_user_norm st + vdot (shape1 X) (row X u) (row X u).
Proof.
  intros HY HX HYs. cbv zeta. unfold loss_user.
  set (n := shape1 X) in *.
  pose proof (loss_entries_R n Cui u
    (range (nth u (indptr Cui) 0%nat) (nth (u + 1) (indptr Cui) 0%nat)) st
    (symv n fone (flat (np_dot (np_transpose Y) Y)) (row (lo_X st) u))
    (length_symv _ _ _ _)) as H.
  pose proof (loss_entries_frame n Cui u
    (range (nth u (indptr Cui) 0%nat) (nth (u + 1) (indptr Cui) 0%nat))
    (st, symv n fone (flat (np_dot (np_transpose Y) Y)) (row (lo_X st) u)))
    as Hframe.
  cbv zeta in H. destruct (fold_left _ _ _) as [st' r'].
  cbn [fst snd] in H, Hframe.
  destruct H as (H1 & H2 & H3 & H4 & H5 & H6). destruct Hframe as [HX' HY'].
  cbn [lo_X lo_Y lo_loss lo_total_confidence lo_item_norm lo_user_norm].
  rewrite HX in HX'. rewrite HYs in HY'.
  rewrite HX', HY', H1, H2, H3, H4. rsc. rewrite !dot_vdot.
  assert (Hcu : fsum (fun index => nth index (data Cui) 0)
                     (range (nth u (indptr Cui) 0%nat)
                            (nth (u + 1) (indptr Cui) 0%nat))
                = fsum snd (observed Cui u)).
  { unfold observed. now rewrite fsum_map. }
  rewrite Hcu.
  assert (Hterm : vdot n r' (row X u) = user_term Cui X Y u).
  { unfold user_term. fold n. apply vdot_ext. intros j Hj.
    rewrite H6 by assumption. unfold vec. rewrite nth_map_seq by assumption.
    rsc. rewrite HX, HYs.
    rewrite (nth_symv_R n 1 _ (gram Y) (row X u) j).
    - rewrite nth_mat_vec by assumption. unfold observed. rewrite fsum_map.
      cbn [fst snd]. rsc. lra.
    - rewrite <- HY. apply gram_rows_uniform.
    - intros i k Hi Hk. apply row_gram; rewrite HY; assumption.
    - apply gram_symmetric.
    - assumption. }
  rewrite Hterm. repeat split; lra.
Qed.

End RealLoss.

Section RealLossLoops.

Local Open Scope R_scope.

Lemma loss_users_R (Cui : csr_matrix R) (X Y : ndarray2 R) (m : nat)
      (st : loss_state) :
  shape1 Y = shape1 X -> lo_X st = X -> lo_Y st = Y ->
  let st' := fold_left (loss_user (shape1 X) (np_dot (np_transpose Y) Y) Cui)
                       (seq 0 m) st in
  lo_X st' = X /\ lo_Y st' = Y
  /\ lo_loss st' =
     lo_loss st
     + fsum (fun u => user_term Cui X Y u + fsum snd (observed Cui u)) (seq 0 m)
  /\ lo_total_confidence st' =
     lo_total_confidence st + fsum (fun u => fsum snd (observed Cui u)) (seq 0 m)
  /\ lo_item_norm st' = lo_item_norm st
  /\ lo_user_norm st' =
     lo_user_norm st
     + fsum (fun u => vdot (shape1 X) (row X u) (row X u)) (seq 0 m).
Proof.
  intros HY HX HYs. induction m as [|m IH]; cbv zeta.
  - cbn [seq fold_left]. rewrite !fsum_nil. repeat split; auto; lra.
  - cbv zeta in IH. destruct IH as (IX & IY & I1 & I2 & I3 & I4).
    rewrite seq_S, fold_left_app. cbn [fold_left Nat.add].
    destruct (loss_user_R Cui X Y m _ HY IX IY) as (UX & UY & U1 & U2 & U3 & U4).
    rewrite !fsum_app, !fsum_cons, !fsum_nil.
    rewrite U1, U2, U3, U4, I1, I2, I3, I4.
    repeat split; auto; lra.
Qed.

Lemma loss_items_R (n m : nat) (st : loss_state) :
  let st' := fold_left (loss_item n) (seq 0 m) st in
  lo_loss st' = lo_loss st
  /\ lo_total_confidence st' = lo_total_confidence st
  /\ lo_user_norm st' = lo_user_norm st
  /\ lo_item_norm st' =
     lo_item_norm st
     + fsum (fun i => vdot n (row (lo_Y st) i) (row (lo_Y st) i)) (seq 0 m).
Proof.
  induction m as [|m IH]; cbv zeta.
  - cbn [seq fold_left]. rewrite fsum_nil. repeat split; auto; lra.
  - cbv zeta in IH. destruct IH as (I1 & I2 & I3 & I4).
    rewrite seq_S, fold_left_app. cbn [fold_left Nat.add].
    pose proof (proj2 (loss_items_frame n (seq 0 m) st)) as HY.
    set (st1 := fold_left (loss_item n) (seq 0 m) st) in *.
    unfold loss_item.
    cbn [lo_loss lo_total_confidence lo_item_norm lo_user_norm].
    rewrite HY. rsc. rewrite dot_vdot, I4, fsum_app, fsum_cons, fsum_nil.
    repeat split; auto; lra.
Qed.

(** The rows of a compressed-row matrix, laid end to end, are the whole
    value array. *)
Lemma fsum_ranges (f : nat -> R) (p : nat -> nat) (m : nat) :
  (forall u, (u < m)%nat -> (p u <= p (u + 1))%nat) ->
  fsum (fun u => fsum f (range (p u) (p (u + 1)%nat))) (seq 0 m) =
  fsum f (range (p 0%nat) (p m)).
Proof.
  induction m as [|m IH]; intros Hmono.
  - unfold range. rewrite Nat.sub_diag. reflexivity.
  - rewrite seq_S, fsum_app, fsum_cons, fsum_nil, IH by (intros; apply Hmono; lia).
    cbn [Nat.add]. rewrite Rplus_0_r, <- fsum_app. f_equal.
    assert (Hle : (p 0%nat <= p m)%nat).
    { clear IH. induction m as [|k IHk]; [lia|].
      etransitivity; [apply IHk; intros; apply Hmono; lia|].
      replace (S k) with (k + 1)%nat by lia. apply Hmono. lia. }
    assert (Hstep : (p m <= p (S m))%nat).
    { replace (S m) with (m + 1)%nat by lia. apply Hmono. lia. }
    unfold range. replace (m + 1)%nat with (S m) by lia.
    replace (p (S m) - p 0%nat)%nat
      with ((p m - p 0%nat) + (p (S m) - p m))%nat by lia.
    rewrite seq_app. do 2 f_equal. lia.
Qed.

Lemma total_confidence_rows (Cui : csr_matrix R) (X Y : ndarray2 R) :
  wf_input Cui X Y ->
  fsum (fun u => fsum snd (observed Cui u)) (seq 0 (shape0 X)) =
  total_confidence Cui.
Proof.
  intros Hwf.
  rewrite (fsum_ext _ (fun u => fsum (fun index => nth index (data Cui) 0)
                                     (range (nth u (indptr Cui) 0%nat)
                                            (nth (u + 1) (indptr Cui) 0%nat)))).
  2:{ intros u _. unfold observed. now rewrite fsum_map. }
  rewrite (fsum_ranges _ (fun u => nth u (indptr Cui) 0%nat))
    by (intros u Hu; now apply (wf_indptr_mono _ _ _ Hwf)).
  rewrite (wf_indptr_first _ _ _ Hwf), (wf_indptr_last _ _ _ Hwf).
  unfold range. rewrite Nat.sub_0_r, <- (wf_data_length _ _ _ Hwf).
  unfold total_confidence.
  apply (fsum_seq_nth (fun c => c) (data Cui) 0).
Qed.

(** The accumulators when both loops are done. *)
Lemma loss_loops_R (Cui : csr_matrix R) (X Y : ndarray2 R) :
  wf_input Cui X Y ->
  let st := loss_loops Cui X Y in
  lo_loss st = sum_user_terms Cui X Y + total_confidence Cui
  /\ lo_total_confidence st = total_confidence Cui
  /\ lo_item_norm st = sum_sq_norms (shape1 X) Y
  /\ lo_user_norm st = sum_sq_norms (shape1 X) X.
Proof.
  intros Hwf. cbv zeta. unfold loss_loops.
  set (st0 := {| lo_X := X; lo_Y := Y; lo_loss := fzero;
                 lo_total_confidence := fzero;
                 lo_item_norm := fzero; lo_user_norm := fzero |}).
  destruct (loss_users_R Cui X Y (shape0 X) st0 (wf_width _ _ _ Hwf)
                         eq_refl eq_refl) as (UX & UY & U1 & U2 & U3 & U4).
  cbv zeta in U1, U2, U3, U4, UX, UY.
  set (st1 := fold_left _ (seq 0 (shape0 X)) st0) in *.
  destruct (loss_items_R (shape1 X) (shape0 Y) st1) as (I1 & I2 & I3 & I4).
  cbv zeta in I1, I2, I3, I4.
  rewrite I1, I2, I3, I4, U1, U2, U3, U4, UY.
  unfold st0. cbn [lo_loss lo_total_confidence lo_item_norm lo_user_norm]. rsc.
  rewrite fsum_add, (total_confidence_rows Cui X Y Hwf).
  unfold sum_user_terms, sum_sq_norms, shape0, row.
  rewrite (fsum_seq_nth (fun r => vdot (shape1 X) r r) (rows X) []).
  rewrite (fsum_seq_nth (fun r => vdot (shape1 X) r r) (rows Y) []).
  repeat split; lra.
Qed.

Lemma loss_divisor_R (Cui : csr_matrix R) (X Y : ndarray2 R) :
  wf_input Cui X Y ->
  loss_divisor Cui (loss_loops Cui X Y) = loss_denominator Cui X Y.
Proof.
  intros Hwf. unfold loss_divisor, loss_denominator.
  destruct (loss_loops_R Cui X Y Hwf) as (_ & -> & _).
  now rewrite (wf_shape _ _ _ Hwf).
Qed.

(** The value [calculate_loss] returns on a well-formed input. *)
Lemma calculate_loss_R (Cui : csr_matrix R) (X Y : ndarray2 R)
      (regularization : R) :
  wf_input Cui X Y ->
  snd (calculate_loss Cui X Y regularization) =
  if Req_dec_T (loss_denominator Cui X Y) 0
  then inl ZeroDivisionError
  else inr (loss_with_constant Cui X Y regularization).
Proof.
  intros Hwf. unfold calculate_loss. cbn [snd].
  rewrite (loss_divisor_R Cui X Y Hwf).
  destruct (loss_loops_R Cui X Y Hwf) as (-> & _ & -> & ->).
  cbn [feqb R_scalar]. rsc.
  destruct (Req_dec_T (loss_denominator Cui X Y) 0); [reflexivity|].
  f_equal. unfold loss_with_constant. rsc. f_equal. ring.
Qed.

End RealLossLoops.

(** * Concrete inputs, by evaluation *)

Ltac by_index u tac :=
  first [ solve [cbn in *; lia]
        | destruct u as [|u]; [solve [tac] | by_index u tac] ].

Ltac concrete_wf :=
  constructor; cbn;
  first [ reflexivity
        | solve [repeat constructor]
        | let u := fresh "u" in
          let Hu := fresh "Hu" in
          intros u Hu; by_index u ltac:(cbn in *; lia) ].

Ltac concrete_nodup :=
  cbn; repeat (apply NoDup_cons; [cbn; intuition lia|]); apply NoDup_nil.

Ltac concrete_canonical :=
  let u := fresh "u" in
  let Hu := fresh "Hu" in
  intros u Hu; by_index u concrete_nodup.

(** * The direct solver on well-formed inputs *)

Section DirectSolve.

Local Open Scope R_scope.

(** The reference Cholesky solve meets its contract on 2 x 2 systems:
    with s0 = sqrt a00, u = a01 / s0 and s1 = sqrt (a11 - u^2), it returns
    the solution of U^t U x = b for U = [[s0, u], [0, s1]]. *)
Lemma posv_ref_order_two : posv_solves_spd reference_lapack 2.
Proof.
  intros A b HA Hb Hsym Hpd.
  destruct A as [|a0 [|a1 [|a2 [|a3 [|? ?]]]]]; try discriminate HA.
  destruct b as [|b0 [|b1 [|? ?]]]; try discriminate Hb.
  assert (H12 : a2 = a1).
  { specialize (Hsym 0%nat 1%nat). unfold at2 in Hsym. cbn in Hsym. apply Hsym; lia. }
  subst a2.
  assert (Ha0 : 0 < a0).
  { specialize (Hpd [1; 0]). unfold quad_form, vdot, mat_vec, vec, at2 in Hpd.
    cbn in Hpd.
    assert (0 < 1 * (a0 * 1 + (a1 * 0 + 0)) + (0 * (a1 * 1 + (a3 * 0 + 0)) + 0))
      by (apply Hpd; exists 0%nat; split; [lia|cbn; lra]).
    lra. }
  assert (Hdet : 0 < a0 * a3 - a1 * a1).
  { specialize (Hpd [- a1; a0]). unfold quad_form, vdot, mat_vec, vec, at2 in Hpd.
    cbn in Hpd.
    assert (0 < - a1 * (a0 * - a1 + (a1 * a0 + 0)) + (a0 * (a1 * - a1 + (a3 * a0 + 0)) + 0))
      by (apply Hpd; exists 1%nat; split; [lia|cbn; lra]).
    nra. }
  cbn [posv reference_lapack]. unfold posv_ref, potf2. cbn [seq fold_left].
  unfold potf2_step at 2. cbn [Z.eqb negb]. unfold at2, sumf, put2.
  cbn [seq fold_left nth Nat.add Nat.mul Nat.sub update].
  cbn [fltb R_scalar]. rsc.
  destruct (Rlt_dec 0 (a0 - 0)) as [_|Hn]; [|exfalso; apply Hn; lra].
  cbn [fsqrt R_scalar].
  set (s0 := R_sqrt.sqrt (a0 - 0)).
  unfold potf2_step. cbn [Z.eqb negb]. unfold at2, sumf, put2.
  cbn [seq fold_left nth Nat.add Nat.mul Nat.sub update].
  cbn [fltb fsqrt R_scalar]. rsc.
  assert (Hs0 : s0 * s0 = a0).
  { unfold s0. rewrite R_sqrt.sqrt_sqrt; lra. }
  assert (Hs0nz : s0 <> 0).
  { intros H0. rewrite H0 in Hs0. lra. }
  set (u := (a1 - 0) * (1 / s0)).
  assert (Hu : u * s0 = a1).
  { unfold u. field. exact Hs0nz. }
  assert (Hpiv : 0 < a3 - (0 + u * u)).
  { assert (Hq : a0 * (a3 - (0 + u * u)) = a0 * a3 - a1 * a1).
    { rewrite <- Hu, <- Hs0. ring. }
    assert (0 < a0 * (a3 - (0 + u * u))) by lra.
    apply (Rmult_lt_reg_l a0); [exact Ha0|]. lra. }
  destruct (Rlt_dec 0 (a3 - (0 + u * u))) as [_|Hn]; [|contradiction].
  set (s1 := R_sqrt.sqrt (a3 - (0 + u * u))).
  assert (Hs1 : s1 * s1 = a3 - u * u).
  { unfold s1. rewrite R_sqrt.sqrt_sqrt; lra. }
  assert (Hs1nz : s1 <> 0).
  { intros H0. rewrite H0 in Hs1. lra. }
  cbn [Z.eqb].
  unfold forward_subst, back_subst, sumf.
  cbn [seq rev app fold_left nth update Nat.add Nat.mul Nat.sub]. rsc.
  eexists. eexists. split; [reflexivity|].
  split; [reflexivity|]. intros j Hj.
  unfold mat_vec, vec.
  assert (Ha3 : a3 = s1 * s1 + u * u) by lra.
  destruct j as [|[|j]]; [| |lia];
    cbn [seq map nth fsum fold_right Nat.add Nat.mul]; rsc;
    rewrite ?Ha3, <- ?Hu, <- ?Hs0; field; auto.
Qed.



Lemma solves_zero (n : nat) (M : nat -> nat -> R) :
  solves n M (np_zeros n) (fun _ => 0).
Proof.
  split; [apply repeat_length|]. intros j Hj.
  rewrite nth_mat_vec by assumption.
  rewrite (fsum_ext _ (fun _ => 0)); [apply fsum_zero|].
  intros k _. unfold np_zeros. rsc. rewrite nth_repeat_R. ring.
Qed.

(** C5.  Under the same conditions, a user whose row of the confidence
    matrix stores no entry gets the zero vector. *)
Theorem least_squares_unobserved_user_zero (backend : lapack)
        (Cui : csr_matrix R) (X Y : ndarray2 R) (regularization : R) :
  posv_solves_spd backend (shape1 X) ->
  wf_input Cui X Y -> canonical Cui (shape0 X) -> nonneg_confidence Cui ->
  0 < regularization ->
  exists X',
    least_squares backend Cui X Y regularization = (X', None)
    /\ forall u, (u < shape0 X)%nat -> observed Cui u = [] ->
         row X' u = np_zeros (shape1 X).
Proof.
  intros Hposv Hwf Hcan Hnn Hreg.
  destruct (least_squares_solves backend Cui X Y regularization
              Hposv Hwf Hcan Hnn Hreg) as (X' & Hrun & _ & _ & Hsol).
  exists X'. split; [assumption|]. intros u Hu Hobs.
  symmetry.
  apply (solves_unique (shape1 X) (normal_matrix Cui Y regularization u)
                       (row X' u) (np_zeros (shape1 X)) (normal_rhs Cui Y u)).
  - now apply (normal_matrix_pd Cui X Y).
  - now apply Hsol.
  - apply (solves_ext (shape1 X) (normal_matrix Cui Y regularization u) _
                      _ (fun _ => 0)); auto using solves_zero.
    intros j _. unfold normal_rhs. now rewrite Hobs.
Qed.

(** C5, witness: user 1 of [rex_Cui] stores no entry. *)
Lemma least_squares_unobserved_user_zero_witness :
  observed rex_Cui 1 = []
  /\ exists X',
       least_squares reference_lapack rex_Cui rex_X rex_Y 0.1 = (X', None)
       /\ forall u, (u < shape0 rex_X)%nat -> observed rex_Cui u = [] ->
            row X' u = np_zeros (shape1 rex_X).
Proof.
  split; [reflexivity|].
  apply least_squares_unobserved_user_zero.
  - exact posv_ref_order_two.
  - concrete_wf.
  - concrete_canonical.
  - repeat constructor; cbn; lra.
  - lra.
Defined.

End DirectSolve.

(** * The direct solver when a solve fails *)

Section DirectFailure.

Context {F : Type} {SF : Scalar F}.

Variable backend : lapack (F := F).

(** Lines 97-101: the fallback receives the buffers as the Cholesky solve
    left them. *)
Lemma ls_solve_cases (n : nat) (A b : list F) :
  let first := posv backend n A b in
  ls_solve backend n A b =
  if (snd first =? 0)%Z then first
  else gesv backend n (fst (fst first)) (snd (fst first)).
Proof.
  cbv zeta. unfold ls_solve.
  destruct (posv backend n A b) as [[A' b'] err]. reflexivity.
Qed.

(** Lines 103-108: the two exits of the body of the loop over users. *)
Lemma ls_user_cases (n : nat) (initialA : ndarray2 F) (initialB : list F)
      (Cui : csr_matrix F) (Y X : ndarray2 F) (u : nat) :
  let Ab := ls_build n initialA initialB Cui Y u in
  let res := ls_solve backend n (fst Ab) (snd Ab) in
  ls_user backend n initialA initialB Cui Y X u =
  if (snd res =? 0)%Z
  then (set_row u (memcpy n (snd (fst res)) (row X u)) X, None)
  else (X, Some (ValueError_singular (snd res) u)).
Proof.
  cbv zeta. unfold ls_user.
  destruct (ls_build n initialA initialB Cui Y u) as [A b]. cbn [fst snd].
  destruct (ls_solve backend n A b) as [[A' b'] err]. reflexivity.
Qed.

(** When the failed Cholesky solve hands back the buffers as it received
    them, the LU solve runs on the contents the Cholesky solve was given. *)
Lemma ls_solve_retry_same_contents (n : nat) (A b : list F) (err : Z) :
  posv backend n A b = (A, b, err) -> err <> 0%Z ->
  ls_solve backend n A b = gesv backend n A b.
Proof.
  intros Hposv Herr. rewrite ls_solve_cases. cbv zeta. rewrite Hposv.
  cbn [fst snd]. apply Z.eqb_neq in Herr. now rewrite Herr.
Qed.


Lemma np_add_raises (M N : ndarray2 F) (e : exn) :
  np_add M N = inl e -> e = ValueError_broadcast.
Proof.
  unfold np_add.
  destruct (bcast_dim (shape0 M) (shape0 N)), (bcast_dim (shape1 M) (shape1 N));
    congruence.
Qed.




End DirectFailure.

Section DirectFailureRuns.

Local Open Scope float_scope.


(** C3.  The run of [least_squares] on the input [rank1_Cui], [rank1_X],
    [rank1_Y] with regularization 0 and the reference backend.  The scratch
    buffers hold A = [[4, 2], [2, 1]] and b = (2, 1).  The Cholesky solve
    stops at the second pivot with status 2, having overwritten the first
    row of the factor; the LU solve then receives that buffer, not A,
    reports status 0, and (0.5, 1) is written to X, for which A x is
    (4, 2), not b.  On the contents the Cholesky solve had received, the LU
    solve reports status 2. *)
Theorem least_squares_fallback_on_overwritten_buffer :
  let initialA := {| shape1 := 2%nat; rows := [[4; 2]; [2; 1]] |} in
  let A := [4; 2; 2; 1] in
  let b := [2; 1] in
  np_add (np_dot (np_transpose rank1_Y) rank1_Y) (np_scale 0 (np_eye 2)) = inr initialA
  /\ ls_build 2 initialA (np_zeros 2) rank1_Cui rank1_Y 0 = (A, b)
  /\ posv reference_lapack 2 A b = ([2; 2; 1; 0], b, 2%Z)
  /\ snd (gesv reference_lapack 2 A b) = 2%Z
  /\ ls_solve reference_lapack 2 A b = gesv reference_lapack 2 [2; 2; 1; 0] b
  /\ gesv reference_lapack 2 [2; 2; 1; 0] b = ([2; 1; 1; -1], [0.5; 1], 0%Z)
  /\ least_squares reference_lapack rank1_Cui rank1_X rank1_Y 0
     = ({| shape1 := 2%nat; rows := [[0.5; 1]] |}, None)
  /\ mat_vec 2 (at2 2 A) [0.5; 1] = [4; 2].
Proof. cbv zeta. repeat split; vm_compute; reflexivity. Qed.

End DirectFailureRuns.

(** * The conjugate-gradient solver *)

Section ConjugateGradient.

Local Open Scope R_scope.



(** In exact arithmetic the zero divisor is met by every user that has no
    observed item and a zero factor row: r0 = b - A x0 = 0, so rsold = 0
    and p . Ap = 0 at the first iteration. *)
Lemma cg_zero_row_zero_divisor (Cui : csr_matrix R) (X Y : ndarray2 R)
      (regularization : R) (YtY : ndarray2 R) (u : nat) :
  wf_input Cui X Y -> (u < shape0 X)%nat ->
  observed Cui u = [] -> (forall k, nth k (row X u) 0 = 0) ->
  np_add (np_dot (np_transpose Y) Y) (np_scale regularization (np_eye (shape1 X)))
  = inr YtY ->
  let st := cg_start (shape1 X) YtY Cui Y X u in
  cg_rsold st = 0
  /\ dot (shape1 X) (cg_p st) (cg_Ap (shape1 X) YtY Cui Y u (cg_p st)) = 0.
Proof.
  intros Hwf Hu Hobs Hx Hadd.
  destruct (initialA_spec Y regularization (shape1 X) (wf_width _ _ _ Hwf))
    as (YtY' & Hadd' & _ & _ & Hall & Hentries).
  rewrite Hadd in Hadd'. injection Hadd' as <-.
  set (n := shape1 X) in *. cbv zeta.
  assert (Hlen : length (row X u) = n).
  { apply row_length; [apply (wf_X _ _ _ Hwf)|assumption]. }
  destruct (cg_start_holds Cui Y regularization n u YtY X Hall Hentries Hu Hlen)
    as (_ & Hr & Hp & Hrs & _).
  assert (Hzero : forall x, (forall k, nth k x 0 = 0) ->
            forall j, nth j (mat_vec n (normal_matrix Cui Y regularization u) x) 0 = 0).
  { intros x Hx0 j. destruct (Nat.lt_ge_cases j n) as [Hj|Hj].
    - rewrite nth_mat_vec by assumption.
      rewrite (fsum_ext _ (fun _ => 0)); [apply fsum_zero|].
      intros k _. rewrite Hx0. ring.
    - apply nth_overflow. now rewrite length_mat_vec. }
  assert (Hr0 : forall k,
            nth k (sv_r (cg_init n (normal_matrix Cui Y regularization u)
                                 (normal_rhs Cui Y u) (row X u))) 0 = 0).
  { intros k. unfold cg_init. cbn [sv_r]. unfold vec.
    destruct (Nat.lt_ge_cases k n) as [Hk|Hk].
    - rewrite nth_map_seq by assumption. rsc. rewrite Hzero by assumption.
      unfold normal_rhs. rewrite Hobs, fsum_nil. ring.
    - apply nth_overflow. now rewrite length_map, length_seq. }
  assert (Hdot0 : forall x y, (forall k, nth k x 0 = 0) -> vdot n x y = 0).
  { intros x y Hx0. unfold vdot.
    rewrite (fsum_ext _ (fun _ => 0)); [apply fsum_zero|].
    intros k _. rsc. rewrite Hx0. ring. }
  split.
  - rewrite Hrs. unfold cg_init. cbn [sv_rsold]. apply Hdot0.
    intros k. apply Hr0.
  - rewrite dot_vdot. apply Hdot0. intros k. rewrite Hp.
    unfold cg_init. cbn [sv_p]. apply Hr0.
Qed.

End ConjugateGradient.

Section ConjugateGradientSteps.

Context {F : Type} {SF : Scalar F}.

Lemma fold_left_fixed {A B} (f : A -> B -> A) (l : list B) (a : A) :
  (forall a' x, f a' x = a') -> fold_left f l a = a.
Proof.
  intros Hf. revert a. induction l as [|x l IH]; intros a; cbn [fold_left];
    [reflexivity|]. now rewrite Hf.
Qed.

Lemma cg_user_no_steps (N : nat) (YtY : ndarray2 F) (Cui : csr_matrix F)
      (Y : ndarray2 F) (cg_steps : Z) (X : ndarray2 F) (u : nat) :
  (cg_steps <= 0)%Z -> cg_user N YtY Cui Y cg_steps X u = X.
Proof.
  intros Hs. unfold cg_user.
  replace (Z.to_nat cg_steps) with 0 by lia. reflexivity.
Qed.

(** C6, as amended.  With [cg_steps] <= 0 the loop [for it in
    range(cg_steps)] has no turn and nothing checks the parameter: X is
    returned as it was received, and the only exception the call can raise
    is numpy's broadcasting error, which does not occur when X and Y have
    the same width. *)
Theorem least_squares_cg_nonpositive_steps (Cui : csr_matrix F)
        (X Y : ndarray2 F) (regularization : F) (cg_steps : Z) :
  (cg_steps <= 0)%Z ->
  fst (least_squares_cg Cui X Y regularization cg_steps) = X
  /\ (snd (least_squares_cg Cui X Y regularization cg_steps) = None
      \/ snd (least_squares_cg Cui X Y regularization cg_steps)
         = Some ValueError_broadcast)
  /\ (shape1 Y = shape1 X ->
      snd (least_squares_cg Cui X Y regularization cg_steps) = None).
Proof.
  intros Hs. unfold least_squares_cg.
  destruct (np_add _ _) as [e|YtY] eqn:Hadd.
  - cbn [fst snd]. apply np_add_raises in Hadd as Hbc. subst e.
    split; [reflexivity|]. split; [now right|]. intros HY.
    rewrite (np_add_square _ _ (shape1 X)) in Hadd; try discriminate.
    + now rewrite shape0_gram.
    + now rewrite shape1_gram.
    + apply shape0_scaled_eye.
    + apply shape1_scaled_eye.
  - cbn [fst snd]. split; [|split; [now left|reflexivity]].
    apply fold_left_fixed. intros X' u. now apply cg_user_no_steps.
Qed.

End ConjugateGradientSteps.

Section ConjugateGradientRuns.

Local Open Scope float_scope.

(** C6, counterexample.  [least_squares_cg] called with [cg_steps] = 0 and
    with [cg_steps] = -1 on a well-formed input returns normally, X
    unchanged. *)
Lemma least_squares_cg_accepts_nonpositive_steps :
  wf_input s_Cui s_X s_Y
  /\ least_squares_cg s_Cui s_X s_Y 1 0 = (s_X, None)
  /\ least_squares_cg s_Cui s_X s_Y 1 (-1) = (s_X, None).
Proof.
  split; [concrete_wf|]. split; vm_compute; reflexivity.
Qed.

(** C6, witness: [cg_steps] = -1. *)
Lemma least_squares_cg_nonpositive_steps_witness :
  fst (least_squares_cg s_Cui s_X s_Y 1 (-1)) = s_X
  /\ (snd (least_squares_cg s_Cui s_X s_Y 1 (-1)) = None
      \/ snd (least_squares_cg s_Cui s_X s_Y 1 (-1)) = Some ValueError_broadcast)
  /\ (shape1 s_Y = shape1 s_X ->
      snd (least_squares_cg s_Cui s_X s_Y 1 (-1)) = None).
Proof. apply least_squares_cg_nonpositive_steps. lia. Defined.

(** C10.  A well-formed input with [cg_steps] = 1 on which the divisor of
    alpha = rsold / (p . Ap) is zero at the first iteration: the one user
    has no observed item and a zero factor row.  rsold and p . Ap are both
    0, the quotient is not a number, and it is stored in the user's row:
    no test stands before the division. *)
Theorem least_squares_cg_zero_divisor :
  wf_input z_Cui z_X z_Y
  /\ observed z_Cui 0 = []
  /\ row z_X 0 = [0]
  /\ np_add (np_dot (np_transpose z_Y) z_Y) (np_scale 0.5 (np_eye 1)) = inr z_YtY
  /\ let st := cg_start 1 z_YtY z_Cui z_Y z_X 0 in
     let Ap := cg_Ap 1 z_YtY z_Cui z_Y 0 (cg_p st) in
     cg_rsold st = 0
     /\ dot 1 (cg_p st) Ap = 0
     /\ cg_rsold st /! dot 1 (cg_p st) Ap = nan
     /\ row (cg_X (cg_iteration 1 z_YtY z_Cui z_Y 0 st)) 0 = [nan]
     /\ least_squares_cg z_Cui z_X z_Y 0.5 1
        = ({| shape1 := 1%nat; rows := [[nan]] |}, None).
Proof.
  split; [concrete_wf|]. cbv zeta. repeat split; vm_compute; reflexivity.
Qed.

End ConjugateGradientRuns.

(** * The loss *)

Section Loss.

Local Open Scope R_scope.

Lemma cl_wf : wf_input cl_Cui cl_X cl_Y.
Proof. concrete_wf. Qed.

Lemma empty_wf : wf_input empty_Cui empty_X empty_X.
Proof. concrete_wf. Qed.

Lemma cl_values :
  loss_denominator cl_Cui cl_X cl_Y = 2
  /\ loss_with_constant cl_Cui cl_X cl_Y 0 = 0
  /\ loss_as_specified cl_Cui cl_X cl_Y 0 = -1.
Proof.
  assert (Hden : loss_denominator cl_Cui cl_X cl_Y = 2).
  { unfold loss_denominator, total_confidence. cbn. lra. }
  unfold loss_with_constant, loss_as_specified. rewrite Hden.
  unfold sum_user_terms, user_term, sum_sq_norms, total_confidence, vdot,
    mat_vec, vec, gram, observed, range.
  cbn. repeat split; try lra; field.
Qed.

(** C2, counterexample.  One user, one item, one factor, x = y = 1, the
    cell observed with confidence 2, regularization 0: the call returns 0
    (the objective 2 * (1 - x y)^2), the value of the specified formula
    is -1.  On the empty matrix the denominator is 0 and the call returns
    no value. *)
Lemma calculate_loss_not_as_specified :
  wf_input cl_Cui cl_X cl_Y
  /\ snd (calculate_loss cl_Cui cl_X cl_Y 0) = inr 0
  /\ loss_as_specified cl_Cui cl_X cl_Y 0 = -1
  /\ snd (calculate_loss cl_Cui cl_X cl_Y 0)
     <> inr (loss_as_specified cl_Cui cl_X cl_Y 0)
  /\ wf_input empty_Cui empty_X empty_X
  /\ snd (calculate_loss empty_Cui empty_X empty_X 0) = inl ZeroDivisionError.
Proof.
  destruct cl_values as (Hden & Hcode & Hspec).
  assert (Hrun : snd (calculate_loss cl_Cui cl_X cl_Y 0) = inr 0).
  { rewrite (calculate_loss_R _ _ _ _ cl_wf), Hden, Hcode.
    destruct (Req_dec_T 2 0); [lra|reflexivity]. }
  split; [exact cl_wf|]. split; [exact Hrun|]. split; [exact Hspec|].
  split.
  - rewrite Hrun, Hspec. intros H. injection H as H. lra.
  - split; [exact empty_wf|].
    rewrite (calculate_loss_R _ _ _ _ empty_wf).
    assert (Hz : loss_denominator empty_Cui empty_X empty_X = 0).
    { unfold loss_denominator, total_confidence. cbn. lra. }
    rewrite Hz. destruct (Req_dec_T 0 0); [reflexivity|contradiction].
Qed.

(** C2, as amended.  On a well-formed input whose denominator is not zero,
    [calculate_loss] returns (sum of the per-user terms + the sum of all
    stored confidences + regularization * (sum |x|^2 + sum |y|^2))
    / (total_confidence + users * items - nnz). *)
Theorem calculate_loss_value (Cui : csr_matrix R) (X Y : ndarray2 R)
        (regularization : R) :
  wf_input Cui X Y -> loss_denominator Cui X Y <> 0 ->
  snd (calculate_loss Cui X Y regularization)
  = inr (loss_with_constant Cui X Y regularization).
Proof.
  intros Hwf Hden. rewrite (calculate_loss_R Cui X Y regularization Hwf).
  destruct (Req_dec_T (loss_denominator Cui X Y) 0); [contradiction|reflexivity].
Qed.

(** C2, witness: [rex_Cui], [rex_X], [rex_Y], whose denominator is 9. *)
Lemma calculate_loss_value_witness :
  snd (calculate_loss rex_Cui rex_X rex_Y 0.1)
  = inr (loss_with_constant rex_Cui rex_X rex_Y 0.1).
Proof.
  apply calculate_loss_value.
  - concrete_wf.
  - unfold loss_denominator, total_confidence. cbn. lra.
Defined.

End Loss.

Section LossMemory.

Context {F : Type} {SF : Scalar F}.

(** C8.  [calculate_loss] leaves X and Y as it received them: every
    statement of its two loops writes to the scratch vector or to one of
    the four accumulators. *)
Theorem calculate_loss_frame (Cui : csr_matrix F) (X Y : ndarray2 F)
        (regularization : F) :
  lo_X (fst (calculate_loss Cui X Y regularization)) = X
  /\ lo_Y (fst (calculate_loss Cui X Y regularization)) = Y.
Proof. unfold calculate_loss. cbn [fst]. apply loss_loops_frame. Qed.

End LossMemory.

(** * What is checked about shapes *)

Section Shapes.

Context {F : Type} {SF : Scalar F}.

Variable backend : lapack (F := F).

Lemma np_add_mismatch (M N : ndarray2 F) :
  bcast_dim (shape1 M) (shape1 N) = None ->
  np_add M N = inl ValueError_broadcast.
Proof.
  intros H. unfold np_add. rewrite H.
  now destruct (bcast_dim (shape0 M) (shape0 N)).
Qed.

(** C7, as amended.  The one shape condition that is detected: when the
    widths of X and Y differ and neither is 1, the sum [YtY +
    regularization * eye(factors)] of the preamble raises, before the loop
    over users and with X untouched, in [least_squares] and in
    [least_squares_cg].  [calculate_loss] forms no such sum and raises
    nothing but the division error. *)
Theorem width_mismatch_raises_broadcast (Cui : csr_matrix F)
        (X Y : ndarray2 F) (regularization : F) (cg_steps : Z) :
  shape1 Y <> shape1 X -> shape1 X <> 1 -> shape1 Y <> 1 ->
  least_squares backend Cui X Y regularization = (X, Some ValueError_broadcast)
  /\ least_squares_cg Cui X Y regularization cg_steps
     = (X, Some ValueError_broadcast)
  /\ (snd (calculate_loss Cui X Y regularization) = inl ZeroDivisionError
      \/ exists v, snd (calculate_loss Cui X Y regularization) = inr v).
Proof.
  intros Hne HX HY.
  assert (Hadd : np_add (np_dot (np_transpose Y) Y)
                        (np_scale regularization (np_eye (shape1 X)))
                 = inl ValueError_broadcast).
  { apply np_add_mismatch. rewrite shape1_gram, shape1_scaled_eye.
    now apply bcast_dim_none. }
  unfold least_squares, least_squares_cg. rewrite Hadd.
  split; [reflexivity|]. split; [reflexivity|].
  unfold calculate_loss. cbn [snd].
  destruct (feqb _ _); [now left|right; eauto].
Qed.

End Shapes.

Section ShapeRuns.

Local Open Scope float_scope.

(** C7, counterexample.  A row pointer that is not monotone and does not
    end at nnz, and user factors narrower than the item factors: the three
    entry points return normally on both; [least_squares] and
    [least_squares_cg] have rewritten X. *)
Lemma malformed_inputs_accepted :
  indptr bad_Cui = [0; 1; 0]%nat
  /\ snd (least_squares reference_lapack bad_Cui s_X s_Y 1) = None
  /\ fst (least_squares reference_lapack bad_Cui s_X s_Y 1) <> s_X
  /\ snd (least_squares_cg bad_Cui s_X s_Y 1 1) = None
  /\ fst (least_squares_cg bad_Cui s_X s_Y 1 1) <> s_X
  /\ (exists v, snd (calculate_loss bad_Cui s_X s_Y 1) = inr v)
  /\ shape1 narrow_X = 1%nat /\ shape1 s_Y = 2%nat
  /\ snd (least_squares reference_lapack s_Cui narrow_X s_Y 1) = None
  /\ fst (least_squares reference_lapack s_Cui narrow_X s_Y 1) <> narrow_X
  /\ snd (least_squares_cg s_Cui narrow_X s_Y 1 1) = None
  /\ fst (least_squares_cg s_Cui narrow_X s_Y 1 1) <> narrow_X
  /\ (exists v, snd (calculate_loss s_Cui narrow_X s_Y 1) = inr v).
Proof.
  assert (Hne : forall M N : ndarray2 float,
            PrimFloat.eqb (nth 0 (row M 0) 0) (nth 0 (row N 0) 0) = false ->
            PrimFloat.eqb (nth 0 (row N 0) 0) (nth 0 (row N 0) 0) = true ->
            M <> N).
  { intros M N H1 H2 Heq. rewrite Heq in H1. congruence. }
  repeat split; try (vm_compute; reflexivity);
    try (apply Hne; vm_compute; reflexivity);
    try (eexists; vm_compute; reflexivity).
Qed.

(** C7, witness: user factors of width 3 against item factors of
    width 2. *)
Lemma width_mismatch_raises_broadcast_witness :
  least_squares reference_lapack s_Cui wide_X s_Y 1
  = (wide_X, Some ValueError_broadcast)
  /\ least_squares_cg s_Cui wide_X s_Y 1 3 = (wide_X, Some ValueError_broadcast)
  /\ (snd (calculate_loss s_Cui wide_X s_Y 1) = inl ZeroDivisionError
      \/ exists v, snd (calculate_loss s_Cui wide_X s_Y 1) = inr v).
Proof.
  apply width_mismatch_raises_broadcast; cbn; lia.
Defined.

End ShapeRuns.

(** * The loop over users of [least_squares] *)

Section DirectLoop.

Context {F : Type} {SF : Scalar F}.

Variable backend : lapack (F := F).

Lemma ndarray2_ext (M N : ndarray2 F) :
  shape1 M = shape1 N -> shape0 M = shape0 N ->
  (forall u, u < shape0 M -> row M u = row N u) -> M = N.
Proof.
  destruct M as [m rm], N as [n rn]. unfold shape0, row. cbn [shape1 rows].
  intros -> Hlen H. f_equal. now apply (nth_ext _ _ [] []).
Qed.

Variables (n : nat) (initialA : ndarray2 F) (initialB : list F)
          (Cui : csr_matrix F) (Y : ndarray2 F).

Let status (u : nat) : Z :=
  snd (ls_solve backend n (fst (ls_build n initialA initialB Cui Y u))
                (snd (ls_build n initialA initialB Cui Y u))).

Let solution (u : nat) : list F :=
  snd (fst (ls_solve backend n (fst (ls_build n initialA initialB Cui Y u))
                     (snd (ls_build n initialA initialB Cui Y u)))).

Let body := ls_user backend n initialA initialB Cui Y.

Lemma ls_user_status (X : ndarray2 F) (u : nat) :
  body X u =
  if (status u =? 0)%Z
  then (set_row u (memcpy n (solution u) (row X u)) X, None)
  else (X, Some (ValueError_singular (status u) u)).
Proof. unfold body. now rewrite ls_user_cases. Qed.

(** A run of the loop that returns: every task reported status 0 and wrote
    its row from the row as it was on entry to the loop. *)
Lemma ls_loop_returns (us : list nat) (X X' : ndarray2 F) :
  NoDup us -> (forall u, In u us -> u < shape0 X) ->
  prange_users body us X = (X', None) ->
  (forall u, In u us -> status u = 0%Z)
  /\ shape1 X' = shape1 X /\ shape0 X' = shape0 X
  /\ forall w, row X' w =
               if in_dec Nat.eq_dec w us
               then memcpy n (solution w) (row X w) else row X w.
Proof.
  revert X. induction us as [|u us IH]; intros X Hnd Hlt Hrun.
  - cbn in Hrun. injection Hrun as <-. repeat split; auto. intros u [].
  - cbn [prange_users] in Hrun. rewrite ls_user_status in Hrun.
    destruct (status u =? 0)%Z eqn:Hst; [|discriminate].
    apply Z.eqb_eq in Hst. inversion Hnd as [|? ? Hnin Hnd']; subst.
    apply IH in Hrun; [|assumption|].
    2:{ intros w Hw. rewrite shape0_set_row. apply Hlt. now right. }
    destruct Hrun as (Hall & H1 & H0 & Hrows).
    rewrite shape0_set_row in H0. split; [|split; [|split]]; auto.
    + intros w [<-|Hw]; auto.
    + intros w. rewrite Hrows.
      destruct (in_dec Nat.eq_dec w us) as [Hin|Hnin'];
        destruct (in_dec Nat.eq_dec w (u :: us)) as [Hin2|Hnin2].
      * rewrite row_set_row_other; [reflexivity|]. intros ->. contradiction.
      * exfalso. apply Hnin2. now right.
      * destruct Hin2 as [->|]; [|contradiction].
        apply row_set_row_same. apply Hlt. now left.
      * apply row_set_row_other. intros ->. apply Hnin2. now left.
Qed.





(** The exception of the loop, if any, is decided by the statuses alone. *)
Lemma ls_loop_exception (us : list nat) (X1 X2 : ndarray2 F) :
  snd (prange_users body us X1) = snd (prange_users body us X2).
Proof.
  revert X1 X2. induction us as [|u us IH]; intros X1 X2; [reflexivity|].
  cbn [prange_users]. rewrite !ls_user_status.
  destruct (status u =? 0)%Z; [apply IH|reflexivity].
Qed.

End DirectLoop.

Section DirectLoopTheorems.

Context {F : Type} {SF : Scalar F}.

Variable backend : lapack (F := F).

Lemma memcpy_full_row (n : nat) (src dst dst' : list F) :
  length dst = n -> length dst' = n -> memcpy n src dst = memcpy n src dst'.
Proof.
  intros H H'. unfold memcpy. now rewrite !skipn_all2 by lia.
Qed.

(** X1.  [least_squares] does not read the contents of X: on two
    rectangular arrays of the same shape it raises the same exception or
    none, and when it returns it has written the same array. *)
Theorem least_squares_ignores_previous_rows (Cui : csr_matrix F)
        (X1 X2 Y : ndarray2 F) (regularization : F) :
  shape0 X1 = shape0 X2 -> shape1 X1 = shape1 X2 ->
  rectangular X1 -> rectangular X2 ->
  snd (least_squares backend Cui X1 Y regularization)
  = snd (least_squares backend Cui X2 Y regularization)
  /\ (snd (least_squares backend Cui X1 Y regularization) = None ->
      fst (least_squares backend Cui X1 Y regularization)
      = fst (least_squares backend Cui X2 Y regularization)).
Proof.
  intros H0 H1 Hr1 Hr2. unfold least_squares. rewrite H0, H1.
  destruct (np_add _ _) as [e|initialA]; [split; [reflexivity|discriminate]|].
  set (n := shape1 X2).
  set (body := ls_user backend n initialA (np_zeros n) Cui Y).
  pose proof (ls_loop_exception backend n initialA (np_zeros n) Cui Y
                (seq 0 (shape0 X2)) X1 X2) as Hexn.
  fold body in Hexn. split; [exact Hexn|]. intros Hnone.
  rewrite Hnone in Hexn. symmetry in Hexn.
  destruct (prange_users body (seq 0 (shape0 X2)) X1) as [X1' r1] eqn:Hrun1.
  destruct (prange_users body (seq 0 (shape0 X2)) X2) as [X2' r2] eqn:Hrun2.
  cbn [fst snd] in *. subst r1 r2.
  apply ls_loop_returns in Hrun1; [|apply seq_NoDup|intros u Hu; apply in_seq in Hu; lia].
  apply ls_loop_returns in Hrun2; [|apply seq_NoDup|intros u Hu; apply in_seq in Hu; lia].
  destruct Hrun1 as (_ & Ha1 & Ha0 & Harows), Hrun2 as (_ & Hb1 & Hb0 & Hbrows).
  apply ndarray2_ext; [congruence|congruence|].
  intros w Hw. rewrite Harows, Hbrows.
  destruct (in_dec Nat.eq_dec w (seq 0 (shape0 X2))) as [Hin|Hnin].
  - apply memcpy_full_row.
    + rewrite row_length; auto. lia.
    + rewrite row_length; auto. lia.
  - exfalso. apply Hnin, in_seq. lia.
Qed.


End DirectLoopTheorems.

(** * The loop over users of [least_squares_cg] *)

Section CGLoop.

Context {F : Type} {SF : Scalar F}.

Variables (N : nat) (YtY : ndarray2 F) (Cui : csr_matrix F) (Y : ndarray2 F)
          (cg_steps : Z).

Lemma cg_iteration_agree (u : nat) (st1 st2 : cg_state (F := F)) :
  cg_agree u st1 st2 ->
  cg_agree u (cg_iteration N YtY Cui Y u st1) (cg_iteration N YtY Cui Y u st2).
Proof.
  intros (Hr & Hp & Hrs & Hrow & H1 & H2).
  unfold cg_agree, cg_iteration. cbv zeta. cbn [cg_X cg_r cg_p cg_rsold].
  rewrite !shape0_set_row, !row_set_row_same by assumption.
  rewrite Hr, Hp, Hrs, Hrow. repeat split; auto.
Qed.

Lemma cg_iterations_agree (u k : nat) (st1 st2 : cg_state (F := F)) :
  cg_agree u st1 st2 ->
  cg_agree u (Nat.iter k (cg_iteration N YtY Cui Y u) st1)
             (Nat.iter k (cg_iteration N YtY Cui Y u) st2).
Proof.
  intros H. induction k as [|k IH]; [exact H|].
  cbn [Nat.iter]. now apply cg_iteration_agree.
Qed.

Lemma cg_iterations_frame (u k : nat) (st : cg_state (F := F)) :
  let st' := Nat.iter k (cg_iteration N YtY Cui Y u) st in
  shape0 (cg_X st') = shape0 (cg_X st)
  /\ shape1 (cg_X st') = shape1 (cg_X st)
  /\ forall w, w <> u -> row (cg_X st') w = row (cg_X st) w.
Proof.
  cbv zeta. induction k as [|k (H0 & H1 & Hrows)]; [now repeat split|].
  rewrite !Nat.iter_succ.
  set (st' := Nat.iter k (cg_iteration N YtY Cui Y u) st) in *.
  unfold cg_iteration. cbv zeta. cbn [cg_X].
  rewrite shape0_set_row, shape1_set_row. repeat split; auto.
  intros w Hw. rewrite row_set_row_other by assumption. now apply Hrows.
Qed.

(** The task of user [u] writes row [u] only. *)
Lemma cg_user_frame (X : ndarray2 F) (u : nat) :
  shape0 (cg_user N YtY Cui Y cg_steps X u) = shape0 X
  /\ shape1 (cg_user N YtY Cui Y cg_steps X u) = shape1 X
  /\ forall w, w <> u -> row (cg_user N YtY Cui Y cg_steps X u) w = row X w.
Proof.
  unfold cg_user.
  exact (cg_iterations_frame u (Z.to_nat cg_steps) (cg_start N YtY Cui Y X u)).
Qed.

(** The task of user [u] reads row [u] only. *)
Lemma cg_user_local (X1 X2 : ndarray2 F) (u : nat) :
  row X1 u = row X2 u -> u < shape0 X1 -> u < shape0 X2 ->
  row (cg_user N YtY Cui Y cg_steps X1 u) u
  = row (cg_user N YtY Cui Y cg_steps X2 u) u.
Proof.
  intros Hrow H1 H2. unfold cg_user.
  apply (cg_iterations_agree u (Z.to_nat cg_steps)).
  unfold cg_agree, cg_start. cbv zeta. cbn [cg_X cg_r cg_p cg_rsold]. rewrite Hrow.
  repeat split; auto.
Qed.

Lemma cg_loop_rows (us : list nat) (X : ndarray2 F) :
  NoDup us -> (forall u, In u us -> u < shape0 X) ->
  let X' := fold_left (cg_user N YtY Cui Y cg_steps) us X in
  shape0 X' = shape0 X /\ shape1 X' = shape1 X
  /\ forall w, row X' w =
               if in_dec Nat.eq_dec w us
               then row (cg_user N YtY Cui Y cg_steps X w) w else row X w.
Proof.
  cbv zeta. revert X. induction us as [|u us IH]; intros X Hnd Hlt.
  - now repeat split.
  - cbn [fold_left]. inversion Hnd as [|? ? Hnin Hnd']; subst.
    destruct (cg_user_frame X u) as (Hu0 & Hu1 & Hurows).
    destruct (IH (cg_user N YtY Cui Y cg_steps X u) Hnd') as (H0 & H1 & Hrows).
    { intros w Hw. rewrite Hu0. apply Hlt. now right. }
    split; [congruence|]. split; [congruence|].
    intros w. rewrite Hrows.
    destruct (in_dec Nat.eq_dec w us) as [Hin|Hnin'];
      destruct (in_dec Nat.eq_dec w (u :: us)) as [Hin2|Hnin2].
    + assert (Hw : w <> u) by (intros ->; contradiction).
      apply cg_user_local.
      * now apply Hurows.
      * rewrite Hu0. apply Hlt. now right.
      * apply Hlt. now right.
    + exfalso. apply Hnin2. now right.
    + destruct Hin2 as [->|]; [reflexivity|contradiction].
    + apply Hurows. intros ->. apply Hnin2. now left.
Qed.

(** X3.  The tasks of the loop over users of [least_squares_cg] are
    independent: run in any order, each leaves in its row what it computes
    from X as it was on entry, and the array is the one the loop in index
    order leaves. *)
Theorem least_squares_cg_order_independent (X : ndarray2 F) (us : list nat) :
  Permutation (seq 0 (shape0 X)) us ->
  fold_left (cg_user N YtY Cui Y cg_steps) us X
  = fold_left (cg_user N YtY Cui Y cg_steps) (seq 0 (shape0 X)) X
  /\ forall u, u < shape0 X ->
       row (fold_left (cg_user N YtY Cui Y cg_steps) us X) u
       = row (cg_user N YtY Cui Y cg_steps X u) u.
Proof.
  intros Hperm.
  assert (Hnd : NoDup us) by (apply (Permutation_NoDup Hperm), seq_NoDup).
  assert (Hlt : forall u, In u us -> u < shape0 X).
  { intros u Hu. apply (Permutation_in _ (Permutation_sym Hperm)) in Hu.
    apply in_seq in Hu. lia. }
  destruct (cg_loop_rows us X Hnd Hlt) as (H0 & H1 & Hrows).
  destruct (cg_loop_rows (seq 0 (shape0 X)) X) as (H0' & H1' & Hrows').
  { apply seq_NoDup. }
  { intros u Hu. apply in_seq in Hu. lia. }
  assert (Hin : forall u, u < shape0 X -> In u us).
  { intros u Hu. apply (Permutation_in _ Hperm), in_seq. lia. }
  split.
  - apply ndarray2_ext; [congruence|congruence|].
    intros w Hw. rewrite H0 in Hw. rewrite Hrows, Hrows'.
    destruct (in_dec Nat.eq_dec w us) as [|Hn]; [|now destruct Hn; auto].
    destruct (in_dec Nat.eq_dec w (seq 0 (shape0 X))) as [|Hn]; [reflexivity|].
    exfalso. apply Hn, in_seq. lia.
  - intros u Hu. rewrite Hrows.
    destruct (in_dec Nat.eq_dec u us) as [|Hn]; [reflexivity|].
    exfalso. auto.
Qed.

End CGLoop.

(** * The ways out of the three entry points *)

Section Exits.

Context {F : Type} {SF : Scalar F}.

Variable backend : lapack (F := F).

(** The preamble's sum raises exactly when the widths do not broadcast. *)
Lemma preamble_sum (Y : ndarray2 F) (regularization : F) (n : nat) :
  match np_add (np_dot (np_transpose Y) Y) (np_scale regularization (np_eye n)) with
  | inl e => e = ValueError_broadcast /\ bcast_dim (shape1 Y) n = None
  | inr _ => bcast_dim (shape1 Y) n <> None
  end.
Proof.
  unfold np_add.
  rewrite shape0_gram, shape1_gram, shape0_scaled_eye, shape1_scaled_eye.
  destruct (bcast_dim (shape1 Y) n); [discriminate|now split].
Qed.


(** X5.  The only exception [least_squares_cg] raises is numpy's
    broadcasting error, and it raises it exactly when the widths of Y and X
    do not broadcast: nothing in the function checks the confidence matrix
    or [cg_steps].  When it raises, X is as it was; in both cases X keeps
    its shape. *)
Theorem least_squares_cg_returns_iff (Cui : csr_matrix F) (X Y : ndarray2 F)
        (regularization : F) (cg_steps : Z) :
  (snd (least_squares_cg Cui X Y regularization cg_steps) = None
   <-> bcast_dim (shape1 Y) (shape1 X) <> None)
  /\ (forall e, snd (least_squares_cg Cui X Y regularization cg_steps) = Some e ->
        e = ValueError_broadcast
        /\ fst (least_squares_cg Cui X Y regularization cg_steps) = X)
  /\ shape0 (fst (least_squares_cg Cui X Y regularization cg_steps)) = shape0 X
  /\ shape1 (fst (least_squares_cg Cui X Y regularization cg_steps)) = shape1 X.
Proof.
  unfold least_squares_cg.
  pose proof (preamble_sum Y regularization (shape1 X)) as Hsum.
  destruct (np_add _ _) as [e|YtY]; cbn [fst snd].
  - destruct Hsum as [-> Hnone]. repeat split; congruence.
  - split; [split; auto|]. split; [discriminate|].
    destruct (cg_loop_rows (shape1 X) YtY Cui Y cg_steps (seq 0 (shape0 X)) X)
      as (H0 & H1 & _); auto using seq_NoDup.
    intros u Hu. apply in_seq in Hu. lia.
Qed.

(** The sum of the stored confidences as the loops accumulate it. *)
Lemma loss_entries_total (N : nat) (Cui : csr_matrix F) (u : nat)
      (idxs : list nat) (sr : loss_state * list F) :
  lo_total_confidence (fst (fold_left (loss_entry N Cui u) idxs sr))
  = fold_left (fun t index => t +! nth index (data Cui) fzero) idxs
              (lo_total_confidence (fst sr)).
Proof.
  revert sr. induction idxs as [|index idxs IH]; intros [st r]; [reflexivity|].
  cbn [fold_left]. rewrite IH. reflexivity.
Qed.

Lemma loss_user_total (N : nat) (YtY : ndarray2 F) (Cui : csr_matrix F)
      (st : loss_state) (u : nat) :
  lo_total_confidence (loss_user N YtY Cui st u)
  = fold_left (fun t index => t +! nth index (data Cui) fzero)
              (range (nth u (indptr Cui) 0) (nth (u + 1) (indptr Cui) 0))
              (lo_total_confidence st).
Proof.
  unfold loss_user.
  pose proof (loss_entries_total N Cui u
                (range (nth u (indptr Cui) 0) (nth (u + 1) (indptr Cui) 0))
                (st, symv N fone (flat YtY) (row (lo_X st) u))) as H.
  destruct (fold_left _ _ _) as [st' r']. cbn [fst lo_total_confidence] in *.
  exact H.
Qed.

Lemma loss_users_total (N N' : nat) (YtY YtY' : ndarray2 F) (Cui : csr_matrix F)
      (us : list nat) (st st' : loss_state) :
  lo_total_confidence st = lo_total_confidence st' ->
  lo_total_confidence (fold_left (loss_user N YtY Cui) us st)
  = lo_total_confidence (fold_left (loss_user N' YtY' Cui) us st').
Proof.
  revert st st'. induction us as [|u us IH]; intros st st' H; [exact H|].
  cbn [fold_left]. apply IH. rewrite !loss_user_total. now rewrite H.
Qed.

Lemma loss_items_total (N : nat) (js : list nat) (st : loss_state) :
  lo_total_confidence (fold_left (loss_item N) js st) = lo_total_confidence st.
Proof.
  revert st. induction js as [|i js IH]; intros st; [reflexivity|].
  cbn [fold_left]. now rewrite IH.
Qed.

(** X6.  The divisor of line 239, and with it whether [calculate_loss]
    raises the division error, depends on the confidence matrix and on the
    number of users only: not on the factors, their width, the items or
    the regularization. *)
Theorem calculate_loss_divisor_independent (Cui : csr_matrix F)
        (X1 Y1 X2 Y2 : ndarray2 F) (reg1 reg2 : F) :
  shape0 X1 = shape0 X2 ->
  loss_divisor Cui (fst (calculate_loss Cui X1 Y1 reg1))
  = loss_divisor Cui (fst (calculate_loss Cui X2 Y2 reg2))
  /\ (snd (calculate_loss Cui X1 Y1 reg1) = inl ZeroDivisionError
      <-> snd (calculate_loss Cui X2 Y2 reg2) = inl ZeroDivisionError).
Proof.
  intros H0.
  assert (Hdiv : loss_divisor Cui (loss_loops Cui X1 Y1)
                 = loss_divisor Cui (loss_loops Cui X2 Y2)).
  { unfold loss_divisor, loss_loops. rewrite !loss_items_total, H0.
    f_equal. f_equal. now apply loss_users_total. }
  unfold calculate_loss. cbn [fst snd]. split; [exact Hdiv|].
  rewrite Hdiv. destruct (feqb _ _); split; auto; discriminate.
Qed.

End Exits.

(** * The residual of [least_squares_cg] *)

Section RealResidual.

Local Open Scope R_scope.

Lemma nth_vec (n : nat) (f : nat -> R) (k : nat) :
  (k < n)%nat -> nth k (vec n f) 0 = f k.
Proof. intros Hk. unfold vec. now rewrite nth_map_seq. Qed.

(** A (x + alpha p) = A x + alpha A p, coordinate by coordinate. *)
Lemma mat_vec_axpy (n : nat) (M : nat -> nat -> R) (alpha : R) (x p : list R)
      (j : nat) :
  (j < n)%nat ->
  nth j (mat_vec n M (vec n (fun k => nth k x 0 + alpha * nth k p 0))) 0
  = nth j (mat_vec n M x) 0 + alpha * nth j (mat_vec n M p) 0.
Proof.
  intros Hj. rewrite !nth_mat_vec by assumption.
  rewrite <- fsum_scale, <- fsum_add. apply fsum_ext.
  intros k Hk. apply in_seq in Hk. rewrite nth_vec by lia. ring.
Qed.

(** The recurrence keeps r = b - A x and rsold = r . r. *)
Lemma cg_step_residual (n : nat) (M : nat -> nat -> R) (b : nat -> R)
      (x0 : list R) (k : nat) :
  let v := Nat.iter k (cg_step n M) (cg_init n M b x0) in
  sv_r v = vec n (fun j => b j - nth j (mat_vec n M (sv_x v)) 0)
  /\ sv_rsold v = vdot n (sv_r v) (sv_r v).
Proof.
  cbv zeta. induction k as [|k [IHr IHs]].
  - cbn [Nat.iter nat_rect]. unfold cg_init. cbn [sv_x sv_r sv_rsold]. now split.
  - rewrite Nat.iter_succ.
    set (v := Nat.iter k (cg_step n M) (cg_init n M b x0)) in *.
    unfold cg_step. cbv zeta. cbn [sv_x sv_r sv_rsold]. split; [|reflexivity].
    rsc. apply vec_eq; [apply length_vec|]. intros j Hj.
    rewrite nth_vec by assumption. rewrite mat_vec_axpy by assumption.
    rewrite IHr at 1. rewrite nth_vec by assumption. ring.
Qed.

Lemma vdot_self_zero (n : nat) (r : list R) (j : nat) :
  vdot n r r = 0 -> (j < n)%nat -> nth j r 0 = 0.
Proof.
  intros Hz Hj. destruct (Req_dec (nth j r 0) 0) as [|Hne]; [assumption|].
  exfalso. assert (0 < vdot n r r); [|lra].
  apply vdot_self_pos. now exists j.
Qed.

(** X7.  In exact arithmetic, on a well-formed input, the scratch vector r
    of [least_squares_cg] is the residual b - A x of the row it is
    improving, on entry to the iteration and after every turn, and rsold is
    its squared norm; when rsold is 0 the row solves the normal equations
    of the user. *)
Theorem least_squares_cg_residual (Cui : csr_matrix R) (X Y : ndarray2 R)
        (regularization : R) :
  wf_input Cui X Y ->
  exists YtY,
    np_add (np_dot (np_transpose Y) Y)
           (np_scale regularization (np_eye (shape1 X))) = inr YtY
    /\ forall u k, (u < shape0 X)%nat ->
         let n := shape1 X in
         let A := normal_matrix Cui Y regularization u in
         let b := normal_rhs Cui Y u in
         let st := Nat.iter k (cg_iteration n YtY Cui Y u)
                            (cg_start n YtY Cui Y X u) in
         cg_r st = vec n (fun j => b j - nth j (mat_vec n A (row (cg_X st) u)) 0)
         /\ cg_rsold st = vdot n (cg_r st) (cg_r st)
         /\ (cg_rsold st = 0 -> solves n A (row (cg_X st) u) b).
Proof.
  intros Hwf.
  destruct (initialA_spec Y regularization (shape1 X) (wf_width _ _ _ Hwf))
    as (YtY & Hadd & _ & _ & Hall & Hentries).
  exists YtY. split; [exact Hadd|]. intros u k Hu.
  cbv zeta. set (n := shape1 X) in *.
  assert (Hlen : length (row X u) = n).
  { apply row_length; [apply (wf_X _ _ _ Hwf)|assumption]. }
  destruct (cg_iterations_hold Cui Y regularization n u YtY X Hall Hentries Hu k Hlen)
    as (HX & Hr & _ & Hrs & Lx & _).
  destruct (cg_step_residual n (normal_matrix Cui Y regularization u)
              (normal_rhs Cui Y u) (row X u) k) as [Hres Hnorm].
  cbv zeta in Hres, Hnorm.
  set (st := Nat.iter k (cg_iteration n YtY Cui Y u) (cg_start n YtY Cui Y X u)) in *.
  set (v := Nat.iter k (cg_step n (normal_matrix Cui Y regularization u))
                     (cg_init n (normal_matrix Cui Y regularization u)
                              (normal_rhs Cui Y u) (row X u))) in *.
  assert (Hrow : row (cg_X st) u = sv_x v).
  { rewrite HX. now apply row_set_row_same. }
  rewrite Hrow, Hr, Hrs. split; [exact Hres|]. split; [exact Hnorm|].
  intros Hz. split; [assumption|]. intros j Hj.
  rewrite Hnorm in Hz. pose proof (vdot_self_zero n (sv_r v) j Hz Hj) as Hrj.
  rewrite Hres, nth_vec in Hrj by assumption. lra.
Qed.

End RealResidual.

Section RealLossOrder.

Local Open Scope R_scope.

Lemma fsum_permutation {A} (f : A -> R) (l l' : list A) :
  Permutation l l' -> fsum f l = fsum f l'.
Proof.
  induction 1 as [|a l l' _ IH|a a' l|l l' l'' _ IH1 _ IH2].
  - reflexivity.
  - now rewrite !fsum_cons, IH.
  - rewrite !fsum_cons. lra.
  - congruence.
Qed.

Lemma loss_state_ext (s t : loss_state (F := R)) :
  lo_X s = lo_X t -> lo_Y s = lo_Y t -> lo_loss s = lo_loss t ->
  lo_total_confidence s = lo_total_confidence t ->
  lo_item_norm s = lo_item_norm t -> lo_user_norm s = lo_user_norm t ->
  s = t.
Proof. destruct s, t. cbn. congruence. Qed.

(** The loop over users, for any list of users. *)
Lemma loss_users_any_R (Cui : csr_matrix R) (X Y : ndarray2 R) (us : list nat)
      (st : loss_state) :
  shape1 Y = shape1 X -> lo_X st = X -> lo_Y st = Y ->
  let st' := fold_left (loss_user (shape1 X) (np_dot (np_transpose Y) Y) Cui)
                       us st in
  lo_X st' = X /\ lo_Y st' = Y
  /\ lo_loss st' =
     lo_loss st
     + fsum (fun u => user_term Cui X Y u + fsum snd (observed Cui u)) us
  /\ lo_total_confidence st' =
     lo_total_confidence st + fsum (fun u => fsum snd (observed Cui u)) us
  /\ lo_item_norm st' = lo_item_norm st
  /\ lo_user_norm st' =
     lo_user_norm st + fsum (fun u => vdot (shape1 X) (row X u) (row X u)) us.
Proof.
  intros HY. cbv zeta. revert st.
  induction us as [|u us IH]; intros st HX HYs.
  - cbn [fold_left]. rewrite !fsum_nil. repeat split; auto; lra.
  - cbn [fold_left].
    destruct (loss_user_R Cui X Y u st HY HX HYs) as (HX' & HY' & Hl & Ht & Hi & Hn).
    destruct (IH _ HX' HY') as (HX'' & HY'' & Hl' & Ht' & Hi' & Hn').
    rewrite !fsum_cons. repeat split; auto; try congruence; lra.
Qed.

(** X8.  In exact arithmetic the loop over users of [calculate_loss]
    leaves the same accumulators whatever the order in which the users are
    visited. *)
Theorem calculate_loss_user_order (Cui : csr_matrix R) (X Y : ndarray2 R)
        (us us' : list nat) (st : loss_state) :
  shape1 Y = shape1 X -> lo_X st = X -> lo_Y st = Y ->
  Permutation us us' ->
  fold_left (loss_user (shape1 X) (np_dot (np_transpose Y) Y) Cui) us st
  = fold_left (loss_user (shape1 X) (np_dot (np_transpose Y) Y) Cui) us' st.
Proof.
  intros HY HX HYs Hperm.
  destruct (loss_users_any_R Cui X Y us st HY HX HYs)
    as (H1 & H2 & H3 & H4 & H5 & H6).
  destruct (loss_users_any_R Cui X Y us' st HY HX HYs)
    as (H1' & H2' & H3' & H4' & H5' & H6').
  apply loss_state_ext; try congruence.
  - rewrite H3, H3'. f_equal. now apply fsum_permutation.
  - rewrite H4, H4'. f_equal. now apply fsum_permutation.
  - rewrite H6, H6'. f_equal. now apply fsum_permutation.
Qed.

End RealLossOrder.

Section RealSolvedRow.

Local Open Scope R_scope.

(** X9.  In exact arithmetic, on a well-formed input, a user whose row of
    X already solves its normal equations meets a zero divisor at the first
    iteration of [least_squares_cg]: r0 = 0, so rsold = 0 and p . Ap = 0,
    and nothing stands before the division. *)
Theorem least_squares_cg_solved_row_zero_divisor (Cui : csr_matrix R)
        (X Y : ndarray2 R) (regularization : R) (u : nat) :
  wf_input Cui X Y -> (u < shape0 X)%nat ->
  solves (shape1 X) (normal_matrix Cui Y regularization u) (row X u)
         (normal_rhs Cui Y u) ->
  exists YtY,
    np_add (np_dot (np_transpose Y) Y)
           (np_scale regularization (np_eye (shape1 X))) = inr YtY
    /\ let st := cg_start (shape1 X) YtY Cui Y X u in
       cg_rsold st = 0
       /\ dot (shape1 X) (cg_p st) (cg_Ap (shape1 X) YtY Cui Y u (cg_p st)) = 0.
Proof.
  intros Hwf Hu [Hlen Hsol].
  destruct (initialA_spec Y regularization (shape1 X) (wf_width _ _ _ Hwf))
    as (YtY & Hadd & _ & _ & Hall & Hentries).
  exists YtY. split; [exact Hadd|]. cbv zeta. set (n := shape1 X) in *.
  destruct (cg_start_holds Cui Y regularization n u YtY X Hall Hentries Hu Hlen)
    as (_ & Hr & Hp & Hrs & _).
  assert (Hr0 : forall k, (k < n)%nat ->
            nth k (sv_r (cg_init n (normal_matrix Cui Y regularization u)
                                 (normal_rhs Cui Y u) (row X u))) 0 = 0).
  { intros k Hk. unfold cg_init. cbn [sv_r]. rewrite nth_vec by assumption.
    rsc. rewrite Hsol by assumption. ring. }
  assert (Hdot0 : forall x y, (forall k, (k < n)%nat -> nth k x 0 = 0) ->
                              vdot n x y = 0).
  { intros x y Hx0. unfold vdot.
    rewrite (fsum_ext _ (fun _ => 0)); [apply fsum_zero|].
    intros k Hk. apply in_seq in Hk. rsc. rewrite Hx0 by lia. ring. }
  split.
  - rewrite Hrs. unfold cg_init. cbn [sv_rsold]. now apply Hdot0.
  - rewrite dot_vdot. apply Hdot0. intros k Hk. rewrite Hp.
    unfold cg_init. cbn [sv_p]. now apply Hr0.
Qed.

End RealSolvedRow.

(** * The objective behind [calculate_loss] *)

Section RealObjective.

Local Open Scope R_scope.

Lemma vdot_comm (n : nat) (x y : list R) : vdot n x y = vdot n y x.
Proof. unfold vdot. apply fsum_ext. intros k _. rsc. ring. Qed.

Lemma vdot_vec_l (n : nat) (f : nat -> R) (x : list R) :
  vdot n (vec n f) x = fsum (fun j => f j * nth j x 0) (seq 0 n).
Proof.
  unfold vdot. apply fsum_ext. intros j Hj. apply in_seq in Hj. rsc.
  rewrite nth_vec by lia. reflexivity.
Qed.

(** x^t (YtY) x is the sum over the items of (y . x)^2. *)
Lemma quad_form_gram (Y : ndarray2 R) (n : nat) (x : list R) :
  quad_form n (gram Y) x = fsum (fun y => vdot n y x * vdot n y x) (rows Y).
Proof.
  rewrite (fsum_ext (fun y => vdot n y x * vdot n y x)
                    (fun y => 1 * (vdot n y x * vdot n y x)))
    by (intros; ring).
  rewrite <- (quad_form_outer (rows Y) (fun _ => 1) (fun y => y)).
  apply quad_form_ext. intros j k _ _. unfold gram.
  apply fsum_ext. intros y _. rsc. ring.
Qed.

(** The per-user term of lines 215-230, with the confidences added by
    line 227, as a sum over the items and a sum over the stored entries. *)
Lemma user_term_sums (Cui : csr_matrix R) (X Y : ndarray2 R) (u : nat) :
  let n := shape1 X in
  let d := fun y : list R => vdot n y (row X u) in
  user_term Cui X Y u + fsum snd (observed Cui u) =
  fsum (fun y => d y * d y) (rows Y)
  + fsum (fun ic => snd ic * ((1 - d (row Y (fst ic))) * (1 - d (row Y (fst ic))))
                    - d (row Y (fst ic)) * d (row Y (fst ic)))
         (observed Cui u).
Proof.
  cbv zeta. unfold user_term. set (n := shape1 X). set (x := row X u).
  rewrite vdot_vec_l. rsc.
  rewrite (fsum_ext _
    (fun j => nth j x 0 * nth j (mat_vec n (gram Y) x) 0
              + fsum (fun ic => ((snd ic - 1) * vdot n (row Y (fst ic)) x
                                 - 2 * snd ic)
                                * (nth j (row Y (fst ic)) 0 * nth j x 0))
                     (observed Cui u))).
  2:{ intros j _. rewrite Rmult_plus_distr_r. f_equal; [ring|].
      rewrite Rmult_comm, <- fsum_scale. apply fsum_ext. intros ic _. ring. }
  rewrite fsum_add.
  change (fsum (fun j => nth j x 0 * nth j (mat_vec n (gram Y) x) 0) (seq 0 n))
    with (quad_form n (gram Y) x).
  rewrite quad_form_gram, fsum_swap, Rplus_assoc. f_equal.
  rewrite <- fsum_add. apply fsum_ext. intros ic _.
  rewrite fsum_scale.
  change (fsum (fun a => nth a (row Y (fst ic)) 0 * nth a x 0) (seq 0 n))
    with (vdot n (row Y (fst ic)) x).
  ring.
Qed.

(** A sum over the entries of an association list without repeated keys is
    a sum over the range of the keys. *)
Lemma fsum_assoc (l : list (nat * R)) (m : nat) (h : nat -> R -> R) :
  NoDup (map fst l) -> (forall ic, In ic l -> (fst ic < m)%nat) ->
  fsum (fun ic => h (fst ic) (snd ic)) l =
  fsum (fun i => match option_map snd (find (fun ic => fst ic =? i) l) with
                 | Some c => h i c
                 | None => 0
                 end) (seq 0 m).
Proof.
  induction l as [|[k c] l IH]; intros Hnd Hlt.
  - cbn [find option_map]. now rewrite fsum_nil, fsum_zero.
  - cbn [map fst] in Hnd. inversion Hnd as [|? ? Hnin Hnd']; subst.
    rewrite fsum_cons, IH; [|assumption|intros ic Hic; apply Hlt; now right].
    cbn [fst snd].
    assert (Hk : (k < m)%nat) by (apply (Hlt (k, c)); now left).
    rewrite <- (fsum_delta (fun i => h i c) 0 m k) by lia.
    rewrite <- fsum_add. apply fsum_ext. intros i _.
    cbn [find fst]. destruct (Nat.eqb_spec k i) as [->|Hne].
    + cbn [option_map snd].
      destruct (find (fun ic => fst ic =? i) l) as [[i' c']|] eqn:Hfind.
      * exfalso. apply find_some in Hfind. destruct Hfind as [Hin Heq].
        cbn [fst] in Heq. apply Nat.eqb_eq in Heq. subst i'.
        apply Hnin. apply in_map_iff. now exists (i, c').
      * cbn [option_map]. ring.
    + ring.
Qed.

(** The cells of a row, as a sum over the items and a sum over the stored
    entries. *)
Lemma cells_sums (Cui : csr_matrix R) (X Y : ndarray2 R) (u n : nat)
      (x : list R) :
  wf_input Cui X Y -> canonical Cui (shape0 X) -> (u < shape0 X)%nat ->
  fsum (cell_error Cui Y n u x) (seq 0 (shape0 Y)) =
  fsum (fun y => vdot n y x * vdot n y x) (rows Y)
  + fsum (fun ic => snd ic * ((1 - vdot n (row Y (fst ic)) x)
                              * (1 - vdot n (row Y (fst ic)) x))
                    - vdot n (row Y (fst ic)) x * vdot n (row Y (fst ic)) x)
         (observed Cui u).
Proof.
  intros Hwf Hcan Hu.
  rewrite <- (fsum_seq_nth (fun y => vdot n y x * vdot n y x) (rows Y) []).
  fold (shape0 Y).
  rewrite (fsum_assoc (observed Cui u) (shape0 Y)
             (fun i c => c * ((1 - vdot n (row Y i) x) * (1 - vdot n (row Y i) x))
                         - vdot n (row Y i) x * vdot n (row Y i) x)).
  2:{ now apply Hcan. }
  2:{ intros ic Hic. now apply (observed_item_range Cui X Y u ic Hwf Hu). }
  rewrite <- fsum_add. apply fsum_ext. intros i _.
  unfold cell_error, stored. cbv zeta. fold (row Y i).
  destruct (option_map snd (find (fun ic => fst ic =? i) (observed Cui u))); rsc; ring.
Qed.

(** The per-user term, with the confidences added by line 227, is the sum
    of the weighted squared errors of the cells of the user's row. *)
Lemma user_term_cells (Cui : csr_matrix R) (X Y : ndarray2 R) (u : nat) :
  wf_input Cui X Y -> canonical Cui (shape0 X) -> (u < shape0 X)%nat ->
  user_term Cui X Y u + fsum snd (observed Cui u) =
  fsum (cell_error Cui Y (shape1 X) u (row X u)) (seq 0 (shape0 Y)).
Proof.
  intros Hwf Hcan Hu. rewrite user_term_sums. cbv zeta.
  symmetry. now apply (cells_sums Cui X Y).
Qed.

(** The numerator of line 238-239 is the objective. *)
Lemma loss_numerator_objective (Cui : csr_matrix R) (X Y : ndarray2 R)
      (regularization : R) :
  wf_input Cui X Y -> canonical Cui (shape0 X) ->
  sum_user_terms Cui X Y + total_confidence Cui
  + regularization * (sum_sq_norms (shape1 X) X + sum_sq_norms (shape1 X) Y)
  = als_objective Cui X Y regularization.
Proof.
  intros Hwf Hcan. unfold als_objective, user_cost, sum_user_terms. rsc.
  rewrite <- (total_confidence_rows Cui X Y Hwf).
  rewrite fsum_add, fsum_scale.
  unfold sum_sq_norms at 1.
  rewrite <- (fsum_seq_nth (fun r => vdot (shape1 X) r r) (rows X) []).
  fold (shape0 X).
  change (fun t => vdot (shape1 X) (nth t (rows X) []) (nth t (rows X) []))
    with (fun t => vdot (shape1 X) (row X t) (row X t)).
  rewrite <- fsum_add.
  rewrite (fsum_ext _ (fun u => fsum (cell_error Cui Y (shape1 X) u (row X u))
                                     (seq 0 (shape0 Y)))).
  2:{ intros u Hu. apply in_seq in Hu. apply user_term_cells; auto; lia. }
  ring.
Qed.

(** What [calculate_loss] does on a well-formed input with one stored value
    per cell. *)
Lemma calculate_loss_quotient (Cui : csr_matrix R) (X Y : ndarray2 R)
      (regularization : R) :
  wf_input Cui X Y -> canonical Cui (shape0 X) ->
  snd (calculate_loss Cui X Y regularization) =
  if Req_dec_T (loss_denominator Cui X Y) 0
  then inl ZeroDivisionError
  else inr (als_objective Cui X Y regularization / loss_denominator Cui X Y).
Proof.
  intros Hwf Hcan. rewrite (calculate_loss_R Cui X Y regularization Hwf).
  destruct (Req_dec_T (loss_denominator Cui X Y) 0); [reflexivity|].
  unfold loss_with_constant. rsc.
  now rewrite loss_numerator_objective.
Qed.

(** X10.  On a well-formed input with one stored value per cell whose
    denominator is not zero, [calculate_loss] returns the objective of
    implicit-feedback ALS, the sum over all cells (u, i) of
    confidence * (preference - xu . yi)^2 plus regularization * (sum |xu|^2
    + sum |yi|^2), divided by total_confidence + users * items - nnz. *)
Theorem calculate_loss_objective (Cui : csr_matrix R) (X Y : ndarray2 R)
        (regularization : R) :
  wf_input Cui X Y -> canonical Cui (shape0 X) ->
  loss_denominator Cui X Y <> 0 ->
  snd (calculate_loss Cui X Y regularization)
  = inr (als_objective Cui X Y regularization / loss_denominator Cui X Y).
Proof.
  intros Hwf Hcan Hden. rewrite (calculate_loss_quotient Cui X Y regularization Hwf Hcan).
  destruct (Req_dec_T (loss_denominator Cui X Y) 0); [contradiction|reflexivity].
Qed.

End RealObjective.

Section WellFormedCounts.

Context {F : Type} {SF : Scalar F}.

Lemma length_observed (Cui : csr_matrix F) (u : nat) :
  length (observed Cui u) = nth (u + 1) (indptr Cui) 0 - nth u (indptr Cui) 0.
Proof. unfold observed, range. now rewrite length_map, length_seq. Qed.

(** With one stored value per cell, a row stores at most [items] values. *)
Lemma observed_at_most_items (Cui : csr_matrix F) (X Y : ndarray2 F) (u : nat) :
  wf_input Cui X Y -> canonical Cui (shape0 X) -> u < shape0 X ->
  length (observed Cui u) <= shape0 Y.
Proof.
  intros Hwf Hcan Hu.
  rewrite <- (length_map fst (observed Cui u)).
  transitivity (length (seq 0 (shape0 Y))); [|now rewrite length_seq].
  apply NoDup_incl_length; [now apply Hcan|].
  intros i Hi. apply in_map_iff in Hi. destruct Hi as (ic & <- & Hic).
  apply in_seq. split; [lia|].
  now apply (observed_item_range Cui X Y u ic Hwf Hu).
Qed.

Lemma nnz_at_most_cells (Cui : csr_matrix F) (X Y : ndarray2 F) :
  wf_input Cui X Y -> canonical Cui (shape0 X) ->
  nnz Cui <= shape0 X * shape0 Y.
Proof.
  intros Hwf Hcan. rewrite <- (wf_indptr_last _ _ _ Hwf).
  assert (H : forall u, u <= shape0 X -> nth u (indptr Cui) 0 <= u * shape0 Y).
  { induction u as [|u IH]; intros Hu.
    - rewrite (wf_indptr_first _ _ _ Hwf). lia.
    - pose proof (observed_at_most_items Cui X Y u Hwf Hcan ltac:(lia)) as Hlen.
      rewrite length_observed in Hlen.
      pose proof (wf_indptr_mono _ _ _ Hwf u ltac:(lia)) as Hmono.
      replace (S u) with (u + 1) by lia. specialize (IH ltac:(lia)). nia. }
  now apply H.
Qed.

End WellFormedCounts.

Section RealLossSign.

Local Open Scope R_scope.


Lemma total_confidence_nonneg (Cui : csr_matrix R) :
  nonneg_confidence Cui -> 0 <= total_confidence Cui.
Proof.
  intros Hnn. unfold total_confidence. apply fsum_nonneg.
  unfold nonneg_confidence in Hnn. now rewrite Forall_forall in Hnn.
Qed.

Lemma cells_minus_nnz (Cui : csr_matrix R) (X Y : ndarray2 R) :
  wf_input Cui X Y -> canonical Cui (shape0 X) ->
  IZR (Z.of_nat (nnz Cui)) <= IZR (Z.of_nat (shape0 X) * Z.of_nat (shape0 Y)).
Proof.
  intros Hwf Hcan. apply IZR_le. rewrite <- Nat2Z.inj_mul. apply Nat2Z.inj_le.
  now apply (nnz_at_most_cells Cui X Y).
Qed.

Lemma loss_denominator_nonneg (Cui : csr_matrix R) (X Y : ndarray2 R) :
  wf_input Cui X Y -> canonical Cui (shape0 X) -> nonneg_confidence Cui ->
  0 <= loss_denominator Cui X Y.
Proof.
  intros Hwf Hcan Hnn. unfold loss_denominator. rsc.
  pose proof (total_confidence_nonneg Cui Hnn).
  pose proof (cells_minus_nnz Cui X Y Hwf Hcan). lra.
Qed.








End RealLossSign.

(** * [least_squares] minimises the objective, user by user *)

Section RealMinimum.

Local Open Scope R_scope.

Lemma zero_or_nonzero (n : nat) (z : list R) :
  (forall k, (k < n)%nat -> nth k z 0 = 0)
  \/ exists k, (k < n)%nat /\ nth k z 0 <> 0.
Proof.
  induction n as [|n [IH|(k & Hk & Hnz)]].
  - left. intros k Hk. lia.
  - destruct (Req_dec (nth n z 0) 0) as [Hz|Hnz].
    + left. intros k Hk. destruct (Nat.eq_dec k n) as [->|]; [assumption|].
      apply IH. lia.
    + right. exists n. split; [lia|assumption].
  - right. exists k. split; [lia|assumption].
Qed.


(** x^t M y = y^t M x for a symmetric M. *)
Lemma bilinear_symmetric (n : nat) (M : nat -> nat -> R) (x y : list R) :
  symmetric n M ->
  vdot n x (mat_vec n M y) = vdot n y (mat_vec n M x).
Proof.
  intros Hsym. unfold vdot.
  rewrite (fsum_ext _ (fun j => fsum (fun k => nth j x 0 * M j k * nth k y 0)
                                     (seq 0 n))).
  2:{ intros j Hj. apply in_seq in Hj. rsc. rewrite nth_mat_vec by lia.
      rewrite <- fsum_scale. apply fsum_ext. intros k _. ring. }
  rewrite fsum_swap. apply fsum_ext. intros k Hk. apply in_seq in Hk. rsc.
  rewrite nth_mat_vec by lia. rewrite <- fsum_scale.
  apply fsum_ext. intros j Hj. apply in_seq in Hj.
  rewrite (Hsym j k) by lia. ring.
Qed.

Lemma vdot_vec_r (n : nat) (f : nat -> R) (x : list R) :
  vdot n x (vec n f) = fsum (fun j => nth j x 0 * f j) (seq 0 n).
Proof.
  unfold vdot. apply fsum_ext. intros j Hj. apply in_seq in Hj. rsc.
  rewrite nth_vec by lia. reflexivity.
Qed.


Section User.

Variables (Cui : csr_matrix R) (X Y : ndarray2 R) (regularization : R) (u : nat).

Hypothesis Hwf : wf_input Cui X Y.
Hypothesis Hcan : canonical Cui (shape0 X).
Hypothesis Hu : (u < shape0 X)%nat.

Let n := shape1 X.

(** The part of the objective that depends on the factors of user [u] is
    x^t A x - 2 b . x + the user's stored confidences. *)
Lemma user_cost_quadratic (x : list R) :
  user_cost Cui Y regularization n u x =
  quad_form n (normal_matrix Cui Y regularization u) x
  - 2 * vdot n x (vec n (normal_rhs Cui Y u))
  + fsum snd (observed Cui u).
Proof.
  unfold user_cost. rsc.
  rewrite (cells_sums Cui X Y u n x Hwf Hcan Hu), normal_matrix_quad, vdot_vec_r.
  unfold normal_rhs. rsc.
  rewrite (fsum_ext (fun j => nth j x 0 * fsum _ (observed Cui u))
             (fun j => fsum (fun ic => snd ic * (nth j (row Y (fst ic)) 0 * nth j x 0))
                            (observed Cui u))).
  2:{ intros j _. rewrite <- fsum_scale. apply fsum_ext. intros ic _. ring. }
  rewrite fsum_swap.
  rewrite (fsum_ext (fun ic => fsum _ (seq 0 n))
                    (fun ic => snd ic * vdot n (row Y (fst ic)) x)).
  2:{ intros ic _. now rewrite fsum_scale. }
  match goal with
  | |- ?a + fsum ?f ?l + ?c = ?a + ?c + fsum ?g ?l - 2 * fsum ?h ?l + fsum ?k ?l =>
      replace (fsum f l) with (fsum g l + -2 * fsum h l + fsum k l); [ring|]
  end.
  rewrite <- fsum_scale, <- !fsum_add. apply fsum_ext. intros ic _. ring.
Qed.

End User.

End RealMinimum.

Section RealSweep.

Local Open Scope R_scope.

Variable backend : lapack (F := R).



Lemma rectangular_rows (M : ndarray2 R) :
  (forall u, (u < shape0 M)%nat -> length (row M u) = shape1 M) ->
  rectangular M.
Proof.
  intros H. unfold rectangular. apply Forall_forall. intros r Hr.
  destruct (In_nth _ _ [] Hr) as (u & Hu & <-). now apply H.
Qed.



End RealSweep.

(** * [least_squares_cg] lowers the objective *)

Section RealDescent.

Local Open Scope R_scope.

Lemma vdot_axpy_l (n : nat) (alpha : R) (x p w : list R) :
  vdot n (vec n (fun k => nth k x 0 + alpha * nth k p 0)) w
  = vdot n x w + alpha * vdot n p w.
Proof.
  rewrite vdot_vec_l. unfold vdot. rewrite <- fsum_scale, <- fsum_add.
  apply fsum_ext. intros j _. rsc. ring.
Qed.

Lemma vdot_ext_r (n : nat) (x a a' : list R) :
  (forall k, (k < n)%nat -> nth k a 0 = nth k a' 0) ->
  vdot n x a = vdot n x a'.
Proof.
  intros H. unfold vdot. apply fsum_ext. intros k Hk. apply in_seq in Hk.
  rsc. now rewrite H by lia.
Qed.

Lemma quad_form_axpy (n : nat) (M : nat -> nat -> R) (alpha : R) (x p : list R) :
  symmetric n M ->
  quad_form n M (vec n (fun k => nth k x 0 + alpha * nth k p 0))
  = quad_form n M x + 2 * alpha * vdot n p (mat_vec n M x)
    + alpha * alpha * quad_form n M p.
Proof.
  intros Hsym. unfold quad_form.
  set (x' := vec n (fun k => nth k x 0 + alpha * nth k p 0)).
  rewrite (vdot_ext_r n x' (mat_vec n M x')
             (vec n (fun j => nth j (mat_vec n M x) 0
                              + alpha * nth j (mat_vec n M p) 0))).
  2:{ intros j Hj. unfold x'. rewrite mat_vec_axpy, nth_vec by assumption.
      reflexivity. }
  unfold x'. rewrite vdot_axpy_l.
  rewrite !(vdot_comm n _ (vec n _)), !vdot_axpy_l.
  rewrite (vdot_comm n (mat_vec n M x) p), (vdot_comm n (mat_vec n M p) x).
  rewrite (vdot_comm n (mat_vec n M p) p), (vdot_comm n (mat_vec n M x) x).
  rewrite (bilinear_symmetric n M x p Hsym). ring.
Qed.

Section Recurrence.

Variables (n : nat) (M : nat -> nat -> R) (b : nat -> R) (x0 : list R).

Hypothesis M_symmetric : symmetric n M.
Hypothesis M_positive : positive_definite n M.

Let f (x : list R) : R := quad_form n M x - 2 * vdot n x (vec n b).

Let v (k : nat) : cg_vars := Nat.iter k (cg_step n M) (cg_init n M b x0).

(** While the squared residual norm met before each step is not zero, r is
    orthogonal to the previous direction, so r . p = r . r, and every step
    lowers x^t M x - 2 b . x. *)
Lemma cg_step_descends (k : nat) :
  (forall j, (j < k)%nat -> sv_rsold (v j) <> 0) ->
  vdot n (sv_r (v k)) (sv_p (v k)) = vdot n (sv_r (v k)) (sv_r (v k))
  /\ f (sv_x (v k)) <= f x0.
Proof.
  induction k as [|k IH]; intros Hnz.
  - unfold v. cbn [Nat.iter nat_rect]. unfold cg_init. cbn [sv_x sv_r sv_p].
    split; [reflexivity|lra].
  - destruct IH as [Hrp Hf]; [intros j Hj; apply Hnz; lia|].
    pose proof (Hnz k ltac:(lia)) as Hrs.
    destruct (cg_step_residual n M b x0 k) as [Hres Hnorm].
    cbv zeta in Hres, Hnorm. fold (v k) in Hres, Hnorm.
    unfold v. rewrite Nat.iter_succ. fold (v k).
    set (x := sv_x (v k)) in *. set (r := sv_r (v k)) in *.
    set (p := sv_p (v k)) in *. set (rsold := sv_rsold (v k)) in *.
    assert (Hp : exists j, (j < n)%nat /\ nth j p 0 <> 0).
    { destruct (zero_or_nonzero n p) as [Hz|]; [|assumption]. exfalso.
      apply Hrs. rewrite Hnorm, <- Hrp. unfold vdot.
      rewrite (fsum_ext _ (fun _ => 0)); [apply fsum_zero|].
      intros j Hj. apply in_seq in Hj. rsc. rewrite Hz by lia. ring. }
    pose proof (M_positive p Hp) as Hpos. unfold quad_form in Hpos.
    set (pAp := vdot n p (mat_vec n M p)) in *.
    unfold cg_step. cbv zeta. cbn [sv_x sv_r sv_p sv_rsold].
    fold x r p rsold pAp. rsc.
    set (alpha := rsold / pAp).
    assert (Halpha : alpha * pAp = rsold) by (unfold alpha; field; lra).
    set (r' := vec n (fun k0 => nth k0 r 0 - alpha * nth k0 (mat_vec n M p) 0)).
    assert (Hr'p : vdot n r' p = 0).
    { unfold r'.
      rewrite (vdot_vec_l n _ p).
      rewrite (fsum_ext _ (fun j => nth j r 0 * nth j p 0
                                    + - alpha * (nth j p 0 * nth j (mat_vec n M p) 0)))
        by (intros; ring).
      rewrite fsum_add, fsum_scale.
      change (fsum (fun j => nth j r 0 * nth j p 0) (seq 0 n)) with (vdot n r p).
      change (fsum (fun j => nth j p 0 * nth j (mat_vec n M p) 0) (seq 0 n))
        with pAp.
      rewrite Hrp, <- Hnorm. fold rsold. lra. }
    split.
    + rewrite (vdot_comm n r' (vec n _)), vdot_vec_l.
      rewrite (fsum_ext _ (fun j => nth j r' 0 * nth j r' 0
                                    + vdot n r' r' / rsold
                                      * (nth j r' 0 * nth j p 0)))
        by (intros; ring).
      rewrite fsum_add, fsum_scale.
      change (fsum (fun j => nth j r' 0 * nth j p 0) (seq 0 n)) with (vdot n r' p).
      rewrite Hr'p.
      change (fsum (fun j => nth j r' 0 * nth j r' 0) (seq 0 n)) with (vdot n r' r').
      ring.
    + unfold f in *. rewrite quad_form_axpy by assumption.
      rewrite vdot_axpy_l. fold pAp.
      assert (Hpr : vdot n p (vec n b) - vdot n p (mat_vec n M x) = rsold).
      { rewrite Hnorm, <- Hrp, Hres, (vdot_comm n _ p).
        unfold vdot. rsc. symmetry.
        rewrite (fsum_ext _
                   (fun j => nth j p 0 * nth j (vec n b) 0
                             + -1 * (nth j p 0 * nth j (mat_vec n M x) 0))).
        2:{ intros j Hj. apply in_seq in Hj. rewrite !nth_vec by lia. ring. }
        rewrite fsum_add, fsum_scale. ring. }
      assert (Hgain : 0 <= alpha * rsold).
      { unfold alpha. unfold Rdiv. rewrite Rmult_assoc, (Rmult_comm (/ pAp)),
          <- Rmult_assoc.
        apply Rmult_le_pos; [exact (Rle_0_sqr _)|].
        apply Rlt_le, Rinv_0_lt_compat. exact Hpos. }
      assert (H1 : alpha * alpha * pAp = alpha * rsold)
        by (rewrite <- Halpha; ring).
      assert (H2 : alpha * vdot n p (vec n b) - alpha * vdot n p (mat_vec n M x)
                   = alpha * rsold)
        by (rewrite <- Hpr; ring).
      change (quad_form n M p) with pAp. lra.
Qed.

End Recurrence.

End RealDescent.

Section RealCGDescent.

Local Open Scope R_scope.

(** The run of [least_squares_cg] on a well-formed input: the rows of the
    result, and for each user the part of the objective that depends on its
    factors, which the iteration lowers while rsold is not zero. *)
Lemma least_squares_cg_run (Cui : csr_matrix R) (X Y : ndarray2 R)
      (regularization : R) (cg_steps : Z) :
  wf_input Cui X Y -> canonical Cui (shape0 X) -> nonneg_confidence Cui ->
  0 < regularization ->
  exists YtY X',
    np_add (np_dot (np_transpose Y) Y)
           (np_scale regularization (np_eye (shape1 X))) = inr YtY
    /\ least_squares_cg Cui X Y regularization cg_steps = (X', None)
    /\ shape0 X' = shape0 X /\ shape1 X' = shape1 X
    /\ forall u, (u < shape0 X)%nat ->
         length (row X' u) = shape1 X
         /\ ((forall j, (j < Z.to_nat cg_steps)%nat ->
                cg_rsold (Nat.iter j (cg_iteration (shape1 X) YtY Cui Y u)
                                   (cg_start (shape1 X) YtY Cui Y X u)) <> 0) ->
             user_cost Cui Y regularization (shape1 X) u (row X' u)
             <= user_cost Cui Y regularization (shape1 X) u (row X u)).
Proof.
  intros Hwf Hcan Hnn Hreg.
  destruct (initialA_spec Y regularization (shape1 X) (wf_width _ _ _ Hwf))
    as (YtY & Hadd & _ & _ & Hall & Hentries).
  set (n := shape1 X) in *.
  exists YtY, (fold_left (cg_user n YtY Cui Y cg_steps) (seq 0 (shape0 X)) X).
  split; [exact Hadd|].
  split; [unfold least_squares_cg; cbv zeta; fold n; now rewrite Hadd|].
  destruct (cg_loop_rows n YtY Cui Y cg_steps (seq 0 (shape0 X)) X)
    as (H0 & H1 & Hrows).
  { apply seq_NoDup. }
  { intros u Hu. apply in_seq in Hu. lia. }
  split; [exact H0|]. split; [exact H1|]. intros u Hu.
  rewrite Hrows.
  destruct (in_dec Nat.eq_dec u (seq 0 (shape0 X))) as [_|Hn];
    [|exfalso; apply Hn, in_seq; lia].
  assert (Hlen : length (row X u) = n).
  { apply row_length; [apply (wf_X _ _ _ Hwf)|assumption]. }
  destruct (cg_user_R Cui Y regularization n u YtY X Hall Hentries Hu cg_steps Hlen)
    as [Hrun Hlx].
  rewrite Hrun, row_set_row_same by assumption.
  split; [exact Hlx|]. intros Hnz.
  rewrite !(user_cost_quadratic Cui X Y regularization u Hwf Hcan Hu).
  fold n.
  destruct (cg_step_descends n (normal_matrix Cui Y regularization u)
              (normal_rhs Cui Y u) (row X u)
              (normal_matrix_symmetric Cui Y regularization u n)
              (normal_matrix_pd Cui X Y regularization u Hwf Hcan Hnn Hreg Hu)
              (Z.to_nat cg_steps)) as [_ Hf].
  { intros j Hj.
    destruct (cg_iterations_hold Cui Y regularization n u YtY X Hall Hentries Hu j Hlen)
      as (_ & _ & _ & Hrs & _).
    rewrite <- Hrs. now apply Hnz. }
  lra.
Qed.

(** X16.  In exact arithmetic, on a well-formed input with one stored
    value per cell, non-negative confidences and regularization > 0, the
    iterations of [least_squares_cg] do not increase the part of the
    objective that depends on the user's factors, as long as rsold is not
    zero on entry to each of them. *)
Theorem least_squares_cg_descends (Cui : csr_matrix R) (X Y : ndarray2 R)
        (regularization : R) (cg_steps : Z) :
  wf_input Cui X Y -> canonical Cui (shape0 X) -> nonneg_confidence Cui ->
  0 < regularization ->
  exists YtY X',
    np_add (np_dot (np_transpose Y) Y)
           (np_scale regularization (np_eye (shape1 X))) = inr YtY
    /\ least_squares_cg Cui X Y regularization cg_steps = (X', None)
    /\ forall u, (u < shape0 X)%nat ->
         (forall j, (j < Z.to_nat cg_steps)%nat ->
            cg_rsold (Nat.iter j (cg_iteration (shape1 X) YtY Cui Y u)
                               (cg_start (shape1 X) YtY Cui Y X u)) <> 0) ->
         user_cost Cui Y regularization (shape1 X) u (row X' u)
         <= user_cost Cui Y regularization (shape1 X) u (row X u).
Proof.
  intros Hwf Hcan Hnn Hreg.
  destruct (least_squares_cg_run Cui X Y regularization cg_steps
              Hwf Hcan Hnn Hreg) as (YtY & X' & Hadd & Hrun & _ & _ & Hu).
  exists YtY, X'. split; [exact Hadd|]. split; [exact Hrun|].
  intros u Hlt. now apply Hu.
Qed.

(** X17.  In exact arithmetic, on a well-formed input with one stored
    value per cell, non-negative confidences and regularization > 0, when
    rsold is not zero on entry to any iteration of any user and the
    denominator of the loss is not zero, the loss of the factors that
    [least_squares_cg] returns is not greater than the loss of the factors
    it was given. *)
Theorem least_squares_cg_does_not_increase_loss (Cui : csr_matrix R)
        (X Y : ndarray2 R) (regularization : R) (cg_steps : Z) :
  wf_input Cui X Y -> canonical Cui (shape0 X) -> nonneg_confidence Cui ->
  0 < regularization -> loss_denominator Cui X Y <> 0 ->
  exists YtY X',
    np_add (np_dot (np_transpose Y) Y)
           (np_scale regularization (np_eye (shape1 X))) = inr YtY
    /\ least_squares_cg Cui X Y regularization cg_steps = (X', None)
    /\ ((forall u j, (u < shape0 X)%nat -> (j < Z.to_nat cg_steps)%nat ->
           cg_rsold (Nat.iter j (cg_iteration (shape1 X) YtY Cui Y u)
                              (cg_start (shape1 X) YtY Cui Y X u)) <> 0) ->
        exists before after,
          snd (calculate_loss Cui X Y regularization) = inr before
          /\ snd (calculate_loss Cui X' Y regularization) = inr after
          /\ after <= before).
Proof.
  intros Hwf Hcan Hnn Hreg Hden.
  destruct (least_squares_cg_run Cui X Y regularization cg_steps
              Hwf Hcan Hnn Hreg) as (YtY & X' & Hadd & Hrun & H0 & H1 & Hu).
  exists YtY, X'. split; [exact Hadd|]. split; [exact Hrun|]. intros Hnz.
  assert (Hobj : als_objective Cui X' Y regularization
                 <= als_objective Cui X Y regularization).
  { unfold als_objective. rewrite H0, H1. rsc.
    apply Rplus_le_compat_r. apply fsum_le. intros u Hlt. apply in_seq in Hlt.
    apply Hu; [lia|]. intros j Hj. apply Hnz; [lia|assumption]. }
  assert (Hwf' : wf_input Cui X' Y).
  { destruct Hwf. constructor; try rewrite H0; try rewrite H1; auto.
    apply rectangular_rows. intros u Hlt. rewrite H1. apply Hu. lia. }
  assert (Hden' : loss_denominator Cui X' Y = loss_denominator Cui X Y).
  { unfold loss_denominator. now rewrite H0. }
  exists (als_objective Cui X Y regularization / loss_denominator Cui X Y),
    (als_objective Cui X' Y regularization / loss_denominator Cui X Y).
  split.
  { rewrite (calculate_loss_quotient Cui X Y regularization Hwf Hcan).
    destruct (Req_dec_T (loss_denominator Cui X Y) 0); [contradiction|reflexivity]. }
  split.
  - rewrite (calculate_loss_quotient Cui X' Y regularization Hwf')
      by (now rewrite H0).
    rewrite Hden'.
    destruct (Req_dec_T (loss_denominator Cui X Y) 0); [contradiction|reflexivity].
  - pose proof (loss_denominator_nonneg Cui X Y Hwf Hcan Hnn).
    apply Rmult_le_compat_r; [|assumption].
    apply Rlt_le, Rinv_0_lt_compat. lra.
Qed.

End RealCGDescent.

(** * The order of the stored entries *)

Section WellFormedRows.

Context {F : Type} {SF : Scalar F}.

(** The row pointer counts the stored entries of the rows before it. *)
Lemma indptr_counts (Cui : csr_matrix F) (X Y : ndarray2 F) (u : nat) :
  wf_input Cui X Y -> u <= shape0 X ->
  nth u (indptr Cui) 0
  = list_sum (map (fun w => length (observed Cui w)) (seq 0 u)).
Proof.
  intros Hwf. induction u as [|u IH]; intros Hu.
  - apply (wf_indptr_first _ _ _ Hwf).
  - rewrite seq_S, map_app, list_sum_app. cbn [map list_sum Nat.add].
    rewrite <- IH by lia. rewrite length_observed.
    pose proof (wf_indptr_mono _ _ _ Hwf u ltac:(lia)) as Hmono.
    replace (S u) with (u + 1) by lia. cbn [list_sum fold_right]. unfold list_sum. cbn [fold_right]. lia.
Qed.

(** Two confidence matrices whose rows store the same entries have the
    same number of stored entries. *)
Lemma same_rows_same_nnz (Cui Cui' : csr_matrix F) (X Y : ndarray2 F) :
  wf_input Cui X Y -> wf_input Cui' X Y ->
  (forall u, u < shape0 X -> Permutation (observed Cui u) (observed Cui' u)) ->
  nnz Cui = nnz Cui'.
Proof.
  intros Hwf Hwf' Hrows.
  rewrite <- (wf_indptr_last _ _ _ Hwf), <- (wf_indptr_last _ _ _ Hwf').
  rewrite (indptr_counts Cui X Y _ Hwf (le_n _)).
  rewrite (indptr_counts Cui' X Y _ Hwf' (le_n _)).
  f_equal. apply map_ext_in. intros u Hu. apply in_seq in Hu.
  apply Permutation_length, Hrows. lia.
Qed.

End WellFormedRows.

Section RealEntryOrder.

Local Open Scope R_scope.

Variables (Cui Cui' : csr_matrix R) (X Y : ndarray2 R).

Hypothesis Hwf : wf_input Cui X Y.
Hypothesis Hwf' : wf_input Cui' X Y.
Hypothesis Hrows :
  forall u, (u < shape0 X)%nat -> Permutation (observed Cui u) (observed Cui' u).

Lemma normal_matrix_entry_order (regularization : R) (u j k : nat) :
  (u < shape0 X)%nat ->
  normal_matrix Cui Y regularization u j k
  = normal_matrix Cui' Y regularization u j k.
Proof.
  intros Hu. unfold normal_matrix. f_equal. now apply fsum_permutation, Hrows.
Qed.

Lemma normal_rhs_entry_order (u j : nat) :
  (u < shape0 X)%nat -> normal_rhs Cui Y u j = normal_rhs Cui' Y u j.
Proof.
  intros Hu. unfold normal_rhs. now apply fsum_permutation, Hrows.
Qed.

Lemma user_term_entry_order (u : nat) :
  (u < shape0 X)%nat -> user_term Cui X Y u = user_term Cui' X Y u.
Proof.
  intros Hu. unfold user_term. cbv zeta. f_equal. unfold vec.
  apply map_ext. intros j. f_equal. now apply fsum_permutation, Hrows.
Qed.

Lemma total_confidence_entry_order :
  total_confidence Cui = total_confidence Cui'.
Proof.
  rewrite <- (total_confidence_rows Cui X Y Hwf).
  rewrite <- (total_confidence_rows Cui' X Y Hwf').
  apply fsum_ext. intros u Hu. apply in_seq in Hu.
  apply fsum_permutation, Hrows. lia.
Qed.

End RealEntryOrder.

Section RealEntryOrderTheorems.

Local Open Scope R_scope.

Variable backend : lapack (F := R).

(** X18.  In exact arithmetic, under the conditions of the direct solve,
    [least_squares] depends on which entries a row of the confidence matrix
    stores, not on the order in which it stores them: two well-formed
    matrices whose rows are permutations of each other give the same
    array. *)
Theorem least_squares_entry_order (Cui Cui' : csr_matrix R) (X Y : ndarray2 R)
        (regularization : R) :
  posv_solves_spd backend (shape1 X) ->
  wf_input Cui X Y -> wf_input Cui' X Y ->
  (forall u, (u < shape0 X)%nat ->
     Permutation (observed Cui u) (observed Cui' u)) ->
  canonical Cui (shape0 X) -> canonical Cui' (shape0 X) ->
  nonneg_confidence Cui -> nonneg_confidence Cui' ->
  0 < regularization ->
  exists X',
    least_squares backend Cui X Y regularization = (X', None)
    /\ least_squares backend Cui' X Y regularization = (X', None).
Proof.
  intros Hposv Hwf Hwf' Hrows Hcan Hcan' Hnn Hnn' Hreg.
  destruct (least_squares_solves backend Cui X Y regularization
              Hposv Hwf Hcan Hnn Hreg) as (X1 & Hrun1 & Ha0 & Ha1 & Hsol1).
  destruct (least_squares_solves backend Cui' X Y regularization
              Hposv Hwf' Hcan' Hnn' Hreg) as (X2 & Hrun2 & Hb0 & Hb1 & Hsol2).
  exists X1. split; [exact Hrun1|]. rewrite Hrun2. f_equal.
  apply ndarray2_ext; [congruence|congruence|].
  intros u Hu. rewrite Hb0 in Hu.
  apply (solves_unique (shape1 X) (normal_matrix Cui Y regularization u)
           (row X1 u) (row X2 u) (normal_rhs Cui Y u)).
  - now apply (normal_matrix_pd Cui X Y).
  - now apply Hsol1.
  - apply (solves_ext (shape1 X) (normal_matrix Cui' Y regularization u) _ _
             (normal_rhs Cui' Y u)).
    + intros j k _ _. symmetry.
      now apply (normal_matrix_entry_order Cui Cui' X Y Hrows).
    + intros j _. symmetry.
      now apply (normal_rhs_entry_order Cui Cui' X Y Hrows).
    + now apply Hsol2.
Qed.

(** X19.  In exact arithmetic [calculate_loss] depends on which entries a
    row of the confidence matrix stores, not on the order in which it
    stores them: on two well-formed matrices whose rows are permutations
    of each other it returns the same value or raises the same error. *)
Theorem calculate_loss_entry_order (Cui Cui' : csr_matrix R) (X Y : ndarray2 R)
        (regularization : R) :
  wf_input Cui X Y -> wf_input Cui' X Y ->
  (forall u, (u < shape0 X)%nat ->
     Permutation (observed Cui u) (observed Cui' u)) ->
  snd (calculate_loss Cui X Y regularization)
  = snd (calculate_loss Cui' X Y regularization).
Proof.
  intros Hwf Hwf' Hrows.
  rewrite (calculate_loss_R Cui X Y regularization Hwf).
  rewrite (calculate_loss_R Cui' X Y regularization Hwf').
  pose proof (total_confidence_entry_order Cui Cui' X Y Hwf Hwf' Hrows) as Htot.
  assert (Hden : loss_denominator Cui X Y = loss_denominator Cui' X Y).
  { unfold loss_denominator.
    now rewrite Htot, (same_rows_same_nnz Cui Cui' X Y Hwf Hwf' Hrows). }
  assert (Hnum : loss_with_constant Cui X Y regularization
                 = loss_with_constant Cui' X Y regularization).
  { unfold loss_with_constant. rewrite Hden, Htot.
    f_equal. f_equal. f_equal. unfold sum_user_terms.
    apply fsum_ext. intros u Hu. apply in_seq in Hu.
    apply (user_term_entry_order Cui Cui' X Y Hrows). lia. }
  now rewrite Hden, Hnum.
Qed.

End RealEntryOrderTheorems.

Section RealRecurrenceExt.

Local Open Scope R_scope.

Lemma mat_vec_ext (n : nat) (M M' : nat -> nat -> R) (x : list R) :
  (forall j k, (j < n)%nat -> (k < n)%nat -> M j k = M' j k) ->
  mat_vec n M x = mat_vec n M' x.
Proof.
  intros H. unfold mat_vec, vec. apply map_ext_in. intros j Hj.
  apply in_seq in Hj. apply fsum_ext. intros k Hk. apply in_seq in Hk.
  now rewrite H by lia.
Qed.

(** The recurrence reads the entries of the matrix and of the right-hand
    side with indices below [n] only. *)
Lemma cg_recurrence_ext (n : nat) (M M' : nat -> nat -> R) (b b' : nat -> R)
      (x0 : list R) (k : nat) :
  (forall j i, (j < n)%nat -> (i < n)%nat -> M j i = M' j i) ->
  (forall j, (j < n)%nat -> b j = b' j) ->
  Nat.iter k (cg_step n M) (cg_init n M b x0)
  = Nat.iter k (cg_step n M') (cg_init n M' b' x0).
Proof.
  intros HM Hb. induction k as [|k IH].
  - cbn [Nat.iter nat_rect]. unfold cg_init.
    rewrite (mat_vec_ext n M M' x0 HM).
    assert (Hr : vec n (fun j => b j -! nth j (mat_vec n M' x0) fzero)
                 = vec n (fun j => b' j -! nth j (mat_vec n M' x0) fzero)).
    { unfold vec. apply map_ext_in. intros j Hj. apply in_seq in Hj.
      now rewrite Hb by lia. }
    now rewrite Hr.
  - rewrite !Nat.iter_succ, IH. unfold cg_step.
    now rewrite (mat_vec_ext n M M' _ HM).
Qed.

End RealRecurrenceExt.

Section RealEntryOrderCG.

Local Open Scope R_scope.

(** X20.  In exact arithmetic [least_squares_cg] depends on which entries
    a row of the confidence matrix stores, not on the order in which it
    stores them: on two well-formed matrices whose rows are permutations
    of each other it leaves the same array. *)
Theorem least_squares_cg_entry_order (Cui Cui' : csr_matrix R)
        (X Y : ndarray2 R) (regularization : R) (cg_steps : Z) :
  wf_input Cui X Y -> wf_input Cui' X Y ->
  (forall u, (u < shape0 X)%nat ->
     Permutation (observed Cui u) (observed Cui' u)) ->
  least_squares_cg Cui X Y regularization cg_steps
  = least_squares_cg Cui' X Y regularization cg_steps.
Proof.
  intros Hwf Hwf' Hrows.
  destruct (initialA_spec Y regularization (shape1 X) (wf_width _ _ _ Hwf))
    as (YtY & Hadd & _ & _ & Hall & Hentries).
  unfold least_squares_cg. rewrite Hadd. f_equal.
  set (n := shape1 X) in *.
  destruct (cg_loop_rows n YtY Cui Y cg_steps (seq 0 (shape0 X)) X)
    as (Ha0 & Ha1 & Harows);
    [apply seq_NoDup|intros u Hu; apply in_seq in Hu; lia|].
  destruct (cg_loop_rows n YtY Cui' Y cg_steps (seq 0 (shape0 X)) X)
    as (Hb0 & Hb1 & Hbrows);
    [apply seq_NoDup|intros u Hu; apply in_seq in Hu; lia|].
  apply ndarray2_ext; [congruence|congruence|].
  intros u Hu. rewrite Ha0 in Hu. rewrite Harows, Hbrows.
  destruct (in_dec Nat.eq_dec u (seq 0 (shape0 X))) as [_|Hn];
    [|exfalso; apply Hn, in_seq; lia].
  assert (Hlen : length (row X u) = n).
  { apply row_length; [apply (wf_X _ _ _ Hwf)|assumption]. }
  destruct (cg_user_R Cui Y regularization n u YtY X Hall Hentries Hu cg_steps Hlen)
    as [-> _].
  destruct (cg_user_R Cui' Y regularization n u YtY X Hall Hentries Hu cg_steps Hlen)
    as [-> _].
  rewrite !row_set_row_same by assumption. f_equal.
  apply cg_recurrence_ext.
  - intros j i _ _. now apply (normal_matrix_entry_order Cui Cui' X Y Hrows).
  - intros j _. now apply (normal_rhs_entry_order Cui Cui' X Y Hrows).
Qed.

End RealEntryOrderCG.

(** * Runs of the properties above *)

Section LoopRuns.

Local Open Scope float_scope.

(** X1, witness: [s_X] and [sing_X], both 2 x 2, on [s_Cui], [s_Y] and
    regularization 1; the call returns normally. *)
Lemma least_squares_ignores_previous_rows_witness :
  snd (least_squares reference_lapack s_Cui s_X s_Y 1) = None
  /\ snd (least_squares reference_lapack s_Cui s_X s_Y 1)
     = snd (least_squares reference_lapack s_Cui sing_X s_Y 1)
  /\ (snd (least_squares reference_lapack s_Cui s_X s_Y 1) = None ->
      fst (least_squares reference_lapack s_Cui s_X s_Y 1)
      = fst (least_squares reference_lapack s_Cui sing_X s_Y 1)).
Proof.
  split; [vm_compute; reflexivity|].
  apply least_squares_ignores_previous_rows;
    [reflexivity | reflexivity | repeat constructor | repeat constructor].
Defined.


(** X3, witness: the two users of [s_X] in the order 1, 0, three steps. *)
Lemma least_squares_cg_order_independent_witness :
  fold_left (cg_user 2 s_initialA s_Cui s_Y 3) [1; 0]%nat s_X
  = fold_left (cg_user 2 s_initialA s_Cui s_Y 3) (seq 0 (shape0 s_X)) s_X
  /\ forall u, (u < shape0 s_X)%nat ->
       row (fold_left (cg_user 2 s_initialA s_Cui s_Y 3) [1; 0]%nat s_X) u
       = row (cg_user 2 s_initialA s_Cui s_Y 3 s_X u) u.
Proof.
  apply least_squares_cg_order_independent. cbn. apply perm_swap.
Defined.


(** X6, witness: factors of width 2 and of width 1 for the two users of
    [s_Cui]. *)
Lemma calculate_loss_divisor_independent_witness :
  loss_divisor s_Cui (fst (calculate_loss s_Cui s_X s_Y 1))
  = loss_divisor s_Cui (fst (calculate_loss s_Cui narrow_X z_Y 0))
  /\ (snd (calculate_loss s_Cui s_X s_Y 1) = inl ZeroDivisionError
      <-> snd (calculate_loss s_Cui narrow_X z_Y 0) = inl ZeroDivisionError).
Proof.
  apply calculate_loss_divisor_independent. reflexivity.
Defined.

End LoopRuns.

Section RealRuns.

Local Open Scope R_scope.

Lemma rex_wf : wf_input rex_Cui rex_X rex_Y.
Proof. concrete_wf. Qed.

Lemma rex_canonical : canonical rex_Cui (shape0 rex_X).
Proof. concrete_canonical. Qed.


Lemma rex_nonneg : nonneg_confidence rex_Cui.
Proof. repeat constructor; cbn; lra. Qed.

Lemma rex_denominator : loss_denominator rex_Cui rex_X rex_Y <> 0.
Proof. unfold loss_denominator, total_confidence. cbn. lra. Qed.

(** X7, witness: [rex_Cui], [rex_X], [rex_Y]. *)
Lemma least_squares_cg_residual_witness :
  exists YtY,
    np_add (np_dot (np_transpose rex_Y) rex_Y)
           (np_scale 0.1 (np_eye (shape1 rex_X))) = inr YtY
    /\ forall u k, (u < shape0 rex_X)%nat ->
         let n := shape1 rex_X in
         let A := normal_matrix rex_Cui rex_Y 0.1 u in
         let b := normal_rhs rex_Cui rex_Y u in
         let st := Nat.iter k (cg_iteration n YtY rex_Cui rex_Y u)
                            (cg_start n YtY rex_Cui rex_Y rex_X u) in
         cg_r st = vec n (fun j => b j - nth j (mat_vec n A (row (cg_X st) u)) 0)
         /\ cg_rsold st = vdot n (cg_r st) (cg_r st)
         /\ (cg_rsold st = 0 -> solves n A (row (cg_X st) u) b).
Proof. apply least_squares_cg_residual. exact rex_wf. Defined.

(** X8, witness: the three users of [rex_X] in the orders 0, 1, 2 and
    1, 0, 2. *)
Lemma calculate_loss_user_order_witness :
  let st := {| lo_X := rex_X; lo_Y := rex_Y; lo_loss := 0;
               lo_total_confidence := 0; lo_item_norm := 0;
               lo_user_norm := 0 |} in
  fold_left (loss_user (shape1 rex_X) (np_dot (np_transpose rex_Y) rex_Y) rex_Cui)
            [0; 1; 2]%nat st
  = fold_left (loss_user (shape1 rex_X) (np_dot (np_transpose rex_Y) rex_Y) rex_Cui)
              [1; 0; 2]%nat st.
Proof.
  cbv zeta.
  apply (calculate_loss_user_order rex_Cui rex_X rex_Y);
    [reflexivity | reflexivity | reflexivity | apply perm_swap].
Defined.

Lemma cl_solved :
  solves (shape1 cl_X) (normal_matrix cl_Cui cl_Y 0 0) (row cl_X 0)
         (normal_rhs cl_Cui cl_Y 0).
Proof.
  split; [reflexivity|]. intros j Hj.
  destruct j as [|j]; [|cbn in Hj; lia].
  unfold mat_vec, vec, normal_matrix, normal_rhs, gram, observed, range.
  cbn. lra.
Qed.

(** X9, witness: [cl_Cui], [cl_X], [cl_Y] with regularization 0, where
    A = (2), b = (2) and x = (1). *)
Lemma least_squares_cg_solved_row_zero_divisor_witness :
  exists YtY,
    np_add (np_dot (np_transpose cl_Y) cl_Y)
           (np_scale 0 (np_eye (shape1 cl_X))) = inr YtY
    /\ let st := cg_start (shape1 cl_X) YtY cl_Cui cl_Y cl_X 0 in
       cg_rsold st = 0
       /\ dot (shape1 cl_X) (cg_p st)
              (cg_Ap (shape1 cl_X) YtY cl_Cui cl_Y 0 (cg_p st)) = 0.
Proof.
  apply least_squares_cg_solved_row_zero_divisor.
  - exact cl_wf.
  - cbn. lia.
  - exact cl_solved.
Defined.

(** X10, witness: [rex_Cui], [rex_X], [rex_Y]. *)
Lemma calculate_loss_objective_witness :
  snd (calculate_loss rex_Cui rex_X rex_Y 0.1)
  = inr (als_objective rex_Cui rex_X rex_Y 0.1
         / loss_denominator rex_Cui rex_X rex_Y).
Proof.
  apply calculate_loss_objective;
    [exact rex_wf | exact rex_canonical | exact rex_denominator].
Defined.






(** On [rex_Cui], [rex_X], [rex_Y] with regularization 0.1 no user starts
    from a zero residual. *)
Lemma rex_first_residual_nonzero (YtY : ndarray2 R) (u : nat) :
  np_add (np_dot (np_transpose rex_Y) rex_Y)
         (np_scale 0.1 (np_eye (shape1 rex_X))) = inr YtY ->
  (u < shape0 rex_X)%nat ->
  cg_rsold (cg_start (shape1 rex_X) YtY rex_Cui rex_Y rex_X u) <> 0.
Proof.
  intros Hadd Hu.
  destruct (initialA_spec rex_Y 0.1 (shape1 rex_X) eq_refl)
    as (YtY' & Hadd' & _ & _ & Hall & Hentries).
  rewrite Hadd in Hadd'. injection Hadd' as <-.
  assert (Hlen : length (row rex_X u) = shape1 rex_X).
  { apply row_length; [apply (wf_X _ _ _ rex_wf)|assumption]. }
  destruct (cg_start_holds rex_Cui rex_Y 0.1 (shape1 rex_X) u YtY rex_X
              Hall Hentries Hu Hlen) as (_ & _ & _ & -> & _).
  unfold cg_init. cbn [sv_rsold].
  destruct u as [|[|[|u]]]; [| | |cbn in Hu; lia];
    unfold vdot, vec, mat_vec, normal_matrix, normal_rhs, gram, observed, range;
    cbn; lra.
Qed.

(** X16, witness: one step on [rex_Cui], [rex_X], [rex_Y], where rsold is
    not zero on entry for any user. *)
Lemma least_squares_cg_descends_witness :
  (forall YtY u,
     np_add (np_dot (np_transpose rex_Y) rex_Y)
            (np_scale 0.1 (np_eye (shape1 rex_X))) = inr YtY ->
     (u < shape0 rex_X)%nat ->
     cg_rsold (cg_start (shape1 rex_X) YtY rex_Cui rex_Y rex_X u) <> 0)
  /\ exists YtY X',
       np_add (np_dot (np_transpose rex_Y) rex_Y)
              (np_scale 0.1 (np_eye (shape1 rex_X))) = inr YtY
       /\ least_squares_cg rex_Cui rex_X rex_Y 0.1 1 = (X', None)
       /\ forall u, (u < shape0 rex_X)%nat ->
            (forall j, (j < Z.to_nat 1)%nat ->
               cg_rsold (Nat.iter j (cg_iteration (shape1 rex_X) YtY rex_Cui rex_Y u)
                                  (cg_start (shape1 rex_X) YtY rex_Cui rex_Y rex_X u))
               <> 0) ->
            user_cost rex_Cui rex_Y 0.1 (shape1 rex_X) u (row X' u)
            <= user_cost rex_Cui rex_Y 0.1 (shape1 rex_X) u (row rex_X u).
Proof.
  split; [exact rex_first_residual_nonzero|].
  apply least_squares_cg_descends;
    [exact rex_wf | exact rex_canonical | exact rex_nonneg | lra].
Defined.

(** X17, witness: one step on the same input. *)
Lemma least_squares_cg_does_not_increase_loss_witness :
  exists YtY X',
    np_add (np_dot (np_transpose rex_Y) rex_Y)
           (np_scale 0.1 (np_eye (shape1 rex_X))) = inr YtY
    /\ least_squares_cg rex_Cui rex_X rex_Y 0.1 1 = (X', None)
    /\ ((forall u j, (u < shape0 rex_X)%nat -> (j < Z.to_nat 1)%nat ->
           cg_rsold (Nat.iter j (cg_iteration (shape1 rex_X) YtY rex_Cui rex_Y u)
                              (cg_start (shape1 rex_X) YtY rex_Cui rex_Y rex_X u))
           <> 0) ->
        exists before after,
          snd (calculate_loss rex_Cui rex_X rex_Y 0.1) = inr before
          /\ snd (calculate_loss rex_Cui X' rex_Y 0.1) = inr after
          /\ after <= before).
Proof.
  apply least_squares_cg_does_not_increase_loss;
    [exact rex_wf | exact rex_canonical | exact rex_nonneg | lra
     | exact rex_denominator].
Defined.

End RealRuns.

Section EntryOrderRuns.

Local Open Scope R_scope.

Lemma pair_wf : wf_input pair_Cui pair_X rex_Y.
Proof. concrete_wf. Qed.

Lemma pair_swapped_wf : wf_input pair_Cui_swapped pair_X rex_Y.
Proof. concrete_wf. Qed.

Lemma pair_rows (u : nat) :
  (u < shape0 pair_X)%nat ->
  Permutation (observed pair_Cui u) (observed pair_Cui_swapped u).
Proof.
  intros Hu. destruct u as [|u]; [|cbn in Hu; lia].
  cbn. apply perm_swap.
Qed.

(** X18, witness: [pair_Cui] and [pair_Cui_swapped]. *)
Lemma least_squares_entry_order_witness :
  exists X',
    least_squares reference_lapack pair_Cui pair_X rex_Y 0.1 = (X', None)
    /\ least_squares reference_lapack pair_Cui_swapped pair_X rex_Y 0.1
       = (X', None).
Proof.
  apply least_squares_entry_order.
  - exact posv_ref_order_two.
  - exact pair_wf.
  - exact pair_swapped_wf.
  - exact pair_rows.
  - concrete_canonical.
  - concrete_canonical.
  - repeat constructor; cbn; lra.
  - repeat constructor; cbn; lra.
  - lra.
Defined.

(** X19, witness. *)
Lemma calculate_loss_entry_order_witness :
  snd (calculate_loss pair_Cui pair_X rex_Y 0.1)
  = snd (calculate_loss pair_Cui_swapped pair_X rex_Y 0.1).
Proof.
  apply calculate_loss_entry_order;
    [exact pair_wf | exact pair_swapped_wf | exact pair_rows].
Defined.

(** X20, witness: three steps. *)
Lemma least_squares_cg_entry_order_witness :
  least_squares_cg pair_Cui pair_X rex_Y 0.1 3
  = least_squares_cg pair_Cui_swapped pair_X rex_Y 0.1 3.
Proof.
  apply least_squares_cg_entry_order;
    [exact pair_wf | exact pair_swapped_wf | exact pair_rows].
Defined.

End EntryOrderRuns.
